(** * harvest_scopus.py: the incremental Scopus harvest loop

    A shallow embedding of [src/harvest_scopus.py]: the sliding-window rate
    limiter [rate_limited_get], the retry loop around it, the pagination
    loop with its chunk flushes, and the checkpoint written at the end of a
    run.

    The script talks to three collaborators: the network, the clocks and
    the file system.  They are modelled by a [World] of oracles (what the
    n-th HTTP call answers, how much time passes at the n-th clock event,
    which date it is) and by a trace of [Event]s in which every externally
    visible action of the run is recorded.  Time is kept in seconds as exact
    rationals.  The limiter is embedded twice: with exact arithmetic
    ([rate_limited_get]), and with every arithmetic result rounded to a
    double as Python does ([rate_limited_get_fl] with [round53]); the two
    differ only where a difference of clock readings is not a double, and
    what is said about the edge of the window is said of the second. *)

From Stdlib Require Import String Ascii List ZArith QArith Lqa Lia Bool Arith.
From Stdlib Require Import DecimalString DecimalN FinFun.
From Stdlib Require Import Qround Qpower.
Import ListNotations.
Open Scope string_scope.
Open Scope list_scope.
Open Scope Q_scope.

(** ** Data model *)

(** One Scopus document: a JSON object, kept as key / serialised value
    pairs.  The script only ever looks up the key "prism:coverDate". *)
Definition Doc := list (string * string).

Fixpoint dict_get (k : string) (d : Doc) : option string :=
  match d with
  | [] => None
  | (k', v) :: rest => if String.eqb k k' then Some v else dict_get k rest
  end.

(** The decoded response body, with every key the script reads.  A key that
    may be missing from the JSON text is an [option].  The body is typed:
    a 200 response whose text [resp.json()] cannot decode, or whose values
    are of other JSON types than these (a null "cursor", say), makes lines
    99-123 raise an exception of its own and is not among the answers of
    a [World]. *)
Record CursorObj := { at_next : option string }.

Record SearchResults := {
  entry : option (list Doc);
  cursor : option CursorObj
}.

Record Body := { search_results : option SearchResults }.

(** What [session.get] does: raise [requests.exceptions.RequestException]
    (connection error, timeout, ...) or return a response. *)
Inductive HttpResult :=
| RequestException
| Response (status_code : Z) (body : Body).

(** The [query] dict; only its "cursor" entry is ever assigned to. *)
Record Query := {
  q_query : string;
  q_date : string;
  q_sort : string;
  q_count : Z;
  q_cursor : string;
  q_view : string
}.

Definition set_cursor (c : string) (q : Query) : Query :=
  {| q_query := q_query q; q_date := q_date q; q_sort := q_sort q;
     q_count := q_count q; q_cursor := c; q_view := q_view q |}.

(** The content of [cursor_state.json]. *)
Record Checkpoint := { ck_cursor : string; ck_chunk_counter : Z }.

(** The two tunables the claims vary.  [source_config] holds the values of
    the script. *)
Record Config := { MAX_REQS_PER_RUN : nat; CHUNK_SIZE_REQS : nat }.

Definition source_config : Config :=
  {| MAX_REQS_PER_RUN := 40 * 1000; CHUNK_SIZE_REQS := 2 * 1000 |}.

Definition DATE_RANGE : string := "2000-2024".
Definition MAX_RPS : nat := 9.
Definition WINDOW : Q := 1.

(** Console lines, one constructor per [print] of the script. *)
Inductive Msg :=
| MsgWrote (ndocs : nat) (counter : Z) (date : string)
| MsgNetworkError (nth : nat)
| MsgNetworkFailed
| MsgHttp (status : Z)
| MsgNoMoreEntries
| MsgNoNextCursor
| MsgQuota (last_date : option string)
| MsgDone (requests : nat) (elapsed : Q).

(** [time.sleep] is called from two places. *)
Inductive SleepSite := Limiter | Backoff.

(** Everything a run does that can be observed from outside.  An HTTP
    call carries the clock reading at which the limiter admitted it and the
    time at which [session.get] came back. *)
Inductive Event :=
| EvGet (granted returned : Q) (params : Query) (res : HttpResult)
| EvSleep (site : SleepSite) (secs : Q)
| EvPrint (m : Msg)
| EvWriteChunk (counter : Z) (date : string) (docs : list Doc)
| EvWriteState (c : Checkpoint).

(** ** The outside world *)

Record World := {
  net : nat -> Query -> HttpResult;  (* answer to the n-th [session.get] *)
  tick : nat -> Q;                   (* time that passes at the n-th clock event *)
  today : nat -> string              (* [strftime("%Y%m%d")] at that moment *)
}.

(** [time.perf_counter] never goes backwards and [time.sleep] sleeps at
    least as long as asked. *)
Definition monotonic_clock (w : World) : Prop := forall n, 0 <= tick w n.

(** Mutable state outside the main loop's own variables: the clock, how
    often the oracles were consulted, the limiter's deque and the trace
    (newest event first). *)
Record IO := {
  clock : Q;
  ticks : nat;
  gets : nat;
  recent_ts : list Q;
  events : list Event
}.

Definition init_io : IO :=
  {| clock := 0; ticks := 0; gets := 0; recent_ts := []; events := [] |}.

Definition emit (e : Event) (m : IO) : IO :=
  {| clock := clock m; ticks := ticks m; gets := gets m;
     recent_ts := recent_ts m; events := e :: events m |}.

Definition set_recent_ts (ts : list Q) (m : IO) : IO :=
  {| clock := clock m; ticks := ticks m; gets := gets m;
     recent_ts := ts; events := events m |}.

(** [d] seconds pass, and then whatever the world adds. *)
Definition elapse (w : World) (d : Q) (m : IO) : IO :=
  {| clock := clock m + d + tick w (ticks m); ticks := S (ticks m);
     gets := gets m; recent_ts := recent_ts m; events := events m |}.

Definition perf_counter (w : World) (m : IO) : Q * IO :=
  let m' := elapse w 0 m in (clock m', m').

Definition sleep (w : World) (site : SleepSite) (d : Q) (m : IO) : IO :=
  emit (EvSleep site d) (elapse w d m).

Definition print (msg : Msg) (m : IO) : IO := emit (EvPrint msg) m.

(** [session.get]: the world answers, and some time has passed. *)
Definition session_get (w : World) (params : Query) (m : IO) : HttpResult * IO :=
  let m' := elapse w 0 m in
  (net w (gets m) params,
   {| clock := clock m'; ticks := ticks m'; gets := S (gets m);
      recent_ts := recent_ts m'; events := events m' |}).

(** ** flush_chunk *)

Definition flush_chunk (w : World) (records : list Doc) (counter : Z) (m : IO) : IO :=
  let date := today w (ticks m) in
  print (MsgWrote (List.length records) counter date)
        (emit (EvWriteChunk counter date records) m).

(** ** rate_limited_get *)

(** The inner [while]: pop the stamps that left the window.  The
    difference is taken in exact arithmetic here; [evict_fl] below takes
    it as a double. *)
Fixpoint evict (now : Q) (ts : list Q) : list Q :=
  match ts with
  | t :: rest => if Qle_bool WINDOW (now - t) then evict now rest else ts
  | [] => []
  end.

(** The outer [while True] of the limiter.  It returns the clock reading at
    which the call was admitted.  [None] means the fuel ran out; one pass
    more than there are stamps in the deque is enough, because every pass
    after a sleep pops at least the oldest stamp ([acquire_total]). *)
Fixpoint acquire (w : World) (fuel : nat) (m : IO) : option (Q * IO) :=
  match fuel with
  | O => None
  | S fuel' =>
      let (now, m1) := perf_counter w m in
      let ts := evict now (recent_ts m1) in
      let m2 := set_recent_ts ts m1 in
      if (List.length ts <? MAX_RPS)%nat then Some (now, m2)
      else match ts with
           | t0 :: _ =>
               acquire w fuel' (sleep w Limiter (WINDOW - (now - t0) + (1 # 1000)) m2)
           | [] => None (* not reached: an empty deque is shorter than MAX_RPS *)
           end
  end.

(** A response is stamped after it came back; when [session.get] raises,
    the exception leaves the function before the stamp is appended. *)
Definition rate_limited_get (w : World) (params : Query) (m : IO)
  : option (HttpResult * IO) :=
  match acquire w (S (List.length (recent_ts m))) m with
  | None => None
  | Some (now, m1) =>
      let (res, m2) := session_get w params m1 in
      let m3 := emit (EvGet now (clock m2) params res) m2 in
      match res with
      | RequestException => Some (res, m3)
      | Response _ _ =>
          let (t, m4) := perf_counter w m3 in
          Some (res, set_recent_ts (recent_ts m4 ++ [t]) m4)
      end
  end.

(** ** The retry loop: [for attempt in range(5): ... else: ...] *)

Fixpoint retry_loop (w : World) (attempts : list nat) (params : Query) (m : IO)
  : option (option (Z * Body) * IO) :=
  match attempts with
  | [] => Some (None, print MsgNetworkFailed m)
  | attempt :: rest =>
      match rate_limited_get w params m with
      | None => None
      | Some (Response status body, m1) => Some (Some (status, body), m1)
      | Some (RequestException, m1) =>
          retry_loop w rest params
            (sleep w Backoff (2 + inject_Z (Z.of_nat attempt))
               (print (MsgNetworkError (attempt + 1)) m1))
      end
  end.

Definition fetch (w : World) (params : Query) (m : IO) :=
  retry_loop w (seq 0 5) params m.

(** ** The main loop *)

Record Vars := {
  query : Query;
  chunk_counter : Z;
  records_buffer : list Doc;
  requests_done : nat
}.

(** Why the loop was left.  The last two are uncaught exceptions: the
    script dies there and nothing after the loop is executed. *)
Inductive Stop :=
| NetworkFailed
| HttpError (status : Z)
| NoEntries
| NoNextCursor
| QuotaHit
| KeyError
| ZeroDivisionError.

Definition crashed (s : Stop) : bool :=
  match s with
  | KeyError | ZeroDivisionError => true
  | _ => false
  end.

Inductive Flow := Continue | Break (s : Stop).

(** [data.get("search-results", {}).get("entry", [])] *)
Definition entries_of (b : Body) : list Doc :=
  match search_results b with
  | Some sr => match entry sr with Some es => es | None => [] end
  | None => []
  end.

(** [data["search-results"]["cursor"].get("@next")]; [None] outside is the
    KeyError of a missing "search-results" or "cursor" key. *)
Definition next_cursor_of (b : Body) : option (option string) :=
  match search_results b with
  | Some sr => match cursor sr with Some c => Some (at_next c) | None => None end
  | None => None
  end.

(** Python truthiness of the "@next" value. *)
Definition truthy (s : option string) : option string :=
  match s with
  | Some EmptyString => None
  | other => other
  end.

(** [entries[-1].get("prism:coverDate")] *)
Definition last_cover_date (entries : list Doc) : option string :=
  dict_get "prism:coverDate" (last entries []).

(** Lines 105-106: [records_buffer.extend(entries); requests_done += 1]. *)
Definition count_page (entries : list Doc) (v : Vars) : Vars :=
  {| query := query v; chunk_counter := chunk_counter v;
     records_buffer := records_buffer v ++ entries;
     requests_done := S (requests_done v) |}.

(** Line 113: [query["cursor"] = next_cursor]. *)
Definition advance_cursor (next_cursor : string) (v : Vars) : Vars :=
  {| query := set_cursor next_cursor (query v); chunk_counter := chunk_counter v;
     records_buffer := records_buffer v; requests_done := requests_done v |}.

(** Lines 117-119, the body of the chunk flush. *)
Definition flush_and_reset (w : World) (v : Vars) (m : IO) : Vars * IO :=
  ({| query := query v; chunk_counter := (chunk_counter v + 1)%Z;
      records_buffer := []; requests_done := requests_done v |},
   flush_chunk w (records_buffer v) (chunk_counter v + 1)%Z m).

(** Lines 128-130: the leftovers are flushed, the buffer is not reset. *)
Definition flush_leftovers (w : World) (v : Vars) (m : IO) : Vars * IO :=
  match records_buffer v with
  | [] => (v, m)
  | _ :: _ =>
      ({| query := query v; chunk_counter := (chunk_counter v + 1)%Z;
          records_buffer := records_buffer v;
          requests_done := requests_done v |},
       flush_chunk w (records_buffer v) (chunk_counter v + 1)%Z m)
  end.

(** One pass through the body of [while True]. *)
Definition iteration (w : World) (cfg : Config) (v : Vars) (m : IO)
  : option (Flow * Vars * IO) :=
  match fetch w (query v) m with
  | None => None
  | Some (None, m1) => Some (Break NetworkFailed, v, m1)
  | Some (Some (status, body), m1) =>
      if negb (status =? 200)%Z then
        Some (Break (HttpError status), v, print (MsgHttp status) m1)
      else
        let entries := entries_of body in
        match entries with
        | [] => Some (Break NoEntries, v, print MsgNoMoreEntries m1)
        | _ :: _ =>
            let v1 := count_page entries v in
            match next_cursor_of body with
            | None => Some (Break KeyError, v1, m1)
            | Some next =>
                match truthy next with
                | None => Some (Break NoNextCursor, v1, print MsgNoNextCursor m1)
                | Some next_cursor =>
                    let v2 := advance_cursor next_cursor v1 in
                    match CHUNK_SIZE_REQS cfg with
                    | O => Some (Break ZeroDivisionError, v2, m1)
                    | S _ =>
                        let '(v3, m3) :=
                          if (requests_done v2 mod CHUNK_SIZE_REQS cfg =? 0)%nat
                          then flush_and_reset w v2 m1
                          else (v2, m1) in
                        if (MAX_REQS_PER_RUN cfg <=? requests_done v3)%nat then
                          Some (Break QuotaHit, v3,
                                print (MsgQuota (last_cover_date entries)) m3)
                        else Some (Continue, v3, m3)
                    end
                end
            end
        end
  end.

(** [while True:], with fuel for the number of passes.  Every pass that
    goes on has counted a request and stayed below MAX_REQS_PER_RUN, so
    [MAX_REQS_PER_RUN + 1] passes are enough ([main_loop_total]). *)
Fixpoint main_loop (w : World) (cfg : Config) (fuel : nat) (v : Vars) (m : IO)
  : option (Stop * Vars * IO) :=
  match fuel with
  | O => None
  | S fuel' =>
      match iteration w cfg v m with
      | None => None
      | Some (Break s, v', m') => Some (s, v', m')
      | Some (Continue, v', m') => main_loop w cfg fuel' v' m'
      end
  end.

(** ** The whole script *)

Definition initial_query (cursor_value : string) : Query :=
  {| q_query := "DOCTYPE(ar)"; q_date := DATE_RANGE; q_sort := "-coverDate";
     q_count := 25; q_cursor := cursor_value; q_view := "COMPLETE" |}.

Definition default_checkpoint : Checkpoint :=
  {| ck_cursor := "*"; ck_chunk_counter := 0 |}.

(** The resume state: the state file when it exists, the defaults otherwise. *)
Definition load_state (state_file : option Checkpoint) : Checkpoint :=
  match state_file with
  | Some s => s
  | None => default_checkpoint
  end.

Definition initial_vars (s0 : Checkpoint) : Vars :=
  {| query := initial_query (ck_cursor s0);
     chunk_counter := ck_chunk_counter s0;
     records_buffer := [];
     requests_done := 0 |}.

Record Run := {
  stop : Stop;
  final : Vars;
  trace : list Event       (* oldest event first *)
}.

(** Lines 133-136: persist state, report. *)
Definition persist_state (w : World) (t_start : Q) (v : Vars) (m : IO) : IO :=
  let m1 := emit (EvWriteState {| ck_cursor := q_cursor (query v);
                                  ck_chunk_counter := chunk_counter v |}) m in
  let (t_end, m2) := perf_counter w m1 in
  print (MsgDone (requests_done v) (t_end - t_start)) m2.

(** Everything after the loop. *)
Definition epilogue (w : World) (t_start : Q) (v : Vars) (m : IO) : Vars * IO :=
  let (v1, m1) := flush_leftovers w v m in
  (v1, persist_state w t_start v1 m1).

Definition harvest (w : World) (cfg : Config) (state_file : option Checkpoint)
  : option Run :=
  let v0 := initial_vars (load_state state_file) in
  let (t_start, m0) := perf_counter w init_io in
  match main_loop w cfg (S (MAX_REQS_PER_RUN cfg)) v0 m0 with
  | None => None
  | Some (s, v, m) =>
      if crashed s then Some {| stop := s; final := v; trace := rev (events m) |}
      else
        let (v', m') := epilogue w t_start v m in
        Some {| stop := s; final := v'; trace := rev (events m') |}
  end.

(** ** The limiter in double precision

    [time.perf_counter] returns a double, and lines 56, 60 and 135 compute
    with doubles: every result is the exact one rounded to the nearest
    number with 53 significant bits, ties to the even one.  [evict] and
    [acquire] above leave the rounding out.  The definitions of this
    section carry it: they are the same code with every arithmetic result
    passed through [fl]. *)

Definition pow2 (e : Z) : Q := 2 ^ e.

(** The exponent of the binade of a positive number: the largest [e]
    with [2^e <= x]. *)
Definition ilog2 (x : Q) : Z :=
  let k := (Z.log2 (Qnum x) - Z.log2 (Zpos (Qden x)))%Z in
  if Qle_bool (pow2 k) x then k else (k - 1)%Z.

(** To the nearest integer, a tie to the even one. *)
Definition round_half_even (z : Q) : Z :=
  let f := Qfloor z in
  match Qcompare (z - inject_Z f) (1 # 2) with
  | Lt => f
  | Gt => (f + 1)%Z
  | Eq => if Z.even f then f else (f + 1)%Z
  end.

(** binary64 for a positive number: 53 significant bits, the exponent not
    below -1022 (below that the spacing stays 2^-1074).  Overflow is left
    out: no time of a run comes near 2^1024 seconds. *)
Definition round_pos (x : Q) : Q :=
  let e := Z.max (ilog2 x) (-1022) in
  let ulp := pow2 (e - 52) in
  inject_Z (round_half_even (x / ulp)) * ulp.

Definition round53 (x : Q) : Q :=
  match Qcompare x 0 with
  | Eq => 0
  | Gt => round_pos x
  | Lt => - round_pos (- x)
  end.

(** 2^-53 and 2^-54: the spacing of the doubles just below 1.0, and half
    of it. *)
Definition ulp_of_one : Q := Eval vm_compute in 1 # 2 ^ 53.
Definition half_ulp_of_one : Q := Eval vm_compute in 1 # 2 ^ 54.

Section Machine.

Variable fl : Q -> Q.

(** Lines 56-57, [now - recent_ts[0] >= WINDOW] on the rounded difference. *)
Fixpoint evict_fl (now : Q) (ts : list Q) : list Q :=
  match ts with
  | t :: rest =>
      if Qle_bool WINDOW (fl (now - t)) then evict_fl now rest else ts
  | [] => []
  end.

(** Lines 54-60; the sleep is [WINDOW - (now - recent_ts[0]) + 0.001],
    three operations and the literal, each rounded. *)
Fixpoint acquire_fl (w : World) (fuel : nat) (m : IO) : option (Q * IO) :=
  match fuel with
  | O => None
  | S fuel' =>
      let (now, m1) := perf_counter w m in
      let ts := evict_fl now (recent_ts m1) in
      let m2 := set_recent_ts ts m1 in
      if (List.length ts <? MAX_RPS)%nat then Some (now, m2)
      else match ts with
           | t0 :: _ =>
               acquire_fl w fuel'
                 (sleep w Limiter
                    (fl (fl (WINDOW - fl (now - t0)) + fl (1 # 1000))) m2)
           | [] => None
           end
  end.

Definition rate_limited_get_fl (w : World) (params : Query) (m : IO)
  : option (HttpResult * IO) :=
  match acquire_fl w (S (List.length (recent_ts m))) m with
  | None => None
  | Some (now, m1) =>
      let (res, m2) := session_get w params m1 in
      let m3 := emit (EvGet now (clock m2) params res) m2 in
      match res with
      | RequestException => Some (res, m3)
      | Response _ _ =>
          let (t, m4) := perf_counter w m3 in
          Some (res, set_recent_ts (recent_ts m4 ++ [t]) m4)
      end
  end.

(** The retry loop; [2 + attempt] is an integer. *)
Fixpoint retry_loop_fl (w : World) (attempts : list nat) (params : Query) (m : IO)
  : option (option (Z * Body) * IO) :=
  match attempts with
  | [] => Some (None, print MsgNetworkFailed m)
  | attempt :: rest =>
      match rate_limited_get_fl w params m with
      | None => None
      | Some (Response status body, m1) => Some (Some (status, body), m1)
      | Some (RequestException, m1) =>
          retry_loop_fl w rest params
            (sleep w Backoff (2 + inject_Z (Z.of_nat attempt))
               (print (MsgNetworkError (attempt + 1)) m1))
      end
  end.

Definition fetch_fl (w : World) (params : Query) (m : IO) :=
  retry_loop_fl w (seq 0 5) params m.

Definition iteration_fl (w : World) (cfg : Config) (v : Vars) (m : IO)
  : option (Flow * Vars * IO) :=
  match fetch_fl w (query v) m with
  | None => None
  | Some (None, m1) => Some (Break NetworkFailed, v, m1)
  | Some (Some (status, body), m1) =>
      if negb (status =? 200)%Z then
        Some (Break (HttpError status), v, print (MsgHttp status) m1)
      else
        let entries := entries_of body in
        match entries with
        | [] => Some (Break NoEntries, v, print MsgNoMoreEntries m1)
        | _ :: _ =>
            let v1 := count_page entries v in
            match next_cursor_of body with
            | None => Some (Break KeyError, v1, m1)
            | Some next =>
                match truthy next with
                | None => Some (Break NoNextCursor, v1, print MsgNoNextCursor m1)
                | Some next_cursor =>
                    let v2 := advance_cursor next_cursor v1 in
                    match CHUNK_SIZE_REQS cfg with
                    | O => Some (Break ZeroDivisionError, v2, m1)
                    | S _ =>
                        let '(v3, m3) :=
                          if (requests_done v2 mod CHUNK_SIZE_REQS cfg =? 0)%nat
                          then flush_and_reset w v2 m1
                          else (v2, m1) in
                        if (MAX_REQS_PER_RUN cfg <=? requests_done v3)%nat then
                          Some (Break QuotaHit, v3,
                                print (MsgQuota (last_cover_date entries)) m3)
                        else Some (Continue, v3, m3)
                    end
                end
            end
        end
  end.

Fixpoint main_loop_fl (w : World) (cfg : Config) (fuel : nat) (v : Vars) (m : IO)
  : option (Stop * Vars * IO) :=
  match fuel with
  | O => None
  | S fuel' =>
      match iteration_fl w cfg v m with
      | None => None
      | Some (Break s, v', m') => Some (s, v', m')
      | Some (Continue, v', m') => main_loop_fl w cfg fuel' v' m'
      end
  end.

(** Lines 133-136; [elapsed] is a difference of two doubles. *)
Definition persist_state_fl (w : World) (t_start : Q) (v : Vars) (m : IO) : IO :=
  let m1 := emit (EvWriteState {| ck_cursor := q_cursor (query v);
                                  ck_chunk_counter := chunk_counter v |}) m in
  let (t_end, m2) := perf_counter w m1 in
  print (MsgDone (requests_done v) (fl (t_end - t_start))) m2.

Definition epilogue_fl (w : World) (t_start : Q) (v : Vars) (m : IO) : Vars * IO :=
  let (v1, m1) := flush_leftovers w v m in
  (v1, persist_state_fl w t_start v1 m1).

Definition harvest_fl (w : World) (cfg : Config) (state_file : option Checkpoint)
  : option Run :=
  let v0 := initial_vars (load_state state_file) in
  let (t_start, m0) := perf_counter w init_io in
  match main_loop_fl w cfg (S (MAX_REQS_PER_RUN cfg)) v0 m0 with
  | None => None
  | Some (s, v, m) =>
      if crashed s then Some {| stop := s; final := v; trace := rev (events m) |}
      else
        let (v', m') := epilogue_fl w t_start v m in
        Some {| stop := s; final := v'; trace := rev (events m') |}
  end.

End Machine.


(** ** Observations on a trace *)

(** Keep what [f] selects, in order. *)
Fixpoint pick {E A : Type} (f : E -> option A) (l : list E) : list A :=
  match l with
  | [] => []
  | e :: rest =>
      match f e with
      | Some a => a :: pick f rest
      | None => pick f rest
      end
  end.

(** The HTTP calls of a trace: the parameters sent and what came back. *)
Definition requests (tr : list Event) : list (Query * HttpResult) :=
  pick (fun e => match e with EvGet _ _ q res => Some (q, res) | _ => None end) tr.

(** When each HTTP call was admitted and when it came back. *)
Definition attempts (tr : list Event) : list (Q * Q) :=
  pick (fun e => match e with EvGet g r _ _ => Some (g, r) | _ => None end) tr.


(** One file under Data/raw. *)
Record ChunkFile := { cf_counter : Z; cf_date : string; cf_docs : list Doc }.

(** [f"{counter:06d}"]: the sign, then the decimal digits padded with
    zeros to a width of six. *)
Definition digits (n : N) : string := NilEmpty.string_of_uint (N.to_uint n).

Fixpoint zeros (k : nat) : string :=
  match k with
  | O => ""
  | S k' => String "0" (zeros k')
  end.

Definition format_06d (c : Z) : string :=
  let d := digits (Z.abs_N c) in
  if (c <? 0)%Z then String "-" (zeros (5 - String.length d) ++ d)
  else zeros (6 - String.length d) ++ d.

(** [path.name] in [flush_chunk]. *)
Definition chunk_name (counter : Z) (date : string) : string :=
  "scopus_raw_" ++ format_06d counter ++ "_" ++ date ++ ".jsonl.gz".

Definition file_name (f : ChunkFile) : string :=
  chunk_name (cf_counter f) (cf_date f).

(** Reading a counter back from its formatted form. *)
Definition parse_digits (s : string) : option N :=
  option_map N.of_uint (NilEmpty.uint_of_string s).

Definition parse_counter (s : string) : option Z :=
  match parse_digits s with
  | Some n => Some (Z.of_N n)
  | None =>
      match s with
      | String "-" s' => option_map (fun n => (- Z.of_N n)%Z) (parse_digits s')
      | _ => None
      end
  end.

Fixpoint no_underscore (s : string) : bool :=
  match s with
  | "" => true
  | String a s' => negb (Ascii.eqb a "_") && no_underscore s'
  end.

Definition chunk_files (tr : list Event) : list ChunkFile :=
  pick (fun e => match e with
                 | EvWriteChunk c d docs =>
                     Some {| cf_counter := c; cf_date := d; cf_docs := docs |}
                 | _ => None
                 end) tr.

Definition state_writes (tr : list Event) : list Checkpoint :=
  pick (fun e => match e with EvWriteState c => Some c | _ => None end) tr.

(** The entry list of a fetch that passed the status check. *)
Definition successful_page (x : Query * HttpResult) : option (list Doc) :=
  match snd x with
  | Response status body => if (status =? 200)%Z then Some (entries_of body) else None
  | RequestException => None
  end.

(** The entry list of a fetch that was counted in [requests_done]. *)
Definition counted_page (x : Query * HttpResult) : option (list Doc) :=
  match successful_page x with
  | Some (d :: ds) => Some (d :: ds)
  | _ => None
  end.

Definition successful_pages (tr : list Event) : list (list Doc) :=
  pick successful_page (requests tr).

Definition pages (tr : list Event) : list (list Doc) :=
  pick counted_page (requests tr).

(** The token a response moves the cursor to: it needs entries and a
    non-empty "@next". *)
Definition advance (x : Query * HttpResult) : option string :=
  match snd x with
  | Response status body =>
      if (status =? 200)%Z then
        match entries_of body, next_cursor_of body with
        | _ :: _, Some next => truthy next
        | _, _ => None
        end
      else None
  | RequestException => None
  end.

(** The cursor to resume from after the given calls, starting from [c0]. *)
Definition resume_cursor (c0 : string) (reqs : list (Query * HttpResult)) : string :=
  last (pick advance reqs) c0.

(** The calls and the back-off sleeps of a trace, nothing else. *)
Inductive Step :=
| Attempt (params : Query) (res : HttpResult)
| Pause (secs : Q).

Definition skeleton (tr : list Event) : list Step :=
  pick (fun e => match e with
                 | EvGet _ _ q res => Some (Attempt q res)
                 | EvSleep Backoff d => Some (Pause d)
                 | _ => None
                 end) tr.

(** Limiter sleeps and console lines. *)
Definition silent (e : Event) : bool :=
  match e with
  | EvSleep Limiter _ | EvPrint _ => true
  | _ => false
  end.



(** What the retry loop contributes for the failed attempts numbered
    [atts]: the call, then the sleep of [2 + attempt] seconds. *)
Definition backoff_steps (q : Query) (atts : list nat) : list Step :=
  flat_map (fun a => [Attempt q RequestException;
                      Pause (2 + inject_Z (Z.of_nat a))]) atts.

Definition final_step (q : Query) (res : option (Z * Body)) : list Step :=
  match res with
  | Some (status, body) => [Attempt q (Response status body)]
  | None => []
  end.

(** The trace so far, oldest event first. *)
Definition otrace (m : IO) : list Event := rev (events m).

(** The calls of one fetch: [k] failed attempts and, unless all five
    failed, the response. *)
Definition final_request (q : Query) (res : option (Z * Body))
  : list (Query * HttpResult) :=
  match res with
  | Some (status, body) => [(q, Response status body)]
  | None => []
  end.

Definition fetch_requests (q : Query) (k : nat) (res : option (Z * Body))
  : list (Query * HttpResult) :=
  repeat (q, RequestException) k ++ final_request q res.

(** Line 122: does the loop go on after this pass? *)
Definition quota_flow (cfg : Config) (done : nat) : Flow :=
  if (MAX_REQS_PER_RUN cfg <=? done)%nat then Break QuotaHit else Continue.

(** One pass through the loop body without the IO state: what the fetch
    gave, the chunk file written, how the loop goes on, the variables
    afterwards. *)
Inductive Pass (cfg : Config) (v : Vars)
  : option (Z * Body) -> list ChunkFile -> Flow -> Vars -> Prop :=
| PassNetwork :
    Pass cfg v None [] (Break NetworkFailed) v
| PassHttp status body :
    status <> 200%Z ->
    Pass cfg v (Some (status, body)) [] (Break (HttpError status)) v
| PassEmpty body :
    entries_of body = [] ->
    Pass cfg v (Some (200%Z, body)) [] (Break NoEntries) v
| PassKeyError body :
    entries_of body <> [] ->
    next_cursor_of body = None ->
    Pass cfg v (Some (200%Z, body)) [] (Break KeyError)
         (count_page (entries_of body) v)
| PassNoNext body next :
    entries_of body <> [] ->
    next_cursor_of body = Some next ->
    truthy next = None ->
    Pass cfg v (Some (200%Z, body)) [] (Break NoNextCursor)
         (count_page (entries_of body) v)
| PassZeroDivision body next tok :
    entries_of body <> [] ->
    next_cursor_of body = Some next ->
    truthy next = Some tok ->
    CHUNK_SIZE_REQS cfg = 0%nat ->
    Pass cfg v (Some (200%Z, body)) [] (Break ZeroDivisionError)
         (advance_cursor tok (count_page (entries_of body) v))
| PassInner body next tok :
    entries_of body <> [] ->
    next_cursor_of body = Some next ->
    truthy next = Some tok ->
    CHUNK_SIZE_REQS cfg <> 0%nat ->
    (S (requests_done v) mod CHUNK_SIZE_REQS cfg <> 0)%nat ->
    Pass cfg v (Some (200%Z, body)) []
         (quota_flow cfg (S (requests_done v)))
         (advance_cursor tok (count_page (entries_of body) v))
| PassBoundary body next tok date :
    entries_of body <> [] ->
    next_cursor_of body = Some next ->
    truthy next = Some tok ->
    CHUNK_SIZE_REQS cfg <> 0%nat ->
    (S (requests_done v) mod CHUNK_SIZE_REQS cfg = 0)%nat ->
    Pass cfg v (Some (200%Z, body))
         [{| cf_counter := (chunk_counter v + 1)%Z; cf_date := date;
             cf_docs := records_buffer v ++ entries_of body |}]
         (quota_flow cfg (S (requests_done v)))
         {| query := set_cursor tok (query v);
            chunk_counter := (chunk_counter v + 1)%Z;
            records_buffer := [];
            requests_done := S (requests_done v) |}.

(** What relates the variables to the calls made and the files written so
    far, for a run resumed from [s0].  [head] tells whether the loop is
    about to start another pass; the buffer then holds fewer pages than a
    chunk takes. *)
Record Inv (cfg : Config) (s0 : Checkpoint) (head : bool) (v : Vars)
    (reqs : list (Query * HttpResult)) (files : list ChunkFile) : Prop := {
  inv_done :
    requests_done v = List.length (pick counted_page reqs);
  inv_counter :
    chunk_counter v = (ck_chunk_counter s0 + Z.of_nat (List.length files))%Z;
  inv_names :
    map cf_counter files =
    map (fun i => (ck_chunk_counter s0 + Z.of_nat i)%Z) (seq 1 (List.length files));
  inv_cursor :
    q_cursor (query v) = resume_cursor (ck_cursor s0) reqs;
  inv_first :
    exists rest,
      map fst reqs ++ [query v] = initial_query (ck_cursor s0) :: rest;
  inv_groups :
    exists groups buffered,
      pick counted_page reqs = concat groups ++ buffered /\
      map cf_docs files = map (@concat Doc) groups /\
      Forall (fun g => List.length g = CHUNK_SIZE_REQS cfg /\ g <> []) groups /\
      records_buffer v = concat buffered /\
      if head
      then (List.length buffered < CHUNK_SIZE_REQS cfg)%nat \/ buffered = []
      else (List.length buffered <= CHUNK_SIZE_REQS cfg)%nat \/
           CHUNK_SIZE_REQS cfg = 0%nat
}.

Definition continues (f : Flow) : bool :=
  match f with Continue => true | Break _ => false end.

(** The invariant on the IO state: it speaks about the calls and the files
    in the trace, and the state file has not been written yet. *)
Definition SInv (cfg : Config) (s0 : Checkpoint) (head : bool) (v : Vars) (m : IO)
  : Prop :=
  Inv cfg s0 head v (requests (otrace m)) (chunk_files (otrace m)) /\
  state_writes (otrace m) = [].

(** The file that lines 128-130 write for the variables [v]. *)
Definition leftover_files (v : Vars) (date : string) : list ChunkFile :=
  match records_buffer v with
  | [] => []
  | _ :: _ => [{| cf_counter := (chunk_counter v + 1)%Z; cf_date := date;
                  cf_docs := records_buffer v |}]
  end.

(** The checkpoint that line 133 writes for the variables [v]. *)
Definition checkpoint_of (v : Vars) : Checkpoint :=
  {| ck_cursor := q_cursor (query v); ck_chunk_counter := chunk_counter v |}.

(** Records written to chunk files, and records returned by the fetches
    that passed the status check. *)
Definition records_written (tr : list Event) : nat :=
  list_sum (map (fun f => List.length (cf_docs f)) (chunk_files tr)).

Definition records_fetched (tr : list Event) : nat :=
  list_sum (map (@List.length Doc) (successful_pages tr)).

(** The cursors that the calls of a trace were issued with. *)
Definition cursors_used (tr : list Event) : list string :=
  map (fun x => q_cursor (fst x)) (requests tr).

(** ** Sample worlds and configurations *)

Definition doc (id : string) : Doc := [("dc:identifier", id)].

Definition page (docs : list Doc) (next : option string) : Body :=
  {| search_results :=
       Some {| entry := Some docs; cursor := Some {| at_next := next |} |} |}.

Definition token (n : nat) : string :=
  String (Ascii.ascii_of_nat (65 + n)) EmptyString.

Definition steady_tick : nat -> Q := fun _ => 1 # 100.
Definition new_year : nat -> string := fun _ => "20240101".

(** A provider that always has one more document and a next token. *)
Definition w_endless : World :=
  {| net := fun n _ => Response 200 (page [doc (token n)] (Some (token n)));
     tick := steady_tick; today := new_year |}.

(** A provider with nothing to return. *)
Definition w_empty : World :=
  {| net := fun _ _ => Response 200 (page [] None);
     tick := steady_tick; today := new_year |}.

(** A provider whose second page comes without the "cursor" object. *)
Definition w_keyerror : World :=
  {| net := fun n _ =>
              match n with
              | O => Response 200 (page [doc "1"] (Some "A"))
              | _ => Response 200
                       {| search_results :=
                            Some {| entry := Some [doc "2"]; cursor := None |} |}
              end;
     tick := steady_tick; today := new_year |}.

(** A network that works for the first [n] calls and is down afterwards. *)
Definition w_down_after (n : nat) : World :=
  {| net := fun i _ =>
              if (i <? n)%nat
              then Response 200 (page [doc (token i)] (Some (token i)))
              else RequestException;
     tick := steady_tick; today := new_year |}.

(** A provider that serves [n] pages and then answers 503. *)
Definition w_unavailable_after (n : nat) : World :=
  {| net := fun i _ =>
              if (i <? n)%nat
              then Response 200 (page [doc (token i)] (Some (token i)))
              else Response 503 {| search_results := None |};
     tick := steady_tick; today := new_year |}.

Definition small_config : Config :=
  {| MAX_REQS_PER_RUN := 3; CHUNK_SIZE_REQS := 2 |}.

Definition four_by_two : Config :=
  {| MAX_REQS_PER_RUN := 4; CHUNK_SIZE_REQS := 2 |}.

Definition resumed : Checkpoint := {| ck_cursor := "AoE9"; ck_chunk_counter := 7 |}.

(** A response with exactly one entry and a next-page token. *)
Definition one_entry_and_token (res : HttpResult) : Prop :=
  exists body d tok,
    res = Response 200 body /\
    entries_of body = [d] /\
    next_cursor_of body = Some (Some tok) /\
    tok <> "".

(** The IO state after one fetch against a network that is down. *)
Definition after_failed_fetch : IO :=
  Eval vm_compute in
    match fetch (w_down_after 0) (initial_query "*") init_io with
    | Some (_, m1) => m1
    | None => init_io
    end.

(** ** The rate bound: what the limiter maintains *)







(** ** Further notions *)

(** The state of the limiter's deque between two calls: no more stamps
    than MAX_RPS, none of them in the future. *)
Definition deque_ok (m : IO) : Prop :=
  (List.length (recent_ts m) <= MAX_RPS)%nat /\
  Forall (fun t => t <= clock m) (recent_ts m).

(** An IO state in which nine calls were stamped within the last half
    second. *)
Definition busy_io : IO :=
  {| clock := 1 # 2; ticks := 0; gets := 9;
     recent_ts := [1 # 10; 1 # 10; 2 # 10; 2 # 10; 3 # 10; 3 # 10; 4 # 10; 4 # 10; 1 # 2];
     events := [] |}.

(** The state after one call from [busy_io] against a network that is
    down, and against a provider that answers. *)
Definition after_busy_failure : IO :=
  Eval vm_compute in
    match rate_limited_get (w_down_after 0) (initial_query "*") busy_io with
    | Some (_, m1) => m1
    | None => busy_io
    end.

Definition after_busy_success : IO :=
  Eval vm_compute in
    match rate_limited_get w_endless (initial_query "*") busy_io with
    | Some (_, m1) => m1
    | None => busy_io
    end.

(** The content of the state file after a run with the trace [tr] that
    found [st] there: every [write_text] replaces it. *)
Definition state_after (st : option Checkpoint) (tr : list Event)
  : option Checkpoint :=
  match state_writes tr with
  | [] => st
  | c :: cs => Some (last cs c)
  end.

Definition one_by_one : Config :=
  {| MAX_REQS_PER_RUN := 4; CHUNK_SIZE_REQS := 1 |}.

(** Stamps in the order of time, oldest first. *)
Fixpoint time_ordered (ts : list Q) : Prop :=
  match ts with
  | [] => True
  | t :: rest => Forall (fun u => t <= u) rest /\ time_ordered rest
  end.


Definition no_chunks : Config :=
  {| MAX_REQS_PER_RUN := 3; CHUNK_SIZE_REQS := 0 |}.

(** The console line with which the loop says why it is left, read back
    as the reason; the other lines say nothing about it. *)
Definition reason_of (msg : Msg) : option Stop :=
  match msg with
  | MsgNetworkFailed => Some NetworkFailed
  | MsgHttp status => Some (HttpError status)
  | MsgNoMoreEntries => Some NoEntries
  | MsgNoNextCursor => Some NoNextCursor
  | MsgQuota _ => Some QuotaHit
  | MsgWrote _ _ _ | MsgNetworkError _ | MsgDone _ _ => None
  end.

Definition reasons (tr : list Event) : list Stop :=
  pick (fun e => match e with EvPrint msg => reason_of msg | _ => None end) tr.



(** Is the stamp [t] younger than [len] at the instant [now]? *)
Definition younger_than (len now t : Q) : bool := negb (Qle_bool len (now - t)).

(** * Proofs *)

(** ** Lists *)

Lemma pick_app {E A} (f : E -> option A) (l1 l2 : list E) :
  pick f (l1 ++ l2) = pick f l1 ++ pick f l2.
Proof.
  induction l1 as [|e l1 IH]; simpl; [reflexivity|].
  destruct (f e); simpl; now rewrite IH.
Qed.

Lemma pick_rev {E A} (f : E -> option A) (l : list E) :
  pick f (rev l) = rev (pick f l).
Proof.
  induction l as [|e l IH]; simpl; [reflexivity|].
  rewrite pick_app, IH. simpl. destruct (f e); simpl.
  - reflexivity.
  - now rewrite app_nil_r.
Qed.

Lemma pick_none {E A} (f : E -> option A) (l : list E) :
  Forall (fun e => f e = None) l -> pick f l = [].
Proof.
  induction 1 as [|e l He _ IH]; simpl; [reflexivity|]. now rewrite He.
Qed.

Lemma pick_pick {E A B} (f : E -> option A) (g : A -> option B) (l : list E) :
  pick g (pick f l) =
  pick (fun e => match f e with Some a => g a | None => None end) l.
Proof.
  induction l as [|e l IH]; simpl; [reflexivity|].
  destruct (f e); simpl; now rewrite IH.
Qed.

Lemma pick_ext {E A} (f g : E -> option A) (l : list E) :
  (forall e, f e = g e) -> pick f l = pick g l.
Proof.
  intros H. induction l as [|e l IH]; simpl; [reflexivity|].
  now rewrite H, IH.
Qed.

(** A projection that ignores silent events does not see a silent stretch. *)
Lemma pick_silent {A} (f : Event -> option A) (sl : list Event) :
  (forall e, silent e = true -> f e = None) ->
  Forall (fun e => silent e = true) sl -> pick f sl = [].
Proof.
  intros Hf Hs. apply pick_none. eapply Forall_impl; [|exact Hs]. auto.
Qed.

Lemma requests_silent sl : Forall (fun e => silent e = true) sl -> requests sl = [].
Proof. apply pick_silent. intros [] ; simpl; congruence. Qed.

Lemma attempts_silent sl : Forall (fun e => silent e = true) sl -> attempts sl = [].
Proof. apply pick_silent. intros [] ; simpl; congruence. Qed.

Lemma chunk_files_silent sl : Forall (fun e => silent e = true) sl -> chunk_files sl = [].
Proof. apply pick_silent. intros [] ; simpl; congruence. Qed.

Lemma state_writes_silent sl : Forall (fun e => silent e = true) sl -> state_writes sl = [].
Proof. apply pick_silent. intros [] ; simpl; congruence. Qed.

Lemma skeleton_silent sl : Forall (fun e => silent e = true) sl -> skeleton sl = [].
Proof. apply pick_silent. intros [g r q res|[] d|msg|c d docs|c]; simpl; congruence. Qed.

Lemma requests_app l1 l2 : requests (l1 ++ l2) = requests l1 ++ requests l2.
Proof. apply pick_app. Qed.

Lemma attempts_app l1 l2 : attempts (l1 ++ l2) = attempts l1 ++ attempts l2.
Proof. apply pick_app. Qed.

Lemma chunk_files_app l1 l2 : chunk_files (l1 ++ l2) = chunk_files l1 ++ chunk_files l2.
Proof. apply pick_app. Qed.

Lemma state_writes_app l1 l2 :
  state_writes (l1 ++ l2) = state_writes l1 ++ state_writes l2.
Proof. apply pick_app. Qed.

Lemma skeleton_app l1 l2 : skeleton (l1 ++ l2) = skeleton l1 ++ skeleton l2.
Proof. apply pick_app. Qed.

Lemma requests_rev l : requests (rev l) = rev (requests l).
Proof. apply pick_rev. Qed.


Lemma chunk_files_rev l : chunk_files (rev l) = rev (chunk_files l).
Proof. apply pick_rev. Qed.

Lemma state_writes_rev l : state_writes (rev l) = rev (state_writes l).
Proof. apply pick_rev. Qed.

Lemma silent_rev sl :
  Forall (fun e => silent e = true) sl -> Forall (fun e => silent e = true) (rev sl).
Proof. apply Forall_rev. Qed.

#[local] Hint Resolve silent_rev : core.

(** Push the observations through [++] and drop silent stretches. *)
Ltac observe :=
  repeat (rewrite requests_app || rewrite attempts_app || rewrite chunk_files_app
          || rewrite state_writes_app || rewrite skeleton_app);
  repeat (rewrite requests_silent by auto);
  repeat (rewrite attempts_silent by auto);
  repeat (rewrite chunk_files_silent by auto);
  repeat (rewrite state_writes_silent by auto);
  repeat (rewrite skeleton_silent by auto).

(** ** The limiter: what it leaves in the trace *)

Ltac inv H := inversion H; subst; clear H.

(** Split conjunctions, and nothing else. *)
Ltac conj := repeat match goal with |- _ /\ _ => split end.

Lemma evict_split now ts :
  exists dropped,
    ts = dropped ++ evict now ts /\ Forall (fun t => t + WINDOW <= now) dropped.
Proof.
  induction ts as [|t ts [dropped [Heq Hd]]]; simpl.
  - exists []. split; [reflexivity | constructor].
  - destruct (Qle_bool WINDOW (now - t)) eqn:E.
    + exists (t :: dropped). split.
      * simpl. now f_equal.
      * constructor; [|exact Hd]. apply Qle_bool_iff in E. lra.
    + exists []. split; [reflexivity | constructor].
Qed.

Lemma evict_length now ts : (List.length (evict now ts) <= List.length ts)%nat.
Proof.
  destruct (evict_split now ts) as [dropped [Heq _]].
  rewrite Heq at 2. rewrite length_app. lia.
Qed.

Lemma acquire_S w fuel m :
  acquire w (S fuel) m =
  let m1 := elapse w 0 m in
  let ts := evict (clock m1) (recent_ts m1) in
  let m2 := set_recent_ts ts m1 in
  if (List.length ts <? MAX_RPS)%nat then Some (clock m1, m2)
  else match ts with
       | t0 :: _ =>
           acquire w fuel (sleep w Limiter (WINDOW - (clock m1 - t0) + (1 # 1000)) m2)
       | [] => None
       end.
Proof. reflexivity. Qed.

Lemma acquire_frame w fuel : forall m now m1,
  acquire w fuel m = Some (now, m1) ->
  gets m1 = gets m /\
  exists sl, events m1 = sl ++ events m /\ Forall (fun e => silent e = true) sl.
Proof.
  induction fuel as [|fuel IH]; intros m now m1 H; [discriminate|].
  rewrite acquire_S in H. cbv zeta in H.
  destruct (_ <? MAX_RPS)%nat.
  - inv H. split; [reflexivity|]. exists []. split; [reflexivity | constructor].
  - destruct (evict _ _) as [|t0 ts']; [discriminate|].
    apply IH in H. destruct H as [Hg [sl [He Hs]]].
    split; [exact Hg|].
    exists (sl ++ [EvSleep Limiter (WINDOW - (clock (elapse w 0 m) - t0) + (1 # 1000))]).
    split.
    + rewrite He. simpl. now rewrite <- app_assoc.
    + apply Forall_app. split; [exact Hs|]. repeat constructor.
Qed.

Lemma rate_limited_get_frame w q m res m1 :
  rate_limited_get w q m = Some (res, m1) ->
  res = net w (gets m) q /\ gets m1 = S (gets m) /\
  exists g r sl,
    events m1 = EvGet g r q res :: sl ++ events m /\
    Forall (fun e => silent e = true) sl.
Proof.
  unfold rate_limited_get. intros H.
  destruct (acquire _ _ _) as [[now m0]|] eqn:Ha; [|discriminate].
  apply acquire_frame in Ha. destruct Ha as [Hg [sl [He Hs]]].
  unfold session_get in H. cbv zeta in H.
  rewrite Hg in H.
  destruct (net w (gets m) q) eqn:Hn.
  - inv H. repeat split; simpl; try congruence.
    eexists _, _, sl. rewrite He. split; [reflexivity | exact Hs].
  - inv H. repeat split; simpl; try congruence.
    eexists _, _, sl. rewrite He. split; [reflexivity | exact Hs].
Qed.

(** ** The retry loop: what it leaves in the trace *)

Lemma requests_skeleton tr :
  requests tr =
  pick (fun s => match s with Attempt q res => Some (q, res) | Pause _ => None end)
       (skeleton tr).
Proof.
  unfold requests, skeleton. rewrite pick_pick. apply pick_ext.
  intros [g r q res|[] d|msg|c d docs|c]; reflexivity.
Qed.

Lemma retry_loop_spec w q : forall atts m res m1,
  retry_loop w atts q m = Some (res, m1) ->
  exists tr k,
    events m1 = rev tr ++ events m /\
    (k <= List.length atts)%nat /\
    skeleton tr = backoff_steps q (firstn k atts) ++ final_step q res /\
    match res with
    | None => k = List.length atts
    | Some _ => (k < List.length atts)%nat
    end /\
    Forall (fun x => exists n, snd x = net w n q) (requests tr) /\
    chunk_files tr = [] /\ state_writes tr = [].
Proof.
  induction atts as [|a atts IH]; intros m res m1 H; simpl in H.
  - inv H. exists [EvPrint MsgNetworkFailed], 0%nat. simpl.
    repeat split; auto.
  - destruct (rate_limited_get w q m) as [[r m']|] eqn:Hr; [|discriminate].
    apply rate_limited_get_frame in Hr.
    destruct Hr as [Hres [_ [g [t [sl [He Hs]]]]]].
    destruct r as [|status body].
    + apply IH in H.
      destruct H as [tr [k [He' [Hk [Hsk [Hr [Hn [Hc Hst]]]]]]]].
      exists (rev sl ++
              EvGet g t q RequestException ::
              EvPrint (MsgNetworkError (a + 1)) ::
              EvSleep Backoff (2 + inject_Z (Z.of_nat a)) :: tr), (S k).
      split; [|split; [|split; [|split; [|split; [|split]]]]]; observe.
      * rewrite He'. simpl. rewrite He. rewrite rev_app_distr, rev_involutive.
        simpl. repeat rewrite <- app_assoc. reflexivity.
      * simpl. lia.
      * cbn. fold (skeleton tr). now rewrite Hsk.
      * destruct res; simpl; lia.
      * cbn. fold (requests tr). constructor; [|exact Hn]. simpl. eauto.
      * exact Hc.
      * exact Hst.
    + inv H.
      exists (rev sl ++ [EvGet g t q (Response status body)]), 0%nat.
      split; [|split; [|split; [|split; [|split; [|split]]]]]; observe.
      * rewrite He. rewrite rev_app_distr, rev_involutive. reflexivity.
      * lia.
      * reflexivity.
      * simpl. lia.
      * cbn. constructor; [|constructor]. simpl. eauto.
      * reflexivity.
      * reflexivity.
Qed.

(** ** One pass of the loop *)

Lemma otrace_emit e m : otrace (emit e m) = otrace m ++ [e].
Proof. reflexivity. Qed.

Lemma otrace_print msg m : otrace (print msg m) = otrace m ++ [EvPrint msg].
Proof. reflexivity. Qed.

Lemma otrace_flush_chunk w records counter m :
  otrace (flush_chunk w records counter m) =
  otrace m ++ [EvWriteChunk counter (today w (ticks m)) records;
               EvPrint (MsgWrote (List.length records) counter (today w (ticks m)))].
Proof. unfold otrace. simpl. now rewrite <- app_assoc. Qed.

Lemma pick_repeat_none {E A} (f : E -> option A) (e : E) (k : nat) :
  f e = None -> pick f (repeat e k) = [].
Proof. intros H. induction k as [|k IH]; simpl; [reflexivity|]. now rewrite H. Qed.

Lemma backoff_steps_requests q atts :
  pick (fun s => match s with Attempt q res => Some (q, res) | Pause _ => None end)
       (backoff_steps q atts) =
  repeat (q, RequestException) (List.length atts).
Proof.
  induction atts as [|a atts IH]; simpl; [reflexivity|]. now rewrite IH.
Qed.

Lemma fetch_spec w q m res m1 :
  fetch w q m = Some (res, m1) ->
  exists tr k,
    otrace m1 = otrace m ++ tr /\
    (k <= 5)%nat /\
    match res with None => k = 5%nat | Some _ => (k < 5)%nat end /\
    skeleton tr = backoff_steps q (seq 0 k) ++ final_step q res /\
    requests tr = fetch_requests q k res /\
    Forall (fun x => exists n, snd x = net w n q) (requests tr) /\
    chunk_files tr = [] /\ state_writes tr = [].
Proof.
  unfold fetch. intros H. apply retry_loop_spec in H.
  destruct H as [tr [k [He [Hk [Hsk [Hr [Hn [Hc Hs]]]]]]]].
  rewrite length_seq in *.
  assert (Hf : firstn k (seq 0 5) = seq 0 k).
  { replace 5%nat with (k + (5 - k))%nat at 1 by lia.
    rewrite seq_app, firstn_app, length_seq, Nat.sub_diag. simpl.
    rewrite app_nil_r. rewrite firstn_all2; [reflexivity | rewrite length_seq; lia]. }
  rewrite Hf in Hsk.
  exists tr, k. repeat split; auto.
  - unfold otrace. rewrite He, rev_app_distr, rev_involutive. reflexivity.
  - rewrite requests_skeleton, Hsk, pick_app, backoff_steps_requests, length_seq.
    unfold fetch_requests. f_equal. destruct res as [[st b]|]; reflexivity.
Qed.

Lemma iteration_pass w cfg v m flow v' m' :
  iteration w cfg v m = Some (flow, v', m') ->
  exists tr k res,
    otrace m' = otrace m ++ tr /\
    requests tr = fetch_requests (query v) k res /\
    (k <= 5)%nat /\
    match res with None => k = 5%nat | Some _ => (k < 5)%nat end /\
    Forall (fun x => exists n, snd x = net w n (query v)) (requests tr) /\
    state_writes tr = [] /\
    Pass cfg v res (chunk_files tr) flow v'.
Proof.
  unfold iteration. intros H.
  destruct (fetch w (query v) m) as [[res m1]|] eqn:Hf; [|discriminate].
  apply fetch_spec in Hf.
  destruct Hf as [tr [k [Ht [Hk [Hres [_ [Hr [Hn [Hc Hs]]]]]]]]].
  assert (Hdone : forall extra fl vv,
             requests extra = [] -> state_writes extra = [] ->
             Pass cfg v res (chunk_files extra) fl vv ->
             exists tr0 k0 res0,
               otrace m1 ++ extra = otrace m ++ tr0 /\
               requests tr0 = fetch_requests (query v) k0 res0 /\
               (k0 <= 5)%nat /\
               match res0 with None => k0 = 5%nat | Some _ => (k0 < 5)%nat end /\
               Forall (fun x => exists n, snd x = net w n (query v)) (requests tr0) /\
               state_writes tr0 = [] /\
               Pass cfg v res0 (chunk_files tr0) fl vv).
  { intros extra fl vv Hre Hse Hp. exists (tr ++ extra), k, res.
    rewrite Ht, <- app_assoc. observe. rewrite Hre, Hse, Hc, Hs, !app_nil_r.
    repeat split; auto. }
  destruct res as [[status body]|].
  2:{ inv H. rewrite <- (app_nil_r (otrace m')). apply Hdone; try reflexivity.
      constructor. }
  destruct (Z.eqb_spec status 200) as [->|Hne]; cbn [negb] in H.
  2:{ inv H. rewrite otrace_print. apply Hdone; try reflexivity.
      now constructor. }
  destruct (entries_of body) as [|d ds] eqn:He.
  { inv H. rewrite otrace_print. apply Hdone; try reflexivity.
    now constructor. }
  assert (Hne : entries_of body <> []) by (rewrite He; discriminate).
  rewrite <- He in *. clear He.
  destruct (next_cursor_of body) as [next|] eqn:Hnext.
  2:{ inv H. rewrite <- (app_nil_r (otrace m')). apply Hdone; try reflexivity.
      now constructor. }
  destruct (truthy next) as [tok|] eqn:Htok.
  2:{ inv H. rewrite otrace_print. apply Hdone; try reflexivity.
      now apply PassNoNext with next. }
  destruct (CHUNK_SIZE_REQS cfg) as [|c] eqn:Hchunk.
  { inv H. rewrite <- (app_nil_r (otrace m')). apply Hdone; try reflexivity.
    now apply PassZeroDivision with next. }
  rewrite <- Hchunk in *.
  assert (Hc0 : CHUNK_SIZE_REQS cfg <> 0%nat) by lia.
  unfold advance_cursor, count_page, flush_and_reset in H.
  cbn [requests_done query chunk_counter records_buffer] in H.
  destruct (Nat.eqb_spec (S (requests_done v) mod CHUNK_SIZE_REQS cfg) 0) as [Hb|Hb].
  - cbn [requests_done] in H.
    destruct (MAX_REQS_PER_RUN cfg <=? S (requests_done v))%nat eqn:Hq; inv H.
    + rewrite otrace_print, otrace_flush_chunk, <- app_assoc.
      apply Hdone; try reflexivity.
      pose proof (@PassBoundary cfg v body next tok (today w (ticks m1))
                    Hne Hnext Htok Hc0 Hb) as P.
      unfold quota_flow in P. rewrite Hq in P. exact P.
    + rewrite otrace_flush_chunk.
      apply Hdone; try reflexivity.
      pose proof (@PassBoundary cfg v body next tok (today w (ticks m1))
                    Hne Hnext Htok Hc0 Hb) as P.
      unfold quota_flow in P. rewrite Hq in P. exact P.
  - cbn [requests_done] in H.
    destruct (MAX_REQS_PER_RUN cfg <=? S (requests_done v))%nat eqn:Hq; inv H.
    + rewrite otrace_print. apply Hdone; try reflexivity.
      pose proof (@PassInner cfg v body next tok Hne Hnext Htok Hc0 Hb) as P.
      unfold quota_flow in P. rewrite Hq in P. exact P.
    + rewrite <- (app_nil_r (otrace m')). apply Hdone; try reflexivity.
      pose proof (@PassInner cfg v body next tok Hne Hnext Htok Hc0 Hb) as P.
      unfold quota_flow in P. rewrite Hq in P. exact P.
Qed.

(** ** The invariant of the loop *)

Lemma pick_fetch_requests {A} (f : Query * HttpResult -> option A) q k res :
  f (q, RequestException) = None ->
  pick f (fetch_requests q k res) = pick f (final_request q res).
Proof.
  intros H. unfold fetch_requests. rewrite pick_app.
  now rewrite (pick_repeat_none f _ k H).
Qed.

Lemma map_fst_fetch_requests q k res :
  map fst (fetch_requests q k res) =
  repeat q (k + List.length (final_request q res)).
Proof.
  unfold fetch_requests. rewrite map_app, repeat_app. f_equal.
  - induction k as [|k IH]; simpl; [reflexivity | now rewrite IH].
  - destruct res as [[st b]|]; reflexivity.
Qed.

Lemma counted_page_ok q b :
  entries_of b <> [] -> counted_page (q, Response 200 b) = Some (entries_of b).
Proof.
  intros H. unfold counted_page, successful_page. simpl.
  destruct (entries_of b); congruence.
Qed.

Lemma counted_page_empty q b :
  entries_of b = [] -> counted_page (q, Response 200 b) = None.
Proof.
  intros H. unfold counted_page, successful_page. simpl. now rewrite H.
Qed.

Lemma counted_page_http q status b :
  status <> 200%Z -> counted_page (q, Response status b) = None.
Proof.
  intros H. unfold counted_page, successful_page. simpl.
  destruct (Z.eqb_spec status 200); congruence.
Qed.

Lemma advance_ok q b next :
  entries_of b <> [] -> next_cursor_of b = Some next ->
  advance (q, Response 200 b) = truthy next.
Proof.
  intros H Hn. unfold advance. simpl. rewrite Hn.
  destruct (entries_of b); congruence.
Qed.

Lemma advance_empty q b : entries_of b = [] -> advance (q, Response 200 b) = None.
Proof. intros H. unfold advance. simpl. now rewrite H. Qed.

Lemma advance_keyerror q b :
  next_cursor_of b = None -> advance (q, Response 200 b) = None.
Proof.
  intros H. unfold advance. simpl. rewrite H. now destruct (entries_of b).
Qed.

Lemma advance_http q status b : status <> 200%Z -> advance (q, Response status b) = None.
Proof.
  intros H. unfold advance. simpl. destruct (Z.eqb_spec status 200); congruence.
Qed.

(** What one pass adds to the counted pages and to the cursor. *)
Lemma pass_pages {cfg v res nf flow v'} :
  Pass cfg v res nf flow v' ->
  requests_done v' =
  (requests_done v + List.length (pick counted_page (final_request (query v) res)))%nat.
Proof.
  destruct 1; simpl;
    rewrite ?counted_page_ok, ?counted_page_empty, ?counted_page_http by assumption;
    simpl; lia.
Qed.

Lemma pass_files {cfg v res nf flow v'} :
  Pass cfg v res nf flow v' ->
  chunk_counter v' = (chunk_counter v + Z.of_nat (List.length nf))%Z /\
  map cf_counter nf =
  map (fun i => (chunk_counter v + Z.of_nat i)%Z) (seq 1 (List.length nf)).
Proof. destruct 1; simpl; split; try reflexivity; lia. Qed.

Lemma pass_cursor {cfg v res nf flow v'} :
  Pass cfg v res nf flow v' ->
  q_cursor (query v') =
  last (pick advance (final_request (query v) res)) (q_cursor (query v)).
Proof.
  destruct 1; simpl;
    rewrite ?advance_empty, ?advance_keyerror, ?advance_http by assumption;
    try reflexivity;
    erewrite advance_ok by eassumption;
    match goal with H : truthy _ = _ |- _ => rewrite H end; reflexivity.
Qed.

Lemma length_concat_full {A} (n : nat) (groups : list (list A)) :
  Forall (fun g => List.length g = n /\ g <> []) groups ->
  List.length (concat groups) = (n * List.length groups)%nat.
Proof.
  induction 1 as [|g groups [Hg _] _ IH]; simpl; [lia|].
  rewrite length_app, IH, Hg. lia.
Qed.

Lemma boundary_iff (n g b : nat) :
  n <> 0%nat -> (b < n)%nat ->
  ((n * g + S b) mod n = 0 <-> S b = n)%nat.
Proof.
  intros Hn Hb.
  replace (n * g + S b)%nat with (S b + g * n)%nat by lia.
  rewrite Nat.Div0.mod_add.
  destruct (Nat.eq_dec (S b) n) as [E|E].
  - rewrite E, Nat.Div0.mod_same. tauto.
  - rewrite Nat.mod_small by lia. split; intros; congruence || lia.
Qed.

Lemma pass_groups {cfg v res nf flow v' groups buffered} :
  Pass cfg v res nf flow v' ->
  Forall (fun g => List.length g = CHUNK_SIZE_REQS cfg /\ g <> []) groups ->
  requests_done v = (CHUNK_SIZE_REQS cfg * List.length groups + List.length buffered)%nat ->
  records_buffer v = concat buffered ->
  (List.length buffered < CHUNK_SIZE_REQS cfg)%nat \/ buffered = [] ->
  exists groups' buffered',
    (concat groups ++ buffered) ++ pick counted_page (final_request (query v) res) =
      concat groups' ++ buffered' /\
    map (@concat Doc) groups ++ map cf_docs nf = map (@concat Doc) groups' /\
    Forall (fun g => List.length g = CHUNK_SIZE_REQS cfg /\ g <> []) groups' /\
    records_buffer v' = concat buffered' /\
    if continues flow
    then (List.length buffered' < CHUNK_SIZE_REQS cfg)%nat \/ buffered' = []
    else (List.length buffered' <= CHUNK_SIZE_REQS cfg)%nat \/
         CHUNK_SIZE_REQS cfg = 0%nat.
Proof.
  intros HP Hfull Hdone Hbuf Hlt.
  assert (Hle : (List.length buffered <= CHUNK_SIZE_REQS cfg)%nat \/
                CHUNK_SIZE_REQS cfg = 0%nat).
  { destruct Hlt as [Hlt | ->]; [left; lia | left; simpl; lia]. }
  assert (Hle1 : forall p : list Doc,
             (List.length (buffered ++ [p]) <= CHUNK_SIZE_REQS cfg)%nat \/
             CHUNK_SIZE_REQS cfg = 0%nat).
  { intros p. rewrite length_app. simpl.
    destruct Hlt as [Hlt | ->]; [left; lia | simpl; lia]. }
  assert (Hlt0 : CHUNK_SIZE_REQS cfg <> 0%nat ->
                 (List.length buffered < CHUNK_SIZE_REQS cfg)%nat).
  { intros Hc. destruct Hlt as [Hlt | ->]; [exact Hlt | simpl; lia]. }
  destruct HP; simpl;
    rewrite ?counted_page_ok, ?counted_page_empty, ?counted_page_http by assumption;
    simpl.
  - exists groups, buffered. rewrite !app_nil_r. auto.
  - exists groups, buffered. rewrite !app_nil_r. auto.
  - exists groups, buffered. rewrite !app_nil_r. auto.
  - exists groups, (buffered ++ [entries_of body]).
    rewrite !app_nil_r, concat_app, <- app_assoc, Hbuf. simpl. rewrite app_nil_r. auto.
  - exists groups, (buffered ++ [entries_of body]).
    rewrite !app_nil_r, concat_app, <- app_assoc, Hbuf. simpl. rewrite app_nil_r. auto.
  - exists groups, (buffered ++ [entries_of body]).
    rewrite !app_nil_r, concat_app, <- app_assoc, Hbuf. simpl. rewrite app_nil_r. auto.
  - exists groups, (buffered ++ [entries_of body]).
    rewrite !app_nil_r, concat_app, <- app_assoc, Hbuf. simpl. rewrite app_nil_r.
    repeat split; auto.
    unfold quota_flow. destruct (_ <=? _)%nat; simpl; [apply Hle1|].
    left. rewrite length_app. simpl.
    specialize (Hlt0 H2).
    assert (S (List.length buffered) <> CHUNK_SIZE_REQS cfg).
    { intros E. apply H3. rewrite Hdone.
      replace (S (CHUNK_SIZE_REQS cfg * List.length groups + List.length buffered))
        with (CHUNK_SIZE_REQS cfg * List.length groups + S (List.length buffered))%nat
        by lia.
      now apply boundary_iff. }
    lia.
  - exists (groups ++ [buffered ++ [entries_of body]]), [].
    specialize (Hlt0 H2).
    assert (E : S (List.length buffered) = CHUNK_SIZE_REQS cfg).
    { rewrite Hdone in H3.
      replace (S (CHUNK_SIZE_REQS cfg * List.length groups + List.length buffered))
        with (CHUNK_SIZE_REQS cfg * List.length groups + S (List.length buffered))%nat
        in H3 by lia.
      now apply boundary_iff in H3. }
    rewrite !app_nil_r, !concat_app, map_app, Hbuf. simpl. rewrite !app_nil_r.
    split; [|split; [|split; [|split]]].
    + now rewrite <- app_assoc.
    + rewrite concat_app. simpl. now rewrite app_nil_r.
    + apply Forall_app. split; [exact Hfull|]. constructor; [|constructor]. split.
      * rewrite length_app. simpl. lia.
      * destruct buffered; discriminate.
    + reflexivity.
    + unfold quota_flow. destruct (_ <=? _)%nat; simpl; [left; lia | now right].
Qed.

Lemma counter_names_shift (a : Z) (n m start : nat) :
  map (fun i => (a + Z.of_nat n + Z.of_nat i)%Z) (seq start m) =
  map (fun i => (a + Z.of_nat i)%Z) (seq (n + start) m).
Proof.
  revert start. induction m as [|m IH]; intros start; simpl; [reflexivity|].
  rewrite IH. f_equal; [lia|]. now rewrite Nat.add_succ_r.
Qed.

Lemma last_app_cons {A} (l0 l : list A) (t d d' : A) :
  last (l0 ++ t :: l) d = last (t :: l) d'.
Proof.
  induction l0 as [|a l0 IH].
  - simpl app. revert t. induction l as [|b l IH]; intros t; [reflexivity|].
    change (last (b :: l) d = last (b :: l) d'). apply IH.
  - simpl app. destruct (l0 ++ t :: l) eqn:E; [destruct l0; discriminate|].
    rewrite <- IH. reflexivity.
Qed.

Lemma inv_pass {cfg s0 v reqs files} k {res nf flow v'} :
  Inv cfg s0 true v reqs files ->
  Pass cfg v res nf flow v' ->
  match res with None => k = 5%nat | Some _ => True end ->
  Inv cfg s0 (continues flow) v'
      (reqs ++ fetch_requests (query v) k res) (files ++ nf).
Proof.
  intros [Hdone Hcnt Hnames Hcur [rest Hfirst] [groups [buffered [Hpg [Hdocs [Hfull [Hbuf Hlt]]]]]]] HP Hk.
  assert (HRE : counted_page (query v, RequestException) = None) by reflexivity.
  assert (HRA : advance (query v, RequestException) = None) by reflexivity.
  constructor.
  - rewrite pick_app, length_app, (pick_fetch_requests _ _ _ _ HRE), <- Hdone.
    exact (pass_pages HP).
  - destruct (pass_files HP) as [E _]. rewrite E, Hcnt, length_app. lia.
  - destruct (pass_files HP) as [_ E].
    rewrite map_app, length_app, seq_app, map_app, Hnames, E. f_equal.
    rewrite Hcnt. simpl. rewrite counter_names_shift. f_equal. f_equal. lia.
  - unfold resume_cursor in *. rewrite pick_app, (pick_fetch_requests _ _ _ _ HRA).
    rewrite (pass_cursor HP), Hcur.
    destruct (pick advance (final_request (query v) res)) as [|t l] eqn:E.
    + now rewrite app_nil_r.
    + symmetry. apply last_app_cons.
  - rewrite map_app, map_fst_fetch_requests.
    destruct (k + List.length (final_request (query v) res))%nat as [|n] eqn:E.
    { destruct res as [[st b]|]; simpl in E; lia. }
    simpl repeat. exists (rest ++ repeat (query v) n ++ [query v']).
    rewrite app_comm_cons, <- Hfirst, <- !app_assoc. reflexivity.
  - assert (Hd : requests_done v =
                 (CHUNK_SIZE_REQS cfg * List.length groups + List.length buffered)%nat).
    { rewrite Hdone, Hpg, length_app. f_equal. now apply length_concat_full. }
    destruct (pass_groups HP Hfull Hd Hbuf Hlt) as [g' [b' [E1 [E2 [E3 [E4 E5]]]]]].
    exists g', b'. repeat split; auto.
    + now rewrite pick_app, (pick_fetch_requests _ _ _ _ HRE), Hpg.
    + now rewrite map_app, Hdocs.
Qed.

(** ** The loop as a whole *)

(** Whatever holds at the loop head and is kept by a pass that continues
    holds at the head of the pass that leaves the loop. *)
Lemma main_loop_last w cfg (P : Vars -> IO -> Prop) :
  (forall v m v' m',
      P v m -> iteration w cfg v m = Some (Continue, v', m') -> P v' m') ->
  forall fuel v m s v' m',
    P v m -> main_loop w cfg fuel v m = Some (s, v', m') ->
    exists v1 m1, P v1 m1 /\ iteration w cfg v1 m1 = Some (Break s, v', m').
Proof.
  intros Hstep. induction fuel as [|fuel IH]; intros v m s v' m' HP H; [discriminate|].
  simpl in H.
  destruct (iteration w cfg v m) as [[[[|s1] v1] m1]|] eqn:Hi; [| |discriminate].
  - eapply IH; [|exact H]. eapply Hstep; eauto.
  - inv H. eauto.
Qed.

Lemma iteration_inv {w cfg s0 v m flow v' m'} :
  SInv cfg s0 true v m ->
  iteration w cfg v m = Some (flow, v', m') ->
  SInv cfg s0 (continues flow) v' m' /\
  exists k res nf,
    Pass cfg v res nf flow v' /\
    (k <= 5)%nat /\
    match res with None => k = 5%nat | Some _ => (k < 5)%nat end /\
    requests (otrace m') = requests (otrace m) ++ fetch_requests (query v) k res /\
    Forall (fun x => exists n, snd x = net w n (query v))
           (fetch_requests (query v) k res) /\
    chunk_files (otrace m') = chunk_files (otrace m) ++ nf.
Proof.
  intros [HI HS] H. apply iteration_pass in H.
  destruct H as [tr [k [res [Ht [Hr [Hk [Hres [Hn [Hs HP]]]]]]]]].
  assert (Hk' : match res with None => k = 5%nat | Some _ => True end)
    by (destruct res; auto).
  pose proof (inv_pass k HI HP Hk') as HI'.
  split; [split|].
  - rewrite Ht, requests_app, chunk_files_app, Hr. exact HI'.
  - rewrite Ht, state_writes_app, HS, Hs. reflexivity.
  - exists k, res, (chunk_files tr). rewrite <- Hr.
    rewrite Ht, requests_app, chunk_files_app. repeat split; auto.
Qed.

Lemma otrace_perf_counter w m : otrace (snd (perf_counter w m)) = otrace m.
Proof. reflexivity. Qed.

Lemma inv_init cfg s0 : Inv cfg s0 true (initial_vars s0) [] [].
Proof.
  constructor; try reflexivity.
  - simpl. lia.
  - now exists [].
  - exists [], []. repeat split; auto.
Qed.

Lemma flush_leftovers_spec w v m :
  otrace (snd (flush_leftovers w v m)) =
    otrace m ++
    match records_buffer v with
    | [] => []
    | _ :: _ =>
        [EvWriteChunk (chunk_counter v + 1)%Z (today w (ticks m)) (records_buffer v);
         EvPrint (MsgWrote (List.length (records_buffer v)) (chunk_counter v + 1)%Z
                           (today w (ticks m)))]
    end /\
  query (fst (flush_leftovers w v m)) = query v /\
  requests_done (fst (flush_leftovers w v m)) = requests_done v /\
  records_buffer (fst (flush_leftovers w v m)) = records_buffer v /\
  chunk_counter (fst (flush_leftovers w v m)) =
    (chunk_counter v + Z.of_nat (List.length (leftover_files v (today w (ticks m)))))%Z.
Proof.
  unfold flush_leftovers, leftover_files.
  destruct (records_buffer v) eqn:E; cbn [fst snd].
  - rewrite app_nil_r. simpl. repeat split; auto. lia.
  - rewrite otrace_flush_chunk. simpl. repeat split; auto.
Qed.

(** A run, summed up: the state at the head of the last pass, that pass,
    and what the lines after the loop added. *)
Lemma harvest_last w cfg st r (P : Vars -> IO -> Prop) :
  P (initial_vars (load_state st)) (snd (perf_counter w init_io)) ->
  (forall v m v' m',
      P v m -> iteration w cfg v m = Some (Continue, v', m') -> P v' m') ->
  harvest w cfg st = Some r ->
  exists v1 m1 k res nf v2,
    P v1 m1 /\
    Inv cfg (load_state st) true v1 (requests (otrace m1)) (chunk_files (otrace m1)) /\
    Pass cfg v1 res nf (Break (stop r)) v2 /\
    (k <= 5)%nat /\
    match res with None => k = 5%nat | Some _ => (k < 5)%nat end /\
    Forall (fun x => exists n, snd x = net w n (query v1))
           (fetch_requests (query v1) k res) /\
    Inv cfg (load_state st) false v2
        (requests (otrace m1) ++ fetch_requests (query v1) k res)
        (chunk_files (otrace m1) ++ nf) /\
    requests (trace r) = requests (otrace m1) ++ fetch_requests (query v1) k res /\
    if crashed (stop r)
    then chunk_files (trace r) = chunk_files (otrace m1) ++ nf /\
         state_writes (trace r) = [] /\ final r = v2
    else exists date,
         chunk_files (trace r) =
           (chunk_files (otrace m1) ++ nf) ++ leftover_files v2 date /\
         state_writes (trace r) = [checkpoint_of (final r)] /\
         query (final r) = query v2 /\
         requests_done (final r) = requests_done v2 /\
         chunk_counter (final r) =
           (chunk_counter v2 + Z.of_nat (List.length (leftover_files v2 date)))%Z.
Proof.
  unfold harvest. intros HP0 Hstep H.
  set (s0 := load_state st) in *.
  destruct (perf_counter w init_io) as [t_start m0] eqn:Hpc.
  assert (Hm0 : otrace m0 = []).
  { change m0 with (snd (t_start, m0)). rewrite <- Hpc. reflexivity. }
  simpl snd in HP0.
  destruct (main_loop _ _ _ _ _) as [[[s v2] m2]|] eqn:Hl; [|discriminate].
  assert (H0 : SInv cfg s0 true (initial_vars s0) m0 /\ P (initial_vars s0) m0).
  { split; [|exact HP0]. split; rewrite Hm0; [apply inv_init | reflexivity]. }
  apply (main_loop_last w cfg (fun v m => SInv cfg s0 true v m /\ P v m)) in Hl;
    [| |exact H0].
  2:{ intros v m v' m' [HS HP] Hi. split; [|eauto].
      now destruct (iteration_inv HS Hi) as [HS' _]. }
  destruct Hl as [v1 [m1 [[HS1 HP1] Hi]]].
  destruct (iteration_inv HS1 Hi)
    as [[HI2 HS2] [k [res [nf [HP [Hk [Hres [Hr [Hn Hc]]]]]]]]].
  simpl continues in HI2. rewrite Hr, Hc in HI2.
  exists v1, m1, k, res, nf, v2.
  destruct HS1 as [HI1 _].
  destruct (crashed s) eqn:Hcr.
  - inv H. simpl. rewrite Hcr. fold (otrace m2). conj; auto.
  - unfold epilogue in H.
    pose proof (flush_leftovers_spec w v2 m2) as HF.
    destruct (flush_leftovers w v2 m2) as [v3 m3]. simpl in HF.
    destruct HF as [Ht3 [Hq3 [Hd3 [Hb3 Hc3]]]].
    injection H as <-. cbn [stop final trace]. rewrite Hcr.
    fold (otrace m3). rewrite Ht3.
    fold (checkpoint_of v3).
    assert (Hlo : forall A (f : Event -> option A),
               (forall e, silent e = true -> f e = None) ->
               pick f match records_buffer v2 with
                      | [] => []
                      | _ :: _ =>
                          [EvWriteChunk (chunk_counter v2 + 1)%Z (today w (ticks m2))
                             (records_buffer v2);
                           EvPrint (MsgWrote (List.length (records_buffer v2))
                                      (chunk_counter v2 + 1)%Z (today w (ticks m2)))]
                      end =
               pick f match records_buffer v2 with
                      | [] => []
                      | _ :: _ =>
                          [EvWriteChunk (chunk_counter v2 + 1)%Z (today w (ticks m2))
                             (records_buffer v2)]
                      end).
    { intros A f Hf. destruct (records_buffer v2); [reflexivity|].
      simpl. now rewrite (Hf (EvPrint _)). }
    conj; auto.
    + observe. unfold requests at 2 3. rewrite Hlo by (intros []; simpl; congruence).
      destruct (records_buffer v2); simpl; now rewrite !app_nil_r.
    + exists (today w (ticks m2)). conj; auto.
      * observe. unfold chunk_files at 2 3.
        rewrite Hlo by (intros []; simpl; congruence).
        unfold leftover_files. rewrite Hc.
        destruct (records_buffer v2); simpl; now rewrite !app_nil_r.
      * observe. rewrite HS2. unfold state_writes at 1.
        rewrite Hlo by (intros []; simpl; congruence).
        destruct (records_buffer v2); reflexivity.
Qed.

Lemma harvest_spec w cfg st r :
  harvest w cfg st = Some r ->
  exists v1 reqs1 files1 k res nf v2,
    Inv cfg (load_state st) true v1 reqs1 files1 /\
    Pass cfg v1 res nf (Break (stop r)) v2 /\
    (k <= 5)%nat /\
    match res with None => k = 5%nat | Some _ => (k < 5)%nat end /\
    Forall (fun x => exists n, snd x = net w n (query v1))
           (fetch_requests (query v1) k res) /\
    Inv cfg (load_state st) false v2
        (reqs1 ++ fetch_requests (query v1) k res) (files1 ++ nf) /\
    requests (trace r) = reqs1 ++ fetch_requests (query v1) k res /\
    if crashed (stop r)
    then chunk_files (trace r) = files1 ++ nf /\
         state_writes (trace r) = [] /\ final r = v2
    else exists date,
         chunk_files (trace r) = (files1 ++ nf) ++ leftover_files v2 date /\
         state_writes (trace r) = [checkpoint_of (final r)] /\
         query (final r) = query v2 /\
         requests_done (final r) = requests_done v2 /\
         chunk_counter (final r) =
           (chunk_counter v2 + Z.of_nat (List.length (leftover_files v2 date)))%Z.
Proof.
  intros H.
  apply (harvest_last w cfg st r (fun _ _ => True)) in H; auto.
  destruct H as [v1 [m1 [k [res [nf [v2 [_ H]]]]]]].
  exists v1, (requests (otrace m1)), (chunk_files (otrace m1)), k, res, nf, v2.
  exact H.
Qed.

(** ** Pages, groups and files *)

Lemma counted_nonempty reqs : Forall (fun p : list Doc => p <> []) (pick counted_page reqs).
Proof.
  induction reqs as [|x reqs IH]; simpl; [constructor|].
  destruct (counted_page x) as [p|] eqn:E; [|exact IH].
  constructor; [|exact IH].
  unfold counted_page in E. destruct (successful_page x) as [[|d ds]|]; inv E.
  discriminate.
Qed.

Lemma concat_pages reqs :
  concat (pick counted_page reqs) = concat (pick successful_page reqs).
Proof.
  induction reqs as [|x reqs IH]; simpl; [reflexivity|].
  unfold counted_page at 1.
  destruct (successful_page x) as [[|d ds]|]; simpl; now rewrite IH.
Qed.

Lemma concat_map_concat {A} (groups : list (list (list A))) :
  concat (map (@concat A) groups) = concat (concat groups).
Proof.
  induction groups as [|g groups IH]; simpl; [reflexivity|].
  now rewrite concat_app, IH.
Qed.

Lemma concat_nil_nonempty {A} (groups : list (list A)) :
  Forall (fun g => g <> []) groups -> concat groups = [] -> groups = [].
Proof.
  destruct 1 as [|g groups Hg _]; [reflexivity|]. simpl.
  destruct g; [congruence | discriminate].
Qed.

Lemma fetch_requests_last q k res :
  match res with None => k = 5%nat | Some _ => True end ->
  exists init,
    fetch_requests q k res =
    init ++ [match res with
             | Some (status, body) => (q, Response status body)
             | None => (q, RequestException)
             end].
Proof.
  unfold fetch_requests. destruct res as [[status body]|]; intros H.
  - now exists (repeat (q, RequestException) k).
  - subst k. exists (repeat (q, RequestException) 4). reflexivity.
Qed.

(** The files of a run that reached the lines after the loop: the pages
    in groups of [CHUNK_SIZE_REQS], the last group possibly shorter. *)
Lemma run_chunks w cfg st r :
  harvest w cfg st = Some r ->
  crashed (stop r) = false ->
  exists groups buffered,
    pages (trace r) = concat groups ++ buffered /\
    Forall (fun g => List.length g = CHUNK_SIZE_REQS cfg /\ g <> []) groups /\
    ((List.length buffered <= CHUNK_SIZE_REQS cfg)%nat \/ CHUNK_SIZE_REQS cfg = 0%nat) /\
    map cf_docs (chunk_files (trace r)) =
      map (@concat Doc) groups ++
      match buffered with [] => [] | _ :: _ => [concat buffered] end /\
    requests_done (final r) = List.length (pages (trace r)).
Proof.
  intros H Hcr. apply harvest_spec in H.
  destruct H as [v1 [reqs1 [files1 [k [res [nf [v2 [_ [_ [_ [_ [_ [HI [Hr HE]]]]]]]]]]]]]].
  rewrite Hcr in HE. destruct HE as [date [Hc [_ [_ [Hd _]]]]].
  destruct HI as [Hdone _ _ _ _ [groups [buffered [Hpg [Hdocs [Hfull [Hbuf Hle]]]]]]].
  exists groups, buffered. unfold pages. rewrite Hr, Hc, Hd, map_app, Hdocs.
  conj; auto. f_equal.
  unfold leftover_files. rewrite Hbuf.
  destruct buffered as [|p ps]; [reflexivity|].
  destruct (concat (p :: ps)) eqn:E; [|reflexivity].
  exfalso. pose proof (counted_nonempty (reqs1 ++ fetch_requests (query v1) k res)) as Hne.
  rewrite Hpg in Hne. apply Forall_app in Hne. destruct Hne as [_ Hne].
  inv Hne. simpl in E. destruct p; [congruence | discriminate].
Qed.

(** ** File names *)

Lemma parse_digits_padded k n : parse_digits (zeros k ++ digits n) = Some n.
Proof.
  unfold parse_digits.
  assert (H : NilEmpty.uint_of_string (zeros k ++ digits n) =
              Some (Nat.iter k Decimal.D0 (N.to_uint n))).
  { induction k as [|k IH]; simpl.
    - apply NilEmpty.usu.
    - now rewrite IH. }
  rewrite H. simpl. f_equal. clear H.
  induction k as [|k IH]; simpl; [apply Unsigned.of_to | exact IH].
Qed.

(** The formatted counter can be read back: formatting loses nothing. *)
Lemma parse_format c : parse_counter (format_06d c) = Some c.
Proof.
  unfold parse_counter, format_06d.
  destruct (Z.ltb_spec c 0) as [Hneg|Hpos].
  - replace (parse_digits (String "-" _)) with (@None N).
    + rewrite parse_digits_padded. simpl. f_equal. lia.
    + unfold parse_digits. simpl.
      now destruct (NilEmpty.uint_of_string _).
  - rewrite parse_digits_padded. f_equal. lia.
Qed.

Lemma format_06d_inj c1 c2 : format_06d c1 = format_06d c2 -> c1 = c2.
Proof.
  intros H. pose proof (parse_format c1) as H1. rewrite H, parse_format in H1.
  congruence.
Qed.

Lemma no_underscore_app s1 s2 :
  no_underscore s1 = true -> no_underscore s2 = true ->
  no_underscore (s1 ++ s2) = true.
Proof.
  induction s1 as [|a s1 IH]; simpl; [auto|].
  intros H H2. apply andb_true_iff in H. destruct H as [Ha H1].
  now rewrite Ha, IH.
Qed.

Lemma no_underscore_zeros k : no_underscore (zeros k) = true.
Proof. induction k; simpl; auto. Qed.

Lemma no_underscore_digits n : no_underscore (digits n) = true.
Proof. unfold digits. induction (N.to_uint n); simpl; auto. Qed.

Lemma no_underscore_format c : no_underscore (format_06d c) = true.
Proof.
  unfold format_06d. destruct (c <? 0)%Z; simpl;
    apply no_underscore_app;
    auto using no_underscore_zeros, no_underscore_digits.
Qed.

Lemma cut_at_underscore : forall s1 s2 r1 r2,
  no_underscore s1 = true -> no_underscore s2 = true ->
  (s1 ++ String "_" r1 = s2 ++ String "_" r2)%string -> s1 = s2.
Proof.
  induction s1 as [|a s1 IH]; intros [|b s2] r1 r2 H1 H2 E; simpl in *.
  - reflexivity.
  - injection E as Ea _. subst b. discriminate.
  - injection E as Ea _. subst a. discriminate.
  - injection E as Ea E. subst b. f_equal.
    apply andb_true_iff in H1, H2. eapply IH; [| |exact E]; tauto.
Qed.

Example chunk_name_7 :
  chunk_name 7 "20240101" = "scopus_raw_000007_20240101.jsonl.gz".
Proof. reflexivity. Qed.

(** Two chunk files with the same name have the same counter. *)
Lemma chunk_name_inj c1 d1 c2 d2 : chunk_name c1 d1 = chunk_name c2 d2 -> c1 = c2.
Proof.
  unfold chunk_name. intros E. simpl in E.
  repeat (injection E as E).
  apply format_06d_inj.
  eapply cut_at_underscore; [| |exact E]; apply no_underscore_format.
Qed.

Lemma NoDup_map_through {A B C} (f : A -> B) (g : A -> C) (l : list A) :
  (forall x y, g x = g y -> f x = f y) ->
  NoDup (map f l) -> NoDup (map g l).
Proof.
  intros Hfg. induction l as [|x l IH]; simpl; intros H; [constructor|].
  inv H. constructor; [|now apply IH].
  intros Hin. apply in_map_iff in Hin. destruct Hin as [y [Hy Hin]].
  match goal with Hn : ~ In (f x) (map f l) |- _ => apply Hn end.
  rewrite <- (Hfg y x Hy). now apply in_map.
Qed.

(** The counters of the chunk files of a run, in the order the files were
    written, continue the loaded counter. *)
Lemma run_counters w cfg st r :
  harvest w cfg st = Some r ->
  map cf_counter (chunk_files (trace r)) =
  map (fun i => (ck_chunk_counter (load_state st) + Z.of_nat i)%Z)
      (seq 1 (List.length (chunk_files (trace r)))).
Proof.
  intros H. apply harvest_spec in H.
  destruct H as [v1 [reqs1 [files1 [n [res [nf [v2 [_ [_ [_ [_ [_ [HI [_ HE]]]]]]]]]]]]]].
  destruct HI as [_ Hcnt Hnames _ _ _].
  generalize dependent (files1 ++ nf). intros F Hcnt Hnames HE.
  destruct (crashed (stop r)).
  - destruct HE as [-> _]. exact Hnames.
  - destruct HE as [date [-> _]].
    rewrite map_app, length_app, seq_app, map_app, Hnames. f_equal.
    unfold leftover_files. destruct (records_buffer v2); [reflexivity|].
    simpl. rewrite Hcnt. f_equal. lia.
Qed.

(** No file name is used twice in a run: nothing is overwritten. *)
Lemma run_names_distinct w cfg st r :
  harvest w cfg st = Some r -> NoDup (map file_name (chunk_files (trace r))).
Proof.
  intros H. apply NoDup_map_through with (f := cf_counter).
  - intros x y. apply chunk_name_inj.
  - rewrite (run_counters _ _ _ _ H).
    apply Injective_map_NoDup; [|apply seq_NoDup].
    intros i j Hij. lia.
Qed.

(** ** Resuming *)

(** C2.  A run resumed from the checkpoint [{cursor = c, chunk_counter = k}]
    issues its first HTTP call with the query whose cursor parameter is
    exactly [c], and if it writes any chunk file, the first one carries the
    counter [k + 1] in its name. *)
Theorem resume_idempotence w cfg c k r :
  harvest w cfg (Some {| ck_cursor := c; ck_chunk_counter := k |}) = Some r ->
  (exists q res rest,
      requests (trace r) = (q, res) :: rest /\
      q = initial_query c /\ q_cursor q = c) /\
  (forall f rest,
      chunk_files (trace r) = f :: rest ->
      cf_counter f = (k + 1)%Z /\
      file_name f = chunk_name (k + 1) (cf_date f)).
Proof.
  intros H. pose proof (run_counters _ _ _ _ H) as Hall. simpl in Hall.
  apply harvest_spec in H. simpl load_state in H.
  destruct H as [v1 [reqs1 [files1 [n [res [nf [v2 [_ [_ [_ [Hres [_ [HI [Hr HE]]]]]]]]]]]]]].
  destruct HI as [_ Hcnt Hnames _ [rest Hfirst] _]. simpl in Hcnt, Hnames, Hfirst.
  split.
  - rewrite Hr.
    destruct (fetch_requests_last (query v1) n res) as [init Hl];
      [destruct res; auto|].
    rewrite Hl in Hfirst |- *. clear Hl.
    match goal with |- context [init ++ [?y]] => generalize dependent y end.
    intros x Hfirst. rewrite app_assoc in Hfirst |- *.
    destruct (reqs1 ++ init) as [|[q0 res0] l]; simpl in Hfirst |- *.
    + destruct x as [q res']. injection Hfirst as Hq _. simpl in Hq.
      exists q, res', []. subst q. auto.
    + injection Hfirst as Hq _. exists q0, res0, (l ++ [x]). subst q0. auto.
  - intros f rest' Hf. rewrite Hf in Hall. simpl in Hall.
    injection Hall as Hc _. unfold file_name. rewrite Hc. split; reflexivity.
Qed.

Lemma resume_idempotence_witness :
  exists r,
    harvest w_endless small_config (Some resumed) = Some r /\
    (exists q res rest,
        requests (trace r) = (q, res) :: rest /\
        q = initial_query "AoE9" /\ q_cursor q = "AoE9") /\
    (forall f rest,
        chunk_files (trace r) = f :: rest ->
        cf_counter f = (7 + 1)%Z /\
        file_name f = chunk_name (7 + 1) (cf_date f)).
Proof.
  eexists. split; [vm_compute; reflexivity|].
  apply (resume_idempotence w_endless small_config "AoE9" 7).
  vm_compute; reflexivity.
Defined.

(** ** Chunks *)

Lemma groups_have_records (n : nat) (groups : list (list (list Doc))) :
  Forall (fun p : list Doc => p <> []) (concat groups) ->
  Forall (fun g => List.length g = n /\ g <> []) groups ->
  Forall (fun d : list Doc => d <> []) (map (@concat Doc) groups).
Proof.
  intros Hp Hg. apply Forall_concat in Hp. apply Forall_map.
  induction Hg as [|g groups [_ Hg] _ IH]; [constructor|].
  inv Hp. constructor; [|now apply IH].
  destruct g as [|p g]; [congruence|].
  match goal with H : Forall _ (p :: g) |- _ => inv H end.
  simpl. destruct p; [congruence | discriminate].
Qed.

(** No flush ever receives an empty buffer. *)
Lemma run_files_nonempty w cfg st r :
  harvest w cfg st = Some r ->
  Forall (fun f => cf_docs f <> []) (chunk_files (trace r)).
Proof.
  intros H. apply harvest_spec in H.
  destruct H as [v1 [reqs1 [files1 [k [res [nf [v2 [_ [_ [_ [_ [_ [HI [_ HE]]]]]]]]]]]]]].
  assert (Hloop : Forall (fun f => cf_docs f <> []) (files1 ++ nf)).
  { destruct HI as [_ _ _ _ _ [groups [buffered [Hpg [Hdocs [Hfull _]]]]]].
    apply (proj1 (Forall_map cf_docs (fun d => d <> []) (files1 ++ nf))).
    rewrite Hdocs.
    apply groups_have_records with (CHUNK_SIZE_REQS cfg); [|exact Hfull].
    pose proof (counted_nonempty (reqs1 ++ fetch_requests (query v1) k res)) as Hne.
    rewrite Hpg in Hne. now apply Forall_app in Hne. }
  destruct (crashed (stop r)).
  - destruct HE as [-> _]. exact Hloop.
  - destruct HE as [date [-> _]]. apply Forall_app. split; [exact Hloop|].
    unfold leftover_files. destruct (records_buffer v2) eqn:E; constructor.
    + simpl. congruence.
    + constructor.
Qed.

(** [requests_done] counts the pages of the trace, in every run. *)
Lemma run_counted w cfg st r :
  harvest w cfg st = Some r ->
  requests_done (final r) = List.length (pages (trace r)).
Proof.
  intros H. apply harvest_spec in H.
  destruct H as [v1 [reqs1 [files1 [k [res [nf [v2 [_ [_ [_ [_ [_ [HI [Hr HE]]]]]]]]]]]]]].
  destruct HI as [Hdone _ _ _ _ _]. unfold pages. rewrite Hr, <- Hdone.
  destruct (crashed (stop r)).
  - destruct HE as [_ [_ ->]]. reflexivity.
  - destruct HE as [date [_ [_ [_ [Hd _]]]]]. exact Hd.
Qed.

(** C9.  Every chunk file written during a run, at a chunk boundary or
    for the leftovers after the loop, holds at least one record; this
    holds for every run, also one that dies on an uncaught exception. *)
Theorem chunks_are_never_empty w cfg st r :
  harvest w cfg st = Some r ->
  Forall (fun f => cf_docs f <> []) (chunk_files (trace r)).
Proof. apply run_files_nonempty. Qed.

Lemma chunks_are_never_empty_witness :
  exists r,
    harvest w_endless small_config None = Some r /\
    List.length (chunk_files (trace r)) = 2%nat /\
    Forall (fun f => cf_docs f <> []) (chunk_files (trace r)).
Proof.
  eexists. split; [vm_compute; reflexivity|]. split; [reflexivity|].
  apply (chunks_are_never_empty w_endless small_config None).
  vm_compute; reflexivity.
Defined.

(** The documents in the chunk files of a run that reached the lines after
    the loop are the documents of the pages fetched, in order. *)
Lemma run_docs w cfg st r :
  harvest w cfg st = Some r ->
  crashed (stop r) = false ->
  concat (map cf_docs (chunk_files (trace r))) = concat (successful_pages (trace r)).
Proof.
  intros H Hcr.
  destruct (run_chunks _ _ _ _ H Hcr) as [groups [buffered [Hpg [_ [_ [Hdocs _]]]]]].
  unfold successful_pages. rewrite <- concat_pages. fold (pages (trace r)).
  rewrite Hdocs, Hpg, !concat_app, concat_map_concat. f_equal.
  destruct buffered; [reflexivity|]. simpl. now rewrite app_nil_r.
Qed.

(** C3, amended.  For every run that leaves the loop through EXHAUSTED,
    QUOTA_HIT or FATAL (that is, every run that does not die on an uncaught
    exception), no chunk file is written over another, and the records in
    the chunk files written by the run are exactly the records of the entry
    lists returned by the fetches that passed the status check, in the same
    order: none dropped, none written twice; in particular the two totals
    agree. *)
Theorem chunk_completeness w cfg st r :
  harvest w cfg st = Some r ->
  crashed (stop r) = false ->
  NoDup (map file_name (chunk_files (trace r))) /\
  concat (map cf_docs (chunk_files (trace r))) = concat (successful_pages (trace r)) /\
  records_written (trace r) = records_fetched (trace r).
Proof.
  intros H Hcr. pose proof (run_docs _ _ _ _ H Hcr) as E.
  split; [now apply run_names_distinct with w cfg st|]. split; [exact E|].
  unfold records_written, records_fetched.
  rewrite <- length_concat, <- E, length_concat, map_map. reflexivity.
Qed.

Lemma chunk_completeness_witness :
  exists r,
    harvest w_endless small_config None = Some r /\
    crashed (stop r) = false /\
    NoDup (map file_name (chunk_files (trace r))) /\
    concat (map cf_docs (chunk_files (trace r))) = concat (successful_pages (trace r)) /\
    records_written (trace r) = records_fetched (trace r).
Proof.
  eexists. split; [vm_compute; reflexivity|]. split; [reflexivity|].
  apply (chunk_completeness w_endless small_config None);
    vm_compute; reflexivity.
Defined.

(** C3 as stated fails on a run that dies in the loop.  The first page is
    fetched and buffered; the second response has entries but no "cursor"
    object, so line 109 raises KeyError and the script ends before the
    leftovers are flushed: two records were returned by fetches that
    passed the status check, none is in a chunk file. *)
Lemma chunk_completeness_counterexample :
  exists r,
    harvest w_keyerror source_config None = Some r /\
    stop r = KeyError /\
    records_fetched (trace r) = 2%nat /\
    records_written (trace r) = 0%nat.
Proof.
  eexists. split; [vm_compute; reflexivity|]. repeat split.
Qed.

(** C8.  When the number of counted fetches of a run is an exact multiple
    of CHUNK_SIZE_REQS, no chunk file of the run is without records, and if
    the run reaches the lines after the loop its chunk files are exactly
    the pages in consecutive groups of CHUNK_SIZE_REQS each: one file per
    boundary and nothing more at the end of the run. *)
Theorem no_empty_trailing_chunk w cfg st r :
  harvest w cfg st = Some r ->
  Nat.divide (CHUNK_SIZE_REQS cfg) (requests_done (final r)) ->
  requests_done (final r) = List.length (pages (trace r)) /\
  Forall (fun f => cf_docs f <> []) (chunk_files (trace r)) /\
  (crashed (stop r) = false ->
   exists groups,
     pages (trace r) = concat groups /\
     map cf_docs (chunk_files (trace r)) = map (@concat Doc) groups /\
     Forall (fun g => List.length g = CHUNK_SIZE_REQS cfg) groups /\
     (List.length (chunk_files (trace r)) * CHUNK_SIZE_REQS cfg)%nat =
       requests_done (final r)).
Proof.
  intros H [z Hz].
  split; [now apply run_counted with w cfg st|].
  split; [now apply run_files_nonempty with w cfg st|].
  intros Hcr.
  destruct (run_chunks _ _ _ _ H Hcr) as [groups [buffered [Hpg [Hfull [Hle [Hdocs Hd]]]]]].
  assert (Hlen : requests_done (final r) =
                 (CHUNK_SIZE_REQS cfg * List.length groups + List.length buffered)%nat).
  { rewrite Hd, Hpg, length_app. f_equal. now apply length_concat_full. }
  assert (Hfull' : Forall (fun g : list (list Doc) =>
                             List.length g = CHUNK_SIZE_REQS cfg) groups).
  { eapply Forall_impl; [|exact Hfull]. now intros g [Hg _]. }
  destruct buffered as [|p ps].
  - rewrite app_nil_r in *. exists groups. conj; auto.
    rewrite <- (length_map cf_docs), Hdocs, length_map, Hlen. simpl. lia.
  - assert (Hc : List.length (p :: ps) = CHUNK_SIZE_REQS cfg).
    { rewrite Hz in Hlen. clear - Hlen Hle.
      destruct Hle as [Hle|Hle]; [|rewrite Hle in Hlen; simpl in Hlen; lia].
      simpl in *. remember (List.length ps) as b. remember (List.length groups) as g.
      remember (CHUNK_SIZE_REQS cfg) as c. clear - Hlen Hle.
      destruct (Nat.lt_trichotomy z (S g)) as [Hlt | [-> | Hgt]].
      - assert (z * c <= g * c)%nat by (apply Nat.mul_le_mono_r; lia). lia.
      - lia.
      - assert ((S (S g)) * c <= z * c)%nat by (apply Nat.mul_le_mono_r; lia). lia. }
    exists (groups ++ [p :: ps]). conj.
    + rewrite Hpg, concat_app. simpl. now rewrite app_nil_r.
    + now rewrite Hdocs, map_app.
    + apply Forall_app. split; [exact Hfull'|]. repeat constructor. exact Hc.
    + rewrite <- (length_map cf_docs), Hdocs, length_app, length_map, Hlen, Hc.
      simpl. lia.
Qed.

Lemma no_empty_trailing_chunk_witness :
  exists r,
    harvest w_endless four_by_two None = Some r /\
    Nat.divide 2 (requests_done (final r)) /\
    requests_done (final r) = List.length (pages (trace r)) /\
    Forall (fun f => cf_docs f <> []) (chunk_files (trace r)) /\
    (crashed (stop r) = false ->
     exists groups,
       pages (trace r) = concat groups /\
       map cf_docs (chunk_files (trace r)) = map (@concat Doc) groups /\
       Forall (fun g => List.length g = 2%nat) groups /\
       (List.length (chunk_files (trace r)) * 2)%nat = requests_done (final r)).
Proof.
  eexists. split; [vm_compute; reflexivity|].
  split; [exists 2%nat; reflexivity|].
  apply (no_empty_trailing_chunk w_endless four_by_two None).
  - vm_compute; reflexivity.
  - exists 2%nat; reflexivity.
Defined.

(** ** The pass that leaves the loop *)

Lemma pass_break cfg v res nf s v' :
  Pass cfg v res nf (Break s) v' ->
  match s with
  | NetworkFailed => res = None /\ nf = [] /\ v' = v
  | HttpError status =>
      exists body, res = Some (status, body) /\ status <> 200%Z /\ nf = [] /\ v' = v
  | NoEntries =>
      exists body, res = Some (200%Z, body) /\ entries_of body = [] /\ nf = [] /\ v' = v
  | NoNextCursor =>
      exists body, res = Some (200%Z, body) /\ entries_of body <> [] /\
                   advance (query v, Response 200 body) = None /\
                   nf = [] /\ query v' = query v
  | QuotaHit =>
      exists body tok, res = Some (200%Z, body) /\
                       advance (query v, Response 200 body) = Some tok /\
                       q_cursor (query v') = tok /\
                       requests_done v' = S (requests_done v) /\
                       (MAX_REQS_PER_RUN cfg <= requests_done v')%nat
  | KeyError =>
      exists body, res = Some (200%Z, body) /\ entries_of body <> [] /\
                   next_cursor_of body = None
  | ZeroDivisionError =>
      exists body, res = Some (200%Z, body) /\ entries_of body <> [] /\
                   CHUNK_SIZE_REQS cfg = 0%nat
  end.
Proof.
  intros H. inversion H; subst; eauto 7.
  - eexists. conj; eauto. erewrite advance_ok by eassumption. assumption.
  - unfold quota_flow in *.
    destruct (Nat.leb_spec (MAX_REQS_PER_RUN cfg) (S (requests_done v))) as [Hq|Hq];
      [|discriminate].
    match goal with E : Break _ = Break _ |- _ => inv E end.
    eexists _, tok. conj; eauto.
    erewrite advance_ok by eassumption. assumption.
  - unfold quota_flow in *.
    destruct (Nat.leb_spec (MAX_REQS_PER_RUN cfg) (S (requests_done v))) as [Hq|Hq];
      [|discriminate].
    match goal with E : Break _ = Break _ |- _ => inv E end.
    eexists _, tok. conj; eauto.
    erewrite advance_ok by eassumption. assumption.
Qed.

(** ** The checkpoint *)

Lemma checkpoint_eta (c : Checkpoint) :
  {| ck_cursor := ck_cursor c; ck_chunk_counter := ck_chunk_counter c |} = c.
Proof. now destruct c. Qed.

(** The checkpoint of a run that reached line 133: the counter counts the
    files, the cursor is where the calls led to. *)
Lemma run_checkpoint w cfg st r :
  harvest w cfg st = Some r ->
  crashed (stop r) = false ->
  state_writes (trace r) = [checkpoint_of (final r)] /\
  chunk_counter (final r) =
    (ck_chunk_counter (load_state st) +
     Z.of_nat (List.length (chunk_files (trace r))))%Z /\
  q_cursor (query (final r)) =
    resume_cursor (ck_cursor (load_state st)) (requests (trace r)).
Proof.
  intros H Hcr. apply harvest_spec in H.
  destruct H as [v1 [reqs1 [files1 [k [res [nf [v2 [_ [_ [_ [_ [_ [HI [Hr HE]]]]]]]]]]]]]].
  rewrite Hcr in HE. destruct HE as [date [Hc [Hs [Hq [_ Hcc]]]]].
  destruct HI as [_ Hcnt _ Hcur _ _].
  conj; auto.
  - rewrite Hcc, Hcnt, Hc, !length_app. lia.
  - now rewrite Hq, Hr.
Qed.

(** C1, amended.  For every run that ends through EXHAUSTED, QUOTA_HIT or
    FATAL, exactly one checkpoint is written; its chunk_counter is the
    counter loaded at startup plus the number of chunk files written during
    the run; its cursor is the "@next" token of the last response that
    carried entries and a token, or the loaded cursor when there was none.
    On QUOTA_HIT that token came with the response of the run's last call;
    on EXHAUSTED and on FATAL the saved cursor is the cursor the run's last
    call was issued with. *)
Theorem checkpoint_consistency w cfg st r :
  harvest w cfg st = Some r ->
  crashed (stop r) = false ->
  exists c,
    state_writes (trace r) = [c] /\
    ck_chunk_counter c =
      (ck_chunk_counter (load_state st) +
       Z.of_nat (List.length (chunk_files (trace r))))%Z /\
    ck_cursor c = resume_cursor (ck_cursor (load_state st)) (requests (trace r)) /\
    exists earlier q res,
      requests (trace r) = earlier ++ [(q, res)] /\
      match stop r with
      | QuotaHit => advance (q, res) = Some (ck_cursor c)
      | _ => q_cursor q = ck_cursor c
      end.
Proof.
  intros H Hcr.
  destruct (run_checkpoint _ _ _ _ H Hcr) as [Hs [Hcnt Hcur]].
  exists (checkpoint_of (final r)). conj; auto.
  apply harvest_spec in H.
  destruct H as [v1 [reqs1 [files1 [k [res [nf [v2 [_ [HP [_ [Hres [_ [_ [Hr HE]]]]]]]]]]]]]].
  rewrite Hcr in HE. destruct HE as [date [_ [_ [Hq _]]]].
  destruct (fetch_requests_last (query v1) k res) as [init Hl];
    [destruct res; auto|].
  rewrite Hl, app_assoc in Hr.
  apply pass_break in HP. simpl ck_cursor. rewrite Hq.
  destruct (stop r); try discriminate.
  - destruct HP as [-> [_ ->]]. eexists _, _, _. split; [exact Hr|]. reflexivity.
  - destruct HP as [body [-> [_ [_ ->]]]].
    eexists _, _, _. split; [exact Hr|]. reflexivity.
  - destruct HP as [body [-> [_ [_ ->]]]].
    eexists _, _, _. split; [exact Hr|]. reflexivity.
  - destruct HP as [body [-> [_ [_ [_ ->]]]]].
    eexists _, _, _. split; [exact Hr|]. reflexivity.
  - destruct HP as [body [tok [-> [Ha [<- _]]]]].
    eexists _, _, _. split; [exact Hr|]. exact Ha.
Qed.

Lemma checkpoint_consistency_witness :
  exists r,
    harvest w_endless small_config (Some resumed) = Some r /\
    crashed (stop r) = false /\
    exists c,
      state_writes (trace r) = [c] /\
      ck_chunk_counter c = (7 + Z.of_nat (List.length (chunk_files (trace r))))%Z /\
      ck_cursor c = resume_cursor "AoE9" (requests (trace r)) /\
      exists earlier q res,
        requests (trace r) = earlier ++ [(q, res)] /\
        match stop r with
        | QuotaHit => advance (q, res) = Some (ck_cursor c)
        | _ => q_cursor q = ck_cursor c
        end.
Proof.
  eexists. split; [vm_compute; reflexivity|]. split; [reflexivity|].
  apply (checkpoint_consistency w_endless small_config (Some resumed));
    vm_compute; reflexivity.
Defined.

(** C1 as stated fails for EXHAUSTED.  The provider answers the first call,
    issued with the cursor "*", with an empty entry list; the run ends
    with "no more entries" and saves the cursor "*", the very value the
    call was issued with. *)
Lemma checkpoint_consistency_counterexample :
  exists r c,
    harvest w_empty source_config None = Some r /\
    stop r = NoEntries /\
    state_writes (trace r) = [c] /\
    In (ck_cursor c) (cursors_used (trace r)).
Proof.
  eexists _, _. split; [vm_compute; reflexivity|].
  split; [reflexivity|]. split; [reflexivity|]. left. reflexivity.
Qed.

(** ** Aborted runs *)

(** C6.  When a run is aborted because a fetch failed five times in a row,
    its last five calls are those failures, all issued with one query; the
    saved cursor is the cursor of that query, which is where the earlier
    calls had led to, so it is not advanced; the saved chunk_counter is the
    loaded counter plus the number of chunk files written, and those files
    hold exactly the records fetched before the failure. *)
Theorem retry_then_abort w cfg st r :
  harvest w cfg st = Some r ->
  stop r = NetworkFailed ->
  exists earlier q c,
    requests (trace r) = earlier ++ repeat (q, RequestException) 5 /\
    state_writes (trace r) = [c] /\
    ck_cursor c = q_cursor q /\
    ck_cursor c = resume_cursor (ck_cursor (load_state st)) earlier /\
    ck_chunk_counter c =
      (ck_chunk_counter (load_state st) +
       Z.of_nat (List.length (chunk_files (trace r))))%Z /\
    concat (map cf_docs (chunk_files (trace r))) =
      concat (pick successful_page earlier).
Proof.
  intros H Hs.
  assert (Hcr : crashed (stop r) = false) by now rewrite Hs.
  destruct (run_checkpoint _ _ _ _ H Hcr) as [Hst [Hcnt _]].
  pose proof (run_docs _ _ _ _ H Hcr) as Hdocs.
  apply harvest_spec in H.
  destruct H as [v1 [reqs1 [files1 [k [res [nf [v2 [HI [HP [_ [Hres [_ [_ [Hr HE]]]]]]]]]]]]]].
  rewrite Hcr in HE. destruct HE as [date [_ [_ [Hq _]]]].
  rewrite Hs in HP. apply pass_break in HP. destruct HP as [-> [-> ->]]. subst k.
  exists reqs1, (query v1), (checkpoint_of (final r)).
  destruct HI as [_ _ _ Hcur _ _].
  conj; auto.
  - simpl. now rewrite Hq.
  - simpl. now rewrite Hq.
  - rewrite Hdocs. unfold successful_pages. rewrite Hr, pick_app.
    rewrite (pick_fetch_requests successful_page) by reflexivity.
    simpl. now rewrite app_nil_r.
Qed.

Lemma retry_then_abort_witness :
  exists r,
    harvest (w_down_after 3) four_by_two (Some resumed) = Some r /\
    stop r = NetworkFailed /\
    exists earlier q c,
      requests (trace r) = earlier ++ repeat (q, RequestException) 5 /\
      state_writes (trace r) = [c] /\
      ck_cursor c = q_cursor q /\
      ck_cursor c = resume_cursor "AoE9" earlier /\
      ck_chunk_counter c = (7 + Z.of_nat (List.length (chunk_files (trace r))))%Z /\
      concat (map cf_docs (chunk_files (trace r))) =
        concat (pick successful_page earlier).
Proof.
  eexists. split; [vm_compute; reflexivity|]. split; [reflexivity|].
  apply (retry_then_abort (w_down_after 3) four_by_two (Some resumed));
    vm_compute; reflexivity.
Defined.

Lemma advance_successful x : successful_page x = None -> advance x = None.
Proof.
  destruct x as [q [|status body]]; unfold successful_page, advance; simpl;
    [reflexivity|].
  destruct (status =? 200)%Z; [discriminate | reflexivity].
Qed.

Lemma counted_successful x : successful_page x = None -> counted_page x = None.
Proof. unfold counted_page. now intros ->. Qed.

(** C10.  When no fetch of a run passes the status check (every call
    raised or came back with a status other than 200), the run is aborted
    on its first fetch; it writes no chunk file and saves exactly the
    cursor and chunk_counter it started with; started without a state
    file, it writes one with the defaults "*" and 0. *)
Theorem failed_first_fetch w cfg st r :
  harvest w cfg st = Some r ->
  Forall (fun x => successful_page x = None) (requests (trace r)) ->
  chunk_files (trace r) = [] /\
  state_writes (trace r) = [load_state st] /\
  (st = None ->
   state_writes (trace r) = [{| ck_cursor := "*"; ck_chunk_counter := 0 |}]) /\
  (stop r = NetworkFailed \/
   exists status, status <> 200%Z /\ stop r = HttpError status).
Proof.
  intros H Hall.
  assert (Hstop : stop r = NetworkFailed \/
                  exists status, status <> 200%Z /\ stop r = HttpError status).
  { apply harvest_spec in H.
    destruct H as [v1 [reqs1 [files1 [k [res [nf [v2 [_ [HP [_ [Hres [_ [_ [Hr _]]]]]]]]]]]]]].
    rewrite Hr in Hall. apply Forall_app in Hall. destruct Hall as [_ Hall].
    unfold fetch_requests in Hall. apply Forall_app in Hall. destruct Hall as [_ Hall].
    apply pass_break in HP.
    destruct (stop r); eauto;
      try (destruct HP as [body [-> _]]; inv Hall; discriminate).
    - destruct HP as [body [-> [Hne _]]]. eauto.
    - destruct HP as [body [tok [-> _]]]. inv Hall. discriminate. }
  assert (Hcr : crashed (stop r) = false).
  { destruct Hstop as [-> | [status [_ ->]]]; reflexivity. }
  destruct (run_checkpoint _ _ _ _ H Hcr) as [Hst [Hcnt Hcur]].
  destruct (run_chunks _ _ _ _ H Hcr) as [groups [buffered [Hpg [Hfull [_ [Hdocs _]]]]]].
  assert (Hnone : pages (trace r) = []).
  { unfold pages. apply pick_none.
    eapply Forall_impl; [|exact Hall]. apply counted_successful. }
  rewrite Hnone in Hpg. symmetry in Hpg. apply app_eq_nil in Hpg.
  destruct Hpg as [Hg ->].
  assert (groups = []).
  { apply concat_nil_nonempty; [|exact Hg].
    eapply Forall_impl; [|exact Hfull]. now intros g [_ Hne]. }
  subst groups. simpl in Hdocs. apply map_eq_nil in Hdocs.
  assert (Hck : checkpoint_of (final r) = load_state st).
  { unfold checkpoint_of. rewrite Hcur, Hcnt, Hdocs. simpl.
    unfold resume_cursor. rewrite pick_none.
    - simpl. rewrite Z.add_0_r. apply checkpoint_eta.
    - eapply Forall_impl; [|exact Hall]. apply advance_successful. }
  rewrite Hck in Hst. conj; auto.
  intros ->. exact Hst.
Qed.

Lemma failed_first_fetch_witness :
  exists r,
    harvest (w_unavailable_after 0) source_config None = Some r /\
    Forall (fun x => successful_page x = None) (requests (trace r)) /\
    chunk_files (trace r) = [] /\
    state_writes (trace r) = [load_state None] /\
    (@None Checkpoint = None ->
     state_writes (trace r) = [{| ck_cursor := "*"; ck_chunk_counter := 0 |}]) /\
    (stop r = NetworkFailed \/
     exists status, status <> 200%Z /\ stop r = HttpError status).
Proof.
  eexists. split; [vm_compute; reflexivity|].
  split; [repeat constructor|].
  apply (failed_first_fetch (w_unavailable_after 0) source_config None).
  - vm_compute; reflexivity.
  - repeat constructor.
Defined.

(** ** Termination

    With a clock that does not run backwards the limiter's loop and the
    main loop come to an end within their fuel. *)

Lemma evict_head_expired now t0 rest :
  t0 + WINDOW <= now -> evict now (t0 :: rest) = evict now rest.
Proof.
  intros H. simpl.
  replace (Qle_bool WINDOW (now - t0)) with true; [reflexivity|].
  symmetry. apply Qle_bool_iff. lra.
Qed.

Section Termination.

Variable w : World.
Hypothesis Hmono : monotonic_clock w.

Lemma acquire_after_sleep : forall fuel m t0 rest,
  recent_ts m = t0 :: rest ->
  t0 + WINDOW <= clock m ->
  (List.length (recent_ts m) <= fuel)%nat ->
  exists now m1, acquire w fuel m = Some (now, m1).
Proof.
  induction fuel as [|fuel IH]; intros m t0 rest Hts Hexp Hlen.
  - rewrite Hts in Hlen. simpl in Hlen. lia.
  - rewrite acquire_S. cbv zeta.
    pose proof (Hmono (ticks m)) as Ht.
    pose proof (Hmono (S (ticks m))) as Ht'.
    change (recent_ts (elapse w 0 m)) with (recent_ts m). rewrite Hts.
    rewrite evict_head_expired by (simpl; lra).
    pose proof (evict_length (clock (elapse w 0 m)) rest) as Hl.
    rewrite Hts in Hlen. simpl in Hlen.
    destruct (Nat.ltb_spec (List.length (evict (clock (elapse w 0 m)) rest)) MAX_RPS)
      as [Hlt|Hge]; [eauto|].
    destruct (evict (clock (elapse w 0 m)) rest) as [|t1 ts] eqn:Ev.
    + unfold MAX_RPS in Hge. simpl in Hge. lia.
    + eapply IH.
      * reflexivity.
      * simpl. unfold WINDOW. lra.
      * simpl in *. lia.
Qed.

Lemma acquire_total m :
  exists now m1, acquire w (S (List.length (recent_ts m))) m = Some (now, m1).
Proof.
  rewrite acquire_S. cbv zeta.
  pose proof (Hmono (ticks m)) as Ht.
  pose proof (Hmono (S (ticks m))) as Ht'.
  change (recent_ts (elapse w 0 m)) with (recent_ts m).
  pose proof (evict_length (clock (elapse w 0 m)) (recent_ts m)) as Hl.
  destruct (Nat.ltb_spec (List.length (evict (clock (elapse w 0 m)) (recent_ts m)))
                         MAX_RPS) as [Hlt|Hge]; [eauto|].
  destruct (evict (clock (elapse w 0 m)) (recent_ts m)) as [|t1 ts] eqn:Ev.
  - unfold MAX_RPS in Hge. simpl in Hge. lia.
  - eapply acquire_after_sleep.
    + reflexivity.
    + simpl. unfold WINDOW. lra.
    + simpl in *. lia.
Qed.

Lemma rate_limited_get_total q m :
  exists res m1, rate_limited_get w q m = Some (res, m1).
Proof.
  unfold rate_limited_get.
  destruct (acquire_total m) as [now [m1 ->]].
  destruct (session_get w q m1) as [[|status body] m2]; simpl; eauto.
Qed.

Lemma retry_loop_total q : forall atts m,
  exists res m1, retry_loop w atts q m = Some (res, m1).
Proof.
  induction atts as [|a atts IH]; intros m; simpl; [eauto|].
  destruct (rate_limited_get_total q m) as [[|status body] [m1 ->]]; eauto.
Qed.

Lemma iteration_total cfg v m :
  exists flow v' m', iteration w cfg v m = Some (flow, v', m').
Proof.
  unfold iteration, fetch.
  destruct (retry_loop_total (query v) (seq 0 5) m) as [res [m1 ->]].
  repeat match goal with
         | |- context [match ?x with _ => _ end] => destruct x
         end; eauto.
Qed.

Lemma pass_continue cfg v res nf v' :
  Pass cfg v res nf Continue v' ->
  requests_done v' = S (requests_done v) /\
  (S (requests_done v) < MAX_REQS_PER_RUN cfg)%nat.
Proof.
  intros H. inversion H; subst; simpl; split; auto;
    unfold quota_flow in *;
    destruct (Nat.leb_spec (MAX_REQS_PER_RUN cfg) (S (requests_done v)));
    auto; discriminate.
Qed.

Lemma main_loop_total cfg : forall fuel v m,
  (MAX_REQS_PER_RUN cfg - requests_done v < fuel)%nat ->
  exists s v' m', main_loop w cfg fuel v m = Some (s, v', m').
Proof.
  induction fuel as [|fuel IH]; intros v m Hf; [lia|]. simpl.
  destruct (iteration_total cfg v m) as [flow [v1 [m1 Hi]]]. rewrite Hi.
  destruct flow as [|s]; [|eauto].
  apply IH. apply iteration_pass in Hi.
  destruct Hi as [tr [k [res [_ [_ [_ [_ [_ [_ HP]]]]]]]]].
  apply pass_continue in HP. lia.
Qed.

(** Every run comes to an end: by leaving the loop, or on an uncaught
    exception. *)
Lemma harvest_total cfg st : exists r, harvest w cfg st = Some r.
Proof.
  unfold harvest.
  destruct (perf_counter w init_io) as [t_start m0].
  destruct (main_loop_total cfg (S (MAX_REQS_PER_RUN cfg))
              (initial_vars (load_state st)) m0) as [s [v [m ->]]];
    [simpl; lia|].
  destruct (crashed s); [eauto|].
  destruct (epilogue w t_start v m). eauto.
Qed.

End Termination.

(** ** The quota *)

Lemma truthy_token tok : tok <> "" -> truthy (Some tok) = Some tok.
Proof. destruct tok; [congruence | reflexivity]. Qed.

Lemma endless_fetch w q k res :
  (forall n q, one_entry_and_token (net w n q)) ->
  Forall (fun x => exists n, snd x = net w n q) (fetch_requests q k res) ->
  match res with None => k = 5%nat | Some _ => (k < 5)%nat end ->
  k = 0%nat /\
  exists body, res = Some (200%Z, body) /\ one_entry_and_token (Response 200 body).
Proof.
  intros Hw Hall Hk. unfold fetch_requests in Hall.
  destruct k as [|k].
  - split; [reflexivity|]. destruct res as [[status body]|]; [|discriminate].
    simpl in Hall. inv Hall. destruct H1 as [n Hn]. simpl in Hn.
    pose proof (Hw n q) as Hg. rewrite <- Hn in Hg.
    destruct Hg as [body' [d [tok [E Hg]]]]. inv E.
    exists body'. split; [reflexivity|]. exists body', d, tok. tauto.
  - simpl in Hall. inv Hall. destruct H1 as [n Hn]. simpl in Hn.
    destruct (Hw n q) as [body' [d [tok [E _]]]]. congruence.
Qed.

(** C7.  With MAX_REQS_PER_RUN = 3 (and any chunk size other than 0),
    against a provider that answers every call with exactly one entry and
    a next-page token, the run comes to an end after exactly three HTTP
    calls, leaves the loop on the quota, and the checkpoint it saves holds
    the token that came with the third response. *)
Theorem quota_scenario w cfg st :
  monotonic_clock w ->
  MAX_REQS_PER_RUN cfg = 3%nat ->
  CHUNK_SIZE_REQS cfg <> 0%nat ->
  (forall n q, one_entry_and_token (net w n q)) ->
  exists r,
    harvest w cfg st = Some r /\
    stop r = QuotaHit /\
    List.length (requests (trace r)) = 3%nat /\
    Forall (fun x => one_entry_and_token (snd x)) (requests (trace r)) /\
    exists earlier q body tok,
      requests (trace r) = earlier ++ [(q, Response 200 body)] /\
      next_cursor_of body = Some (Some tok) /\
      state_writes (trace r) =
        [{| ck_cursor := tok; ck_chunk_counter := chunk_counter (final r) |}].
Proof.
  intros Hmono Hmax Hchunk Hw.
  destruct (harvest_total w Hmono cfg st) as [r H].
  exists r. split; [exact H|].
  pose (P := fun (v : Vars) (m : IO) =>
               Forall (fun x => one_entry_and_token (snd x)) (requests (otrace m)) /\
               List.length (requests (otrace m)) = requests_done v /\
               (requests_done v < 3)%nat).
  apply (harvest_last w cfg st r P) in H.
  - destruct H as [v1 [m1 [k [res [nf [v2 [[Hg [Hl Hlt]] [_ [HP [_ [Hk [Hn [_ [Hr HE]]]]]]]]]]]]]].
    destruct (endless_fetch w _ _ _ Hw Hn Hk) as [-> [body [-> Hone]]].
    unfold fetch_requests in Hr. simpl in Hr.
    pose proof Hone as [body' [d [tok [E [Hd [Hnx Htok]]]]]].
    injection E as E. subst body'.
    assert (Hadv : advance (query v1, Response 200 body) = Some tok).
    { erewrite advance_ok; [now apply truthy_token | | exact Hnx].
      rewrite Hd. discriminate. }
    apply pass_break in HP.
    destruct (stop r) eqn:Hs.
    + destruct HP as [E _]. discriminate.
    + destruct HP as [b [E [Hne _]]]. inv E. congruence.
    + destruct HP as [b [E [He _]]]. inv E. congruence.
    + destruct HP as [b [E [_ [Ha _]]]]. inv E. congruence.
    + destruct HP as [b [tok' [E [Ha [Hq [Hd' Hmx]]]]]]. inv E.
      rewrite Hadv in Ha. inv Ha.
      simpl in HE. destruct HE as [date [_ [Hst [Hq' _]]]].
      split; [reflexivity|]. split; [|split].
      * rewrite Hr, length_app, Hl. simpl. lia.
      * rewrite Hr. apply Forall_app. split; [exact Hg|]. repeat constructor. exact Hone.
      * eexists _, _, _, _. split; [exact Hr|]. split; [eassumption|].
        rewrite Hst. unfold checkpoint_of. now rewrite Hq'.
    + destruct HP as [b [E [_ Hk']]]. inv E. congruence.
    + destruct HP as [b [E [_ Hc]]]. congruence.
  - subst P. simpl. repeat split; [constructor | lia].
  - subst P. intros v m v' m' [Hg [Hl Hlt]] Hi. apply iteration_pass in Hi.
    destruct Hi as [tr [k [res [Ht [Hr [_ [Hk [Hn [_ HP]]]]]]]]].
    rewrite Hr in Hn.
    destruct (endless_fetch w _ _ _ Hw Hn Hk) as [-> [body [-> Hone]]].
    apply pass_continue in HP. destruct HP as [Hd Hq].
    rewrite Ht, requests_app, Hr. unfold fetch_requests. simpl.
    conj.
    + apply Forall_app. split; [exact Hg|]. repeat constructor. exact Hone.
    + rewrite length_app, Hl, Hd. simpl. lia.
    + lia.
Qed.

Lemma quota_scenario_witness :
  monotonic_clock w_endless /\
  MAX_REQS_PER_RUN small_config = 3%nat /\
  CHUNK_SIZE_REQS small_config <> 0%nat /\
  (forall n q, one_entry_and_token (net w_endless n q)) /\
  exists r,
    harvest w_endless small_config None = Some r /\
    stop r = QuotaHit /\
    List.length (requests (trace r)) = 3%nat /\
    Forall (fun x => one_entry_and_token (snd x)) (requests (trace r)) /\
    exists earlier q body tok,
      requests (trace r) = earlier ++ [(q, Response 200 body)] /\
      next_cursor_of body = Some (Some tok) /\
      state_writes (trace r) =
        [{| ck_cursor := tok; ck_chunk_counter := chunk_counter (final r) |}].
Proof.
  assert (Hm : monotonic_clock w_endless) by (intros n; simpl; discriminate).
  assert (Hc : CHUNK_SIZE_REQS small_config <> 0%nat) by (simpl; discriminate).
  assert (Hw : forall n q, one_entry_and_token (net w_endless n q)).
  { intros n q. exists (page [doc (token n)] (Some (token n))), (doc (token n)), (token n).
    repeat split. discriminate. }
  split; [exact Hm|]. split; [reflexivity|]. split; [exact Hc|]. split; [exact Hw|].
  exact (quota_scenario w_endless small_config None Hm eq_refl Hc Hw).
Defined.

(** ** The retry policy *)

Lemma retry_loop_exhausted w q : forall atts m m1,
  retry_loop w atts q m = Some (None, m1) ->
  exists evs, events m1 = EvPrint MsgNetworkFailed :: evs.
Proof.
  induction atts as [|a atts IH]; intros m m1 H; simpl in H.
  - inv H. simpl. eauto.
  - destruct (rate_limited_get w q m) as [[[|status body] m']|]; try discriminate.
    eapply IH. exact H.
Qed.

Lemma length_fetch_requests q k res :
  match res with None => k = 5%nat | Some _ => (k < 5)%nat end ->
  (List.length (fetch_requests q k res) <= 5)%nat.
Proof.
  unfold fetch_requests. rewrite length_app, repeat_length.
  destruct res as [[status body]|]; simpl; lia.
Qed.

Lemma fst_fetch_requests q k res :
  Forall (fun x => fst x = q) (fetch_requests q k res).
Proof.
  unfold fetch_requests. apply Forall_app. split.
  - apply Forall_forall. intros x Hx. apply repeat_spec in Hx. now subst.
  - destruct res as [[status body]|]; repeat constructor.
Qed.

(** C5.  One fetch makes at most five HTTP calls, all with the same query
    parameters.  Reduced to the calls and the back-off sleeps, its trace is:
    for each failed attempt number i = 0, 1, ... the call and then a sleep
    of 2 + i seconds, and last the response, unless all five attempts
    failed.  After five failures the loop is left with "network failed";
    a response with a status other than 200 is not followed by another
    call: the loop is left at once, with the HTTP status as the reason and
    its own console line. *)
Theorem retry_policy w cfg v m res m1 fuel :
  fetch w (query v) m = Some (res, m1) ->
  (exists tr k,
      otrace m1 = otrace m ++ tr /\
      match res with None => k = 5%nat | Some _ => (k < 5)%nat end /\
      skeleton tr = backoff_steps (query v) (seq 0 k) ++ final_step (query v) res /\
      (List.length (requests tr) <= 5)%nat /\
      Forall (fun x => fst x = query v) (requests tr)) /\
  match res with
  | None =>
      (exists evs, events m1 = EvPrint MsgNetworkFailed :: evs) /\
      main_loop w cfg (S fuel) v m = Some (NetworkFailed, v, m1)
  | Some (status, body) =>
      status <> 200%Z ->
      main_loop w cfg (S fuel) v m =
      Some (HttpError status, v, print (MsgHttp status) m1)
  end.
Proof.
  intros H. split.
  - pose proof H as H'. apply fetch_spec in H'.
    destruct H' as [tr [k [Ht [_ [Hk [Hsk [Hr _]]]]]]].
    exists tr, k. conj; auto; rewrite Hr.
    + now apply length_fetch_requests.
    + apply fst_fetch_requests.
  - destruct res as [[status body]|].
    + intros Hne. simpl. unfold iteration. rewrite H.
      destruct (Z.eqb_spec status 200) as [E|_]; [contradiction | reflexivity].
    + split.
      * eapply retry_loop_exhausted. exact H.
      * simpl. unfold iteration. now rewrite H.
Qed.

Lemma retry_policy_witness :
  fetch (w_down_after 0) (query (initial_vars default_checkpoint)) init_io
    = Some (None, after_failed_fetch) /\
  (exists tr k,
      otrace after_failed_fetch = otrace init_io ++ tr /\
      k = 5%nat /\
      skeleton tr =
        backoff_steps (query (initial_vars default_checkpoint)) (seq 0 k) ++
        final_step (query (initial_vars default_checkpoint)) None /\
      (List.length (requests tr) <= 5)%nat /\
      Forall (fun x => fst x = query (initial_vars default_checkpoint))
             (requests tr)) /\
  (exists evs, events after_failed_fetch = EvPrint MsgNetworkFailed :: evs) /\
  main_loop (w_down_after 0) source_config 1
            (initial_vars default_checkpoint) init_io =
  Some (NetworkFailed, initial_vars default_checkpoint, after_failed_fetch).
Proof.
  assert (H : fetch (w_down_after 0) (query (initial_vars default_checkpoint)) init_io
              = Some (None, after_failed_fetch)) by (vm_compute; reflexivity).
  split; [exact H|].
  exact (retry_policy (w_down_after 0) source_config
           (initial_vars default_checkpoint) init_io None after_failed_fetch 0 H).
Defined.

(** ** Rounding to a double *)

Lemma pow2_pos e : 0 < pow2 e.
Proof. apply Qpower_0_lt. reflexivity. Qed.

Lemma pow2_add a b : pow2 (a + b) == pow2 a * pow2 b.
Proof. apply Qpower_plus. discriminate. Qed.

Lemma pow2_lt a b : (a < b)%Z -> pow2 a < pow2 b.
Proof. intros H. apply Qpower_lt_compat_l; [exact H | reflexivity]. Qed.

Lemma pow2_le a b : (a <= b)%Z -> pow2 a <= pow2 b.
Proof. intros H. apply Qpower_le_compat_l; [exact H | discriminate]. Qed.

Lemma pow2_lt_inv a b : pow2 a < pow2 b -> (a < b)%Z.
Proof. intros H. eapply Qpower_lt_compat_l_inv; [exact H | reflexivity]. Qed.

Lemma pow2_inject (n : Z) : (0 <= n)%Z -> inject_Z (2 ^ n) == pow2 n.
Proof. intros H. now rewrite Zpower_Qpower. Qed.

Lemma pow2_succ a : pow2 (a + 1) == 2 * pow2 a.
Proof. rewrite pow2_add. unfold pow2 at 2. simpl. ring. Qed.

(** [ilog2 x] is the exponent of the binade of [x]. *)
Lemma ilog2_spec x : 0 < x -> pow2 (ilog2 x) <= x /\ x < pow2 (ilog2 x + 1).
Proof.
  intros Hx. destruct x as [p q].
  assert (Hp : (0 < p)%Z).
  { unfold Qlt in Hx. simpl in Hx. lia. }
  unfold ilog2. simpl Qnum. simpl Qden.
  set (a := Z.log2 p). set (b := Z.log2 (Zpos q)).
  pose proof (Z.log2_spec p Hp) as [Ha1 Ha2]. fold a in Ha1, Ha2.
  pose proof (Z.log2_spec (Zpos q) eq_refl) as [Hb1 Hb2]. fold b in Hb1, Hb2.
  pose proof (Z.log2_nonneg p) as Ha0. fold a in Ha0.
  pose proof (Z.log2_nonneg (Zpos q)) as Hb0. fold b in Hb0.
  assert (HA1 : pow2 a <= inject_Z p).
  { rewrite <- pow2_inject by exact Ha0. now rewrite <- Zle_Qle. }
  assert (HA2 : inject_Z p < 2 * pow2 a).
  { rewrite <- pow2_succ, <- pow2_inject by lia. rewrite <- Zlt_Qlt.
    now rewrite <- Z.add_1_r in Ha2. }
  assert (HB1 : pow2 b <= inject_Z (Zpos q)).
  { rewrite <- pow2_inject by exact Hb0. now rewrite <- Zle_Qle. }
  assert (HB2 : inject_Z (Zpos q) < 2 * pow2 b).
  { rewrite <- pow2_succ, <- pow2_inject by lia. rewrite <- Zlt_Qlt.
    now rewrite <- Z.add_1_r in Hb2. }
  assert (Hx' : (p # q) * inject_Z (Zpos q) == inject_Z p).
  { rewrite (Qmake_Qdiv p q). field. discriminate. }
  assert (Hk : pow2 (a - b) * pow2 b == pow2 a).
  { rewrite <- pow2_add. now replace (a - b + b)%Z with a by lia. }
  pose proof (pow2_pos a) as Pa. pose proof (pow2_pos b) as Pb.
  pose proof (pow2_pos (a - b)) as Pk.
  set (x := p # q) in *. set (P := inject_Z p) in *.
  set (D := inject_Z (Zpos q)) in *.
  set (A := pow2 a) in *. set (B := pow2 b) in *. set (K := pow2 (a - b)) in *.
  assert (Hup : x < 2 * K).
  { apply Qnot_le_lt. intros Hc.
    assert (2 * K * D <= x * D) by (apply Qmult_le_compat_r; lra).
    assert (K * B <= K * D) by (apply Qmult_le_l; lra).
    lra. }
  assert (Hlo : K < 2 * x).
  { apply Qnot_le_lt. intros Hc.
    assert (2 * x * D <= K * D) by (apply Qmult_le_compat_r; lra).
    assert (K * D < K * (2 * B)) by (apply Qmult_lt_l; lra).
    lra. }
  destruct (Qle_bool K x) eqn:E.
  - apply Qle_bool_iff in E. split; [exact E|].
    rewrite pow2_succ. exact Hup.
  - assert (Hlt : x < K).
    { apply Qnot_le_lt. intros Hc. apply Qle_bool_iff in Hc. congruence. }
    replace (a - b - 1 + 1)%Z with (a - b)%Z by lia. split; [|exact Hlt].
    assert (Hhalf : 2 * pow2 (a - b - 1) == K).
    { rewrite <- pow2_succ. now replace (a - b - 1 + 1)%Z with (a - b)%Z by lia. }
    lra.
Qed.

(** Rounding to the nearest integer moves a number by at most one half. *)
Lemma round_half_even_near z :
  z - (1 # 2) <= inject_Z (round_half_even z) /\
  inject_Z (round_half_even z) <= z + (1 # 2).
Proof.
  unfold round_half_even.
  pose proof (Qfloor_le z) as Hf. pose proof (Qlt_floor z) as Hc.
  rewrite inject_Z_plus in Hc.
  change (inject_Z 1) with 1 in Hc.
  destruct (Qcompare (z - inject_Z (Qfloor z)) (1 # 2)) eqn:E.
  - apply Qeq_alt in E.
    destruct (Z.even (Qfloor z)); [|rewrite inject_Z_plus; change (inject_Z 1) with 1];
      split; lra.
  - apply Qlt_alt in E. split; lra.
  - apply Qgt_alt in E. rewrite inject_Z_plus. change (inject_Z 1) with 1.
    split; lra.
Qed.

Lemma round_half_even_ge z (k : Z) :
  inject_Z k <= z -> (k <= round_half_even z)%Z.
Proof.
  intros H. apply Qfloor_resp_le in H. rewrite Qfloor_Z in H.
  unfold round_half_even.
  destruct (Qcompare _ _); [destruct (Z.even _)| |]; lia.
Qed.

(** Up to an integer [n] with [n - 1] odd: from [n - 1/2] on. *)
Lemma round_half_even_reaches z (n : Z) :
  Z.even (n - 1) = false ->
  ((n <= round_half_even z)%Z <-> inject_Z n - (1 # 2) <= z).
Proof.
  intros Hodd.
  pose proof (Qfloor_le z) as Hf. pose proof (Qlt_floor z) as Hc.
  rewrite inject_Z_plus in Hc. change (inject_Z 1) with 1 in Hc.
  assert (Hn1 : inject_Z (n - 1) == inject_Z n - 1).
  { unfold Z.sub. rewrite inject_Z_plus. reflexivity. }
  split.
  - intros H. apply Qnot_lt_le. intros Hlt.
    assert (Hfl : (Qfloor z <= n - 1)%Z).
    { apply Z.lt_succ_r. rewrite Zlt_Qlt. unfold Z.succ.
      rewrite inject_Z_plus. change (inject_Z 1) with 1.
      replace (n - 1 + 1)%Z with n by lia. lra. }
    unfold round_half_even in H.
    destruct (Qcompare (z - inject_Z (Qfloor z)) (1 # 2)) eqn:E.
    + apply Qeq_alt in E.
      assert (Hlt' : (Qfloor z < n - 1)%Z).
      { rewrite Zlt_Qlt. lra. }
      destruct (Z.even (Qfloor z)); lia.
    + lia.
    + apply Qgt_alt in E.
      assert (Hlt' : (Qfloor z < n - 1)%Z).
      { rewrite Zlt_Qlt. lra. }
      lia.
  - intros H.
    destruct (Qlt_le_dec z (inject_Z n)) as [Hlt|Hge];
      [|now apply round_half_even_ge].
    assert (Hfl : Qfloor z = (n - 1)%Z).
    { apply Z.le_antisymm.
      - apply Z.lt_succ_r. rewrite Zlt_Qlt. unfold Z.succ.
        rewrite inject_Z_plus. change (inject_Z 1) with 1.
        replace (n - 1 + 1)%Z with n by lia. lra.
      - rewrite <- (Qfloor_Z (n - 1)). apply Qfloor_resp_le. lra. }
    unfold round_half_even. rewrite Hfl, Hodd.
    destruct (Qcompare (z - inject_Z (n - 1)) (1 # 2)) eqn:E.
    + lia.
    + apply Qlt_alt in E. lra.
    + lia.
Qed.

Lemma round_pos_near x :
  0 < x ->
  let ulp := pow2 (Z.max (ilog2 x) (-1022) - 52) in
  x - ulp / 2 <= round_pos x /\ round_pos x <= x + ulp / 2.
Proof.
  intros Hx ulp. unfold round_pos. fold ulp.
  assert (Hu : 0 < ulp) by apply pow2_pos.
  pose proof (round_half_even_near (x / ulp)) as [H1 H2].
  assert (Hz : x / ulp * ulp == x) by (field; lra).
  set (n := inject_Z (round_half_even (x / ulp))) in *.
  assert (H1' : (x / ulp - (1 # 2)) * ulp <= n * ulp)
    by (apply Qmult_le_compat_r; lra).
  assert (H2' : n * ulp <= (x / ulp + (1 # 2)) * ulp)
    by (apply Qmult_le_compat_r; lra).
  split.
  - setoid_replace (x - ulp / 2) with ((x / ulp - (1 # 2)) * ulp); [exact H1'|].
    field. lra.
  - setoid_replace (x + ulp / 2) with ((x / ulp + (1 # 2)) * ulp); [exact H2'|].
    field. lra.
Qed.

Lemma round_pos_nonneg x : 0 < x -> 0 <= round_pos x.
Proof.
  intros Hx. unfold round_pos.
  set (ulp := pow2 _). assert (Hu : 0 < ulp) by apply pow2_pos.
  apply Qmult_le_0_compat; [|lra].
  change 0 with (inject_Z 0). rewrite <- Zle_Qle.
  apply round_half_even_ge. change (inject_Z 0) with 0.
  apply Qle_shift_div_l; lra.
Qed.


(** A double result below 2 is off by at most 2^-53. *)
Lemma round53_near x :
  0 <= x -> x < 2 ->
  x - ulp_of_one <= round53 x /\ round53 x <= x + ulp_of_one.
Proof.
  intros H0 H2. unfold round53.
  destruct (Qcompare x 0) eqn:E.
  - apply Qeq_alt in E. unfold ulp_of_one. split; lra.
  - apply Qlt_alt in E. lra.
  - apply Qgt_alt in E.
    pose proof (round_pos_near x E) as Hn. cbv zeta in Hn.
    destruct (ilog2_spec x E) as [Hlo Hhi].
    assert (He : (ilog2 x < 1)%Z).
    { apply pow2_lt_inv. change (pow2 1) with 2. lra. }
    assert (Hu : pow2 (Z.max (ilog2 x) (-1022) - 52) <= pow2 (-52))
      by (apply pow2_le; lia).
    change (pow2 (-52)) with (1 # 4503599627370496) in Hu.
    set (ulp := pow2 _) in *. unfold ulp_of_one.
    assert (ulp / 2 <= 1 # 9007199254740992).
    { setoid_replace (1 # 9007199254740992) with ((1 # 4503599627370496) / 2) by reflexivity.
      apply Qmult_le_compat_r; [exact Hu | discriminate]. }
    split; lra.
Qed.


(** The comparison of line 56 on a rounded difference: a double is at
    least 1.0 exactly when the number it was rounded from is at least
    1 - 2^-54. *)
Lemma round53_reaches_one x :
  Qle_bool 1 (round53 x) = Qle_bool (1 - half_ulp_of_one) x.
Proof.
  destruct (Qlt_le_dec x (1 # 2)) as [Hsmall|Hhalf].
  - (* below one half: far from 1 on both sides *)
    assert (Hr : round53 x < 1).
    { destruct (Qlt_le_dec x 0) as [Hneg|Hpos].
      - unfold round53. destruct (Qcompare x 0) eqn:E.
        + reflexivity.
        + assert (0 <= round_pos (- x)) by (apply round_pos_nonneg; lra). lra.
        + apply Qgt_alt in E. lra.
      - destruct (round53_near x Hpos) as [_ Hn]; [lra|].
        unfold ulp_of_one in Hn. lra. }
    transitivity false.
    + destruct (Qle_bool 1 (round53 x)) eqn:E; [|reflexivity].
      apply Qle_bool_iff in E. lra.
    + symmetry. destruct (Qle_bool (1 - half_ulp_of_one) x) eqn:E; [|reflexivity].
      apply Qle_bool_iff in E. unfold half_ulp_of_one in E. lra.
  - assert (Hx : 0 < x) by lra.
    unfold round53. destruct (Qcompare x 0) eqn:E;
      [apply Qeq_alt in E; lra | apply Qlt_alt in E; lra | clear E].
    destruct (ilog2_spec x Hx) as [Hlo Hhi].
    destruct (Qlt_le_dec x 1) as [Hlt|Hge].
    + (* the binade below 1: the spacing is 2^-53 *)
      assert (He : ilog2 x = (-1)%Z).
      { assert ((ilog2 x < 0)%Z) by (apply pow2_lt_inv; change (pow2 0) with 1; lra).
        assert ((-1 < ilog2 x + 1)%Z)
          by (apply pow2_lt_inv; change (pow2 (-1)) with (1 # 2); lra).
        lia. }
      unfold round_pos. rewrite He.
      change (pow2 (Z.max (-1) (-1022) - 52)) with (1 # 9007199254740992).
      set (z := x / (1 # 9007199254740992)).
      assert (Hz : z == x * 9007199254740992) by (unfold z; field).
      pose proof (round_half_even_reaches z 9007199254740992 eq_refl) as Hiff.
      apply eq_true_iff_eq. rewrite !Qle_bool_iff. split.
      * intros H.
        assert (Hn : (9007199254740992 <= round_half_even z)%Z).
        { rewrite Zle_Qle.
          assert (9007199254740992 * (1 # 9007199254740992) == 1) by reflexivity.
          apply Qnot_lt_le. intros Hc.
          assert (inject_Z (round_half_even z) * (1 # 9007199254740992)
                  < 9007199254740992 * (1 # 9007199254740992))
            by (apply Qmult_lt_compat_r; [reflexivity | exact Hc]).
          lra. }
        apply Hiff in Hn. rewrite Hz in Hn. unfold half_ulp_of_one.
        assert (Hs : (9007199254740992 - (1 # 2)) * (1 # 9007199254740992)
                     <= x * 9007199254740992 * (1 # 9007199254740992))
          by (apply Qmult_le_compat_r; [exact Hn | discriminate]).
        assert (E1 : (9007199254740992 - (1 # 2)) * (1 # 9007199254740992) == 1 - (1 # 18014398509481984))
          by reflexivity.
        assert (E2 : x * 9007199254740992 * (1 # 9007199254740992) == x) by (field).
        lra.
      * intros H. unfold half_ulp_of_one in H.
        assert (Hn : 9007199254740992 - (1 # 2) <= z).
        { rewrite Hz.
          assert (Hs : (1 - (1 # 18014398509481984)) * 9007199254740992
                       <= x * 9007199254740992)
            by (apply Qmult_le_compat_r; [exact H | discriminate]).
          assert (E1 : (1 - (1 # 18014398509481984)) * 9007199254740992
                       == 9007199254740992 - (1 # 2)) by reflexivity.
          lra. }
        apply Hiff in Hn. rewrite Zle_Qle in Hn.
        assert (Hs : 9007199254740992 * (1 # 9007199254740992)
                     <= inject_Z (round_half_even z) * (1 # 9007199254740992))
          by (apply Qmult_le_compat_r; [exact Hn | discriminate]).
        assert (E1 : 9007199254740992 * (1 # 9007199254740992) == 1) by reflexivity.
        lra.
    + (* from 1 on: the result stays in the binade *)
      assert (He : (0 <= ilog2 x)%Z).
      { assert ((0 < ilog2 x + 1)%Z)
          by (apply pow2_lt_inv; change (pow2 0) with 1; lra).
        lia. }
      transitivity true.
      * apply Qle_bool_iff. unfold round_pos.
        rewrite Z.max_l by lia.
        set (e := ilog2 x) in *. set (ulp := pow2 (e - 52)).
        assert (Hu : 0 < ulp) by apply pow2_pos.
        assert (Hsplit : pow2 e == 4503599627370496 * ulp).
        { unfold ulp. change 4503599627370496 with (pow2 52). rewrite <- pow2_add.
          now replace (52 + (e - 52))%Z with e by lia. }
        assert (Hn : (4503599627370496 <= round_half_even (x / ulp))%Z).
        { apply round_half_even_ge. apply Qle_shift_div_l; [exact Hu|].
          rewrite <- Hsplit. exact Hlo. }
        rewrite Zle_Qle in Hn.
        change (inject_Z 4503599627370496) with 4503599627370496 in Hn.
        assert (Hs : 4503599627370496 * ulp
                     <= inject_Z (round_half_even (x / ulp)) * ulp)
          by (apply Qmult_le_compat_r; lra).
        assert (H1 : 1 <= pow2 e)
          by (change 1 with (pow2 0); apply pow2_le; lia).
        lra.
      * symmetry. apply Qle_bool_iff. unfold half_ulp_of_one. lra.
Qed.


(** ** The rate bound *)

Lemma evict_head now ts t0 rest :
  evict now ts = t0 :: rest -> now - t0 < WINDOW.
Proof.
  induction ts as [|t ts IH]; simpl; [discriminate|].
  destruct (Qle_bool WINDOW (now - t)) eqn:E; [exact IH|].
  intros H. inv H. apply Qnot_le_lt. intros Hle.
  apply Qle_bool_iff in Hle. congruence.
Qed.


Lemma Forall_past (clk clk' : Q) ts :
  clk <= clk' -> Forall (fun t => t <= clk) ts -> Forall (fun t => t <= clk') ts.
Proof.
  intros Hle H. eapply Forall_impl; [|exact H]. simpl. intros t Ht. lra.
Qed.



(** What holds for a window of any length. *)
Section Window.

Variable len : Q.
Hypothesis Hlen : 0 <= len.










End Window.

(** The limiter with rounded arithmetic.  Two things are asked of the
    rounding: the comparison of line 56 turns at an age of [len], and the
    sleep of line 60 brings a stamp that was short of the window up to it. *)
Section MachineProofs.

Variable fl : Q -> Q.
Variable len : Q.
Hypothesis Hturn : forall x, Qle_bool WINDOW (fl x) = Qle_bool len x.
Hypothesis Hpause :
  forall x, 0 <= x -> Qle_bool WINDOW (fl x) = false ->
            WINDOW <= x + fl (fl (WINDOW - fl x) + fl (1 # 1000)).
Hypothesis Hlen : 0 <= len.
Hypothesis HlenW : len <= WINDOW.






(** On a deque in the order of time the eviction, which looks at the
    oldest stamp only, leaves exactly the stamps younger than [len]. *)
Lemma evict_fl_filter now ts :
  time_ordered ts -> evict_fl fl now ts = filter (younger_than len now) ts.
Proof.
  induction ts as [|t ts IH]; intros Hord; [reflexivity|].
  destruct Hord as [Ht Hord]. simpl. unfold younger_than at 1.
  rewrite Hturn.
  destruct (Qle_bool len (now - t)) eqn:E; simpl.
  - now apply IH.
  - f_equal. symmetry. apply forallb_filter_id. apply forallb_forall.
    intros u Hu. rewrite Forall_forall in Ht. specialize (Ht u Hu).
    unfold younger_than. apply negb_true_iff.
    destruct (Qle_bool len (now - u)) eqn:E'; [|reflexivity].
    apply Qle_bool_iff in E'.
    assert (Hle : len <= now - t) by lra.
    apply Qle_bool_iff in Hle. congruence.
Qed.



Variable w : World.
Hypothesis Hmono : monotonic_clock w.










End MachineProofs.

(** ** The rate bound of the script as Python runs it *)

Lemma double_turns x :
  Qle_bool WINDOW (round53 x) = Qle_bool (WINDOW - half_ulp_of_one) x.
Proof. apply round53_reaches_one. Qed.

(** Where nothing is rounded the two embeddings of the limiter are the
    same program. *)
Lemma harvest_exact w cfg st : harvest_fl (fun x => x) w cfg st = harvest w cfg st.
Proof. reflexivity. Qed.




(** * Further properties of the script *)

(** ** The limiter on its own *)

(** X1.  When the deque holds fewer than MAX_RPS stamps, the call is
    admitted without any sleep, whatever the clock does: the trace grows by
    the HTTP call alone, and the answer is the next one of the network. *)
Theorem no_wait_under_the_cap w q m :
  (List.length (recent_ts m) < MAX_RPS)%nat ->
  exists g r m1,
    rate_limited_get w q m = Some (net w (gets m) q, m1) /\
    events m1 = EvGet g r q (net w (gets m) q) :: events m /\
    gets m1 = S (gets m).
Proof.
  intros Hlen. unfold rate_limited_get. rewrite acquire_S. cbv zeta.
  change (recent_ts (elapse w 0 m)) with (recent_ts m).
  pose proof (evict_length (clock (elapse w 0 m)) (recent_ts m)) as Hl.
  destruct (Nat.ltb_spec (List.length (evict (clock (elapse w 0 m)) (recent_ts m)))
                         MAX_RPS) as [_|Hge]; [|lia].
  unfold session_get. cbv zeta. simpl gets.
  destruct (net w (gets m) q) as [|status body];
    eexists _, _, _; (split; [reflexivity|]); split; reflexivity.
Qed.

Lemma no_wait_under_the_cap_witness :
  (List.length (recent_ts init_io) < MAX_RPS)%nat /\
  exists g r m1,
    rate_limited_get w_endless (initial_query "*") init_io
      = Some (net w_endless (gets init_io) (initial_query "*"), m1) /\
    events m1 =
      EvGet g r (initial_query "*")
            (net w_endless (gets init_io) (initial_query "*")) :: events init_io /\
    gets m1 = S (gets init_io).
Proof.
  assert (H : (List.length (recent_ts init_io) < MAX_RPS)%nat)
    by (unfold MAX_RPS; simpl; lia).
  split; [exact H|].
  exact (no_wait_under_the_cap w_endless (initial_query "*") init_io H).
Defined.

(** The deque after the limiter's loop is what is left of the deque before
    it once the oldest stamps were popped. *)
Lemma acquire_suffix w : forall fuel m now m1,
  acquire w fuel m = Some (now, m1) ->
  now = clock m1 /\ exists dropped, recent_ts m = dropped ++ recent_ts m1.
Proof.
  induction fuel as [|fuel IH]; intros m now m1 H; [discriminate|].
  rewrite acquire_S in H. cbv zeta in H.
  change (recent_ts (elapse w 0 m)) with (recent_ts m) in H.
  destruct (evict_split (clock (elapse w 0 m)) (recent_ts m)) as [dr [Hsp _]].
  destruct (_ <? MAX_RPS)%nat.
  - inv H. split; [reflexivity|]. exists dr. exact Hsp.
  - destruct (evict (clock (elapse w 0 m)) (recent_ts m)) as [|t0 ts] eqn:Ev;
      [discriminate|].
    apply IH in H. destruct H as [Hn [dr' Hd]]. split; [exact Hn|].
    simpl in Hd. exists (dr ++ dr'). now rewrite Hsp, Hd, app_assoc.
Qed.

(** X2.  A call is stamped only when [session.get] returned a response:
    then the deque is what was left after the eviction, followed by one
    new stamp, the clock reading after the call.  When [session.get]
    raised, nothing is appended: the failed call takes no place in the
    window. *)
Theorem stamp_only_on_response w q m res m1 :
  rate_limited_get w q m = Some (res, m1) ->
  exists dropped kept,
    recent_ts m = dropped ++ kept /\
    match res with
    | Response _ _ => recent_ts m1 = kept ++ [clock m1]
    | RequestException => recent_ts m1 = kept
    end.
Proof.
  unfold rate_limited_get. intros H.
  destruct (acquire w _ m) as [[now m0]|] eqn:Ha; [|discriminate].
  apply acquire_suffix in Ha. destruct Ha as [_ [dropped Hd]].
  unfold session_get in H. cbv zeta in H.
  exists dropped, (recent_ts m0). split; [exact Hd|].
  destruct (net w (gets m0) q); inv H; reflexivity.
Qed.

Lemma stamp_only_on_response_witness :
  rate_limited_get (w_down_after 0) (initial_query "*") busy_io
    = Some (RequestException, after_busy_failure) /\
  exists dropped kept,
    recent_ts busy_io = dropped ++ kept /\
    recent_ts after_busy_failure = kept.
Proof.
  assert (H : rate_limited_get (w_down_after 0) (initial_query "*") busy_io
              = Some (RequestException, after_busy_failure))
    by (vm_compute; reflexivity).
  split; [exact H|].
  exact (stamp_only_on_response (w_down_after 0) (initial_query "*") busy_io
           RequestException after_busy_failure H).
Defined.

Lemma evict_past now clk ts :
  Forall (fun t => t <= clk) ts -> Forall (fun t => t <= clk) (evict now ts).
Proof.
  intros H. destruct (evict_split now ts) as [dr [Hsp _]].
  rewrite Hsp in H. now apply Forall_app in H.
Qed.

Section LimiterAlone.

Variable w : World.
Hypothesis Hmono : monotonic_clock w.

(** With at most MAX_RPS stamps in the deque the limiter's loop sleeps at
    most once: the pass after the sleep pops the oldest stamp. *)
Lemma acquire_at_most_once m now m1 :
  deque_ok m ->
  acquire w (S (List.length (recent_ts m))) m = Some (now, m1) ->
  now = clock m1 /\ clock m <= clock m1 /\ gets m1 = gets m /\
  (List.length (recent_ts m1) < MAX_RPS)%nat /\
  Forall (fun t => t <= clock m1) (recent_ts m1) /\
  (events m1 = events m \/
   exists d, events m1 = EvSleep Limiter d :: events m /\
             (1 # 1000) < d /\ d <= WINDOW + (1 # 1000)).
Proof.
  intros [Hlen Hpast] H.
  remember (List.length (recent_ts m)) as f eqn:Hf.
  rewrite acquire_S in H. cbv zeta in H.
  change (recent_ts (elapse w 0 m)) with (recent_ts m) in H.
  pose proof (Hmono (ticks m)) as Ht0.
  pose proof (Hmono (S (ticks m))) as Ht1.
  pose proof (Hmono (S (S (ticks m)))) as Ht2.
  pose proof (evict_length (clock (elapse w 0 m)) (recent_ts m)) as Hl.
  pose proof (evict_past (clock (elapse w 0 m)) _ _ Hpast) as Hp.
  destruct (Nat.ltb_spec (List.length (evict (clock (elapse w 0 m)) (recent_ts m)))
                         MAX_RPS) as [Hlt|Hge].
  - inv H. simpl. conj; auto; try lra.
    eapply Forall_past; [|exact Hp]. lra.
  - destruct (evict (clock (elapse w 0 m)) (recent_ts m)) as [|t0 ts] eqn:Ev;
      [discriminate|].
    pose proof (evict_head _ _ _ _ Ev) as Hhead.
    pose proof (Forall_inv Hp) as H2. pose proof (Forall_inv_tail Hp) as H3.
    simpl in Hhead, H2.
    destruct f as [|f]; [simpl in *; unfold MAX_RPS in *; lia|].
    rewrite acquire_S in H. cbv zeta in H.
    match type of H with
    | context [evict ?n (recent_ts ?x)] =>
        change (recent_ts x) with (t0 :: ts) in H;
        assert (Hexp : t0 + WINDOW <= n) by (simpl; unfold WINDOW; lra)
    end.
    rewrite evict_head_expired in H by exact Hexp.
    match type of H with
    | context [evict ?n ts] =>
        pose proof (evict_length n ts) as Hl2;
        pose proof (evict_past n _ _ H3) as Hp2
    end.
    match type of H with
    | context [if ?c then _ else _] =>
        destruct c eqn:Hc; [|apply Nat.ltb_ge in Hc; simpl in *; unfold MAX_RPS in *; lia]
    end.
    apply Nat.ltb_lt in Hc.
    inv H. simpl. simpl in Hc. conj; auto; try lra.
    + eapply Forall_past; [|exact Hp2]. unfold WINDOW in *. lra.
    + right. eexists. split; [reflexivity|]. unfold WINDOW in *. split; lra.
Qed.

End LimiterAlone.

(** X3.  Between two calls the deque holds at most MAX_RPS stamps, none of
    them in the future.  From such a state, and with a clock that does not
    run backwards, [rate_limited_get] returns the network's next answer
    after at most one sleep; the sleep, when there is one, lasts more than
    a millisecond and at most WINDOW plus a millisecond, so [time.sleep] is
    never given a negative number; and the state of the deque afterwards
    is again of this kind. *)
Theorem limiter_waits_at_most_once w q m :
  monotonic_clock w ->
  deque_ok m ->
  exists g r m1,
    rate_limited_get w q m = Some (net w (gets m) q, m1) /\
    deque_ok m1 /\
    clock m <= g /\ g <= r /\ r <= clock m1 /\
    (events m1 = EvGet g r q (net w (gets m) q) :: events m \/
     exists d,
       events m1 = EvGet g r q (net w (gets m) q) :: EvSleep Limiter d :: events m /\
       (1 # 1000) < d /\ d <= WINDOW + (1 # 1000)).
Proof.
  intros Hmono Hok. unfold rate_limited_get.
  destruct (acquire_total w Hmono m) as [now [m0 Ha]]. rewrite Ha.
  destruct (acquire_at_most_once w Hmono m now m0 Hok Ha)
    as [-> [Hclk [Hg [Hlen [Hpast Hev]]]]].
  unfold session_get. cbv zeta. rewrite Hg.
  pose proof (Hmono (ticks m0)) as Ht0.
  pose proof (Hmono (S (ticks m0))) as Ht1.
  destruct (net w (gets m) q) as [|status body].
  - exists (clock m0), (clock m0 + 0 + tick w (ticks m0)). eexists.
    split; [reflexivity|]. simpl. conj; try lra.
    + unfold deque_ok. simpl. split; [lia|].
      eapply Forall_past; [|exact Hpast]. lra.
    + destruct Hev as [->|[d [-> Hd]]]; [now left|].
      right. exists d. split; [reflexivity | exact Hd].
  - exists (clock m0), (clock m0 + 0 + tick w (ticks m0)). eexists.
    split; [reflexivity|]. simpl. conj; try lra.
    + unfold deque_ok. simpl. split.
      * rewrite length_app. simpl. lia.
      * apply Forall_app. split.
        -- eapply Forall_past; [|exact Hpast]. lra.
        -- repeat constructor. lra.
    + destruct Hev as [->|[d [-> Hd]]]; [now left|].
      right. exists d. split; [reflexivity | exact Hd].
Qed.

Lemma limiter_waits_at_most_once_witness :
  monotonic_clock w_endless /\
  deque_ok busy_io /\
  exists g r m1,
    rate_limited_get w_endless (initial_query "*") busy_io
      = Some (net w_endless (gets busy_io) (initial_query "*"), m1) /\
    deque_ok m1 /\
    clock busy_io <= g /\ g <= r /\ r <= clock m1 /\
    (events m1 =
       EvGet g r (initial_query "*")
             (net w_endless (gets busy_io) (initial_query "*")) :: events busy_io \/
     exists d,
       events m1 =
         EvGet g r (initial_query "*")
               (net w_endless (gets busy_io) (initial_query "*"))
         :: EvSleep Limiter d :: events busy_io /\
       (1 # 1000) < d /\ d <= WINDOW + (1 # 1000)).
Proof.
  assert (Hm : monotonic_clock w_endless) by (intros n; simpl; discriminate).
  assert (Hd : deque_ok busy_io).
  { split; [unfold MAX_RPS; simpl; lia|].
    repeat constructor; simpl; discriminate. }
  split; [exact Hm|]. split; [exact Hd|].
  exact (limiter_waits_at_most_once w_endless (initial_query "*") busy_io Hm Hd).
Defined.

(** ** The loops come to an end *)

(** X4.  With a clock that does not run backwards every run of the script
    comes to an end, whatever the provider answers and whatever the state
    file holds: neither the [while True] of the limiter nor the one of the
    main loop goes on for ever. *)
Theorem every_run_ends w cfg st :
  monotonic_clock w -> exists r, harvest w cfg st = Some r.
Proof. intros Hmono. exact (harvest_total w Hmono cfg st). Qed.

Lemma every_run_ends_witness :
  monotonic_clock (w_down_after 4) /\
  exists r, harvest (w_down_after 4) four_by_two (Some resumed) = Some r.
Proof.
  assert (Hm : monotonic_clock (w_down_after 4)) by (intros n; simpl; discriminate).
  split; [exact Hm|].
  exact (every_run_ends (w_down_after 4) four_by_two (Some resumed) Hm).
Defined.

Lemma length_pick_final_request {A} (f : Query * HttpResult -> option A) q res :
  (List.length (pick f (final_request q res)) <= 1)%nat.
Proof.
  destruct res as [[status body]|]; simpl; [|lia].
  destruct (f _); simpl; lia.
Qed.

(** X5.  The quota bounds the run.  A run counts at most MAX_REQS_PER_RUN
    pages, or one page when the quota is 0, because the quota is looked at
    only after a page was counted; it makes at most five calls for each of
    them; and when it stops on the quota it has counted exactly that many. *)
Theorem quota_bounds_the_run w cfg st r :
  harvest w cfg st = Some r ->
  (requests_done (final r) <= Nat.max 1 (MAX_REQS_PER_RUN cfg))%nat /\
  List.length (pages (trace r)) = requests_done (final r) /\
  (List.length (requests (trace r)) <= 5 * Nat.max 1 (MAX_REQS_PER_RUN cfg))%nat /\
  (stop r = QuotaHit ->
   requests_done (final r) = Nat.max 1 (MAX_REQS_PER_RUN cfg)).
Proof.
  intros H. pose proof (run_counted _ _ _ _ H) as Hcount.
  apply (harvest_last w cfg st r
           (fun v m =>
              (requests_done v = 0 \/ requests_done v < MAX_REQS_PER_RUN cfg)%nat /\
              (List.length (requests (otrace m)) <= 5 * requests_done v)%nat)) in H.
  - destruct H as [v1 [m1 [k [res [nf [v2 [[Hrd Hcalls] [_ [HP [_ [Hres [_ [_ [Hr HE]]]]]]]]]]]]]].
    pose proof (pass_pages HP) as Hpg.
    pose proof (length_pick_final_request counted_page (query v1) res) as Hone.
    pose proof (length_fetch_requests (query v1) k res Hres) as Hfive.
    assert (Hfin : requests_done (final r) = requests_done v2).
    { destruct (crashed (stop r)).
      - now destruct HE as [_ [_ ->]].
      - now destruct HE as [date [_ [_ [_ [Hd _]]]]]. }
    conj.
    + lia.
    + now symmetry.
    + rewrite Hr, length_app. lia.
    + intros Hq. rewrite Hq in HP. apply pass_break in HP.
      destruct HP as [body [tok [_ [_ [_ [Hs Hge]]]]]]. lia.
  - simpl. split; [now left | lia].
  - intros v m v' m' [Hrd Hcalls] Hi. apply iteration_pass in Hi.
    destruct Hi as [tr [k [res [Ht [Hr [_ [Hres [_ [_ HP]]]]]]]]].
    apply pass_continue in HP. destruct HP as [Hs Hlt].
    pose proof (length_fetch_requests (query v) k res Hres) as Hfive.
    split; [right; lia|].
    rewrite Ht, requests_app, length_app, Hr. lia.
Qed.

Lemma quota_bounds_the_run_witness :
  exists r,
    harvest w_endless small_config None = Some r /\
    (requests_done (final r) <= Nat.max 1 (MAX_REQS_PER_RUN small_config))%nat /\
    List.length (pages (trace r)) = requests_done (final r) /\
    (List.length (requests (trace r)) <= 5 * Nat.max 1 (MAX_REQS_PER_RUN small_config))%nat /\
    (stop r = QuotaHit ->
     requests_done (final r) = Nat.max 1 (MAX_REQS_PER_RUN small_config)).
Proof.
  eexists. split; [vm_compute; reflexivity|].
  apply (quota_bounds_the_run w_endless small_config None).
  vm_compute; reflexivity.
Defined.

(** ** The cursor from call to call *)

Lemma resume_cursor_quiet c0 reqs more :
  pick advance more = [] -> resume_cursor c0 (reqs ++ more) = resume_cursor c0 reqs.
Proof.
  intros H. unfold resume_cursor. now rewrite pick_app, H, app_nil_r.
Qed.

(** Within the calls of one fetch, whatever precedes a call is a failure. *)
Lemma fetch_requests_split q k res pre x post :
  fetch_requests q k res = pre ++ x :: post ->
  fst x = q /\ pick advance pre = [].
Proof.
  intros H. split.
  - pose proof (fst_fetch_requests q k res) as Hall. rewrite H in Hall.
    apply Forall_app in Hall. destruct Hall as [_ Hall]. now inv Hall.
  - unfold fetch_requests in H. symmetry in H. apply app_eq_app in H.
    assert (Hrep : forall l l', repeat (q, RequestException) k = l ++ l' ->
                     pick advance l = []).
    { intros l l' E. apply pick_none. apply Forall_forall. intros y Hy.
      assert (Hin : In y (repeat (q, RequestException) k))
        by (rewrite E; apply in_or_app; now left).
      apply repeat_spec in Hin. now subst y. }
    destruct H as [l [[E1 E2]|[E1 E2]]].
    + destruct l as [|y l].
      * rewrite app_nil_r in E1. subst pre. now apply pick_repeat_none.
      * destruct res as [[status body]|]; simpl in E2.
        -- injection E2 as _ E2. destruct l; discriminate.
        -- discriminate.
    + eapply Hrep. exact E1.
Qed.

Lemma chain_step c0 reqs q k res :
  q = initial_query (resume_cursor c0 reqs) ->
  (forall pre x post,
      reqs = pre ++ x :: post -> fst x = initial_query (resume_cursor c0 pre)) ->
  forall pre x post,
    reqs ++ fetch_requests q k res = pre ++ x :: post ->
    fst x = initial_query (resume_cursor c0 pre).
Proof.
  intros Hq Hchain pre x post H. apply app_eq_app in H.
  destruct H as [l [[E1 E2]|[E1 E2]]].
  - destruct l as [|y l].
    + rewrite app_nil_r in E1. subst pre. simpl in E2.
      symmetry in E2. apply (fetch_requests_split q k res []) in E2.
      destruct E2 as [-> _]. exact Hq.
    + injection E2 as -> E2. eapply Hchain. exact E1.
  - subst pre. apply fetch_requests_split in E2. destruct E2 as [-> Hquiet].
    now rewrite resume_cursor_quiet.
Qed.

Lemma pass_resume_cursor {cfg v res nf flow v'} c0 reqs k :
  Pass cfg v res nf flow v' ->
  q_cursor (query v) = resume_cursor c0 reqs ->
  q_cursor (query v') = resume_cursor c0 (reqs ++ fetch_requests (query v) k res).
Proof.
  intros HP Hcur.
  assert (HRA : advance (query v, RequestException) = None) by reflexivity.
  unfold resume_cursor in *. rewrite pick_app, (pick_fetch_requests _ _ _ _ HRA).
  rewrite (pass_cursor HP), Hcur.
  destruct (pick advance (final_request (query v) res)) as [|t l] eqn:E.
  - now rewrite app_nil_r.
  - symmetry. apply last_app_cons.
Qed.

(** Only the cursor of the query is ever changed. *)
Lemma pass_query_shape {cfg v res nf flow v'} :
  Pass cfg v res nf flow v' ->
  query v = initial_query (q_cursor (query v)) ->
  query v' = initial_query (q_cursor (query v')).
Proof.
  intros HP Hq. destruct HP; simpl; auto; rewrite Hq; reflexivity.
Qed.

Lemma run_cursors_linked w cfg st r pre x post :
  harvest w cfg st = Some r ->
  requests (trace r) = pre ++ x :: post ->
  fst x = initial_query (resume_cursor (ck_cursor (load_state st)) pre).
Proof.
  intros H Hsplit.
  set (c0 := ck_cursor (load_state st)).
  apply (harvest_last w cfg st r
           (fun v m =>
              query v = initial_query (q_cursor (query v)) /\
              q_cursor (query v) = resume_cursor c0 (requests (otrace m)) /\
              forall pre x post,
                requests (otrace m) = pre ++ x :: post ->
                fst x = initial_query (resume_cursor c0 pre))) in H.
  - destruct H as [v1 [m1 [k [res [nf [v2 [[Hq [Hcur Hchain]] [_ [_ [_ [_ [_ [_ [Hr _]]]]]]]]]]]]]].
    rewrite Hr in Hsplit.
    eapply chain_step; [|exact Hchain|exact Hsplit].
    rewrite Hq. now rewrite Hcur.
  - simpl. conj; auto. intros pre' x' post' E. destruct pre'; discriminate.
  - intros v m v' m' [Hq [Hcur Hchain]] Hi. apply iteration_pass in Hi.
    destruct Hi as [tr [k [res [Ht [Hr [_ [_ [_ [_ HP]]]]]]]]].
    rewrite Ht, requests_app, Hr. conj.
    + exact (pass_query_shape HP Hq).
    + exact (pass_resume_cursor c0 _ k HP Hcur).
    + apply chain_step; [|exact Hchain]. rewrite Hq. now rewrite Hcur.
Qed.

(** X6.  Every HTTP call of a run is issued with the query skeleton of
    lines 67-74 and nothing changed in it but the cursor, and the cursor of
    a call is the "@next" token of the last response before it that carried
    entries and a token, or the loaded cursor when there was none: no page
    is skipped, and after a failure the same page is asked for again. *)
Theorem cursor_chain w cfg st r pre x post :
  harvest w cfg st = Some r ->
  requests (trace r) = pre ++ x :: post ->
  fst x = initial_query (resume_cursor (ck_cursor (load_state st)) pre).
Proof. apply run_cursors_linked. Qed.

Lemma cursor_chain_witness :
  exists r,
    harvest w_endless small_config (Some resumed) = Some r /\
    requests (trace r) =
      [(initial_query "AoE9", Response 200 (page [doc "A"] (Some "A")));
       (initial_query "A", Response 200 (page [doc "B"] (Some "B")))]
      ++ (initial_query "B", Response 200 (page [doc "C"] (Some "C"))) :: [] /\
    initial_query "B" =
      initial_query
        (resume_cursor "AoE9"
           [(initial_query "AoE9", Response 200 (page [doc "A"] (Some "A")));
            (initial_query "A", Response 200 (page [doc "B"] (Some "B")))]).
Proof.
  eexists. split; [vm_compute; reflexivity|].
  split; [vm_compute; reflexivity|].
  eapply (cursor_chain w_endless small_config (Some resumed) _
            [(initial_query "AoE9", Response 200 (page [doc "A"] (Some "A")));
             (initial_query "A", Response 200 (page [doc "B"] (Some "B")))]
            (initial_query "B", Response 200 (page [doc "C"] (Some "C"))) []);
    vm_compute; reflexivity.
Defined.

(** ** The order of the writes *)

(** X7.  In a run that reaches the lines after the loop the state file is
    written once, as the last thing but the closing console line: every
    HTTP call and every chunk file of the run comes before it, so the
    saved checkpoint never points past records that are not yet on disk.
    The closing line reports the number of pages counted. *)
Theorem checkpoint_is_written_last w cfg st r :
  harvest w cfg st = Some r ->
  crashed (stop r) = false ->
  exists body elapsed,
    trace r = body ++ [EvWriteState (checkpoint_of (final r));
                       EvPrint (MsgDone (List.length (pages (trace r))) elapsed)] /\
    state_writes body = [] /\
    chunk_files body = chunk_files (trace r) /\
    requests body = requests (trace r).
Proof.
  intros H Hcr.
  destruct (run_checkpoint _ _ _ _ H Hcr) as [Hst _].
  pose proof (run_counted _ _ _ _ H) as Hcount.
  unfold harvest in H.
  destruct (perf_counter w init_io) as [t_start m0].
  destruct (main_loop _ _ _ _ _) as [[[s v2] m2]|]; [|discriminate].
  destruct (crashed s) eqn:Hc.
  - inv H. simpl in Hcr. congruence.
  - unfold epilogue in H. destruct (flush_leftovers w v2 m2) as [v3 m3].
    injection H as <-. cbn [trace final stop] in *.
    rewrite <- Hcount. fold (otrace m3) in *. fold (checkpoint_of v3) in *.
    exists (otrace m3), (clock m3 + 0 + tick w (ticks m3) - t_start).
    conj.
    + now rewrite <- app_assoc.
    + rewrite !state_writes_app in Hst. simpl in Hst. rewrite app_nil_r in Hst.
      apply (app_inv_tail [checkpoint_of v3] _ []). exact Hst.
    + rewrite !chunk_files_app. simpl. now rewrite !app_nil_r.
    + rewrite !requests_app. simpl. now rewrite !app_nil_r.
Qed.

Lemma checkpoint_is_written_last_witness :
  exists r,
    harvest w_endless small_config None = Some r /\
    crashed (stop r) = false /\
    exists body elapsed,
      trace r = body ++ [EvWriteState (checkpoint_of (final r));
                         EvPrint (MsgDone (List.length (pages (trace r))) elapsed)] /\
      state_writes body = [] /\
      chunk_files body = chunk_files (trace r) /\
      requests body = requests (trace r).
Proof.
  eexists. split; [vm_compute; reflexivity|]. split; [reflexivity|].
  apply (checkpoint_is_written_last w_endless small_config None);
    vm_compute; reflexivity.
Defined.

(** ** One run after another *)

(** A run that died in the loop has not touched the state file. *)
Lemma crashed_no_checkpoint w cfg st r :
  harvest w cfg st = Some r ->
  crashed (stop r) = true ->
  state_writes (trace r) = [].
Proof.
  intros H Hcr. apply harvest_spec in H.
  destruct H as [v1 [reqs1 [files1 [k [res [nf [v2 [_ [_ [_ [_ [_ [_ [_ HE]]]]]]]]]]]]]].
  rewrite Hcr in HE. now destruct HE as [_ [HE _]].
Qed.

(** X8.  Two runs in a row, the second started from the state file the
    first one wrote.  The second run's first call asks for the page the
    first run's calls had led to; the chunk counters of the two runs
    together continue the counter the first run loaded without a gap and
    without a repetition, so no file of the first run is written over by
    the second; and when the second run reaches the lines after the loop
    as well, the files of the two runs hold exactly the records the two
    runs fetched, in order. *)
Theorem two_runs_compose w1 w2 cfg st r1 c r2 :
  harvest w1 cfg st = Some r1 ->
  state_writes (trace r1) = [c] ->
  harvest w2 cfg (Some c) = Some r2 ->
  (forall x rest,
      requests (trace r2) = x :: rest ->
      fst x = initial_query
                (resume_cursor (ck_cursor (load_state st)) (requests (trace r1)))) /\
  map cf_counter (chunk_files (trace r1) ++ chunk_files (trace r2)) =
    map (fun i => (ck_chunk_counter (load_state st) + Z.of_nat i)%Z)
        (seq 1 (List.length (chunk_files (trace r1) ++ chunk_files (trace r2)))) /\
  NoDup (map file_name (chunk_files (trace r1) ++ chunk_files (trace r2))) /\
  (crashed (stop r2) = false ->
   concat (map cf_docs (chunk_files (trace r1) ++ chunk_files (trace r2))) =
   concat (successful_pages (trace r1) ++ successful_pages (trace r2))).
Proof.
  intros H1 Hc H2.
  assert (Hcr1 : crashed (stop r1) = false).
  { destruct (crashed (stop r1)) eqn:E; [|reflexivity].
    rewrite (crashed_no_checkpoint _ _ _ _ H1 E) in Hc. discriminate. }
  destruct (run_checkpoint _ _ _ _ H1 Hcr1) as [Hst [Hcnt Hcur]].
  rewrite Hc in Hst. injection Hst as ->.
  assert (Hcounters :
    map cf_counter (chunk_files (trace r1) ++ chunk_files (trace r2)) =
    map (fun i => (ck_chunk_counter (load_state st) + Z.of_nat i)%Z)
        (seq 1 (List.length (chunk_files (trace r1) ++ chunk_files (trace r2))))).
  { rewrite map_app, length_app, seq_app, map_app.
    rewrite (run_counters _ _ _ _ H1), (run_counters _ _ _ _ H2). f_equal.
    simpl load_state. simpl ck_chunk_counter. rewrite Hcnt.
    rewrite counter_names_shift. now rewrite Nat.add_comm. }
  conj.
  - intros x rest Hx.
    rewrite (run_cursors_linked _ _ _ _ [] x rest H2 Hx). simpl. now rewrite Hcur.
  - exact Hcounters.
  - apply NoDup_map_through with (f := cf_counter).
    + intros x y. apply chunk_name_inj.
    + rewrite Hcounters. apply Injective_map_NoDup; [|apply seq_NoDup].
      intros i j Hij. lia.
  - intros Hcr2. rewrite map_app, !concat_app.
    now rewrite (run_docs _ _ _ _ H1 Hcr1), (run_docs _ _ _ _ H2 Hcr2).
Qed.

Lemma two_runs_compose_witness :
  exists r1 r2,
    harvest w_endless small_config None = Some r1 /\
    state_writes (trace r1) = [{| ck_cursor := "C"; ck_chunk_counter := 2 |}] /\
    harvest (w_down_after 1) small_config
            (Some {| ck_cursor := "C"; ck_chunk_counter := 2 |}) = Some r2 /\
    (forall x rest,
        requests (trace r2) = x :: rest ->
        fst x = initial_query
                  (resume_cursor (ck_cursor (load_state None)) (requests (trace r1)))) /\
    map cf_counter (chunk_files (trace r1) ++ chunk_files (trace r2)) =
      map (fun i => (ck_chunk_counter (load_state None) + Z.of_nat i)%Z)
          (seq 1 (List.length (chunk_files (trace r1) ++ chunk_files (trace r2)))) /\
    NoDup (map file_name (chunk_files (trace r1) ++ chunk_files (trace r2))) /\
    (crashed (stop r2) = false ->
     concat (map cf_docs (chunk_files (trace r1) ++ chunk_files (trace r2))) =
     concat (successful_pages (trace r1) ++ successful_pages (trace r2))).
Proof.
  eexists. eexists.
  split; [vm_compute; reflexivity|].
  split; [vm_compute; reflexivity|].
  split; [vm_compute; reflexivity|].
  apply (two_runs_compose w_endless (w_down_after 1) small_config None _
           {| ck_cursor := "C"; ck_chunk_counter := 2 |} _);
    vm_compute; reflexivity.
Defined.

(** ** A run that dies in the loop *)

(** X9.  What an uncaught exception inside the loop costs.  The chunk
    files written before it hold a prefix of the records fetched; what is
    lost is exactly the buffer, which is not empty and holds the pages
    counted since the last chunk boundary, at most CHUNK_SIZE_REQS of them;
    and the state file is left as it was. *)
Theorem crash_loses_only_the_buffer w cfg st r :
  harvest w cfg st = Some r ->
  crashed (stop r) = true ->
  state_writes (trace r) = [] /\
  records_buffer (final r) <> [] /\
  concat (map cf_docs (chunk_files (trace r))) ++ records_buffer (final r) =
    concat (successful_pages (trace r)) /\
  exists written buffered,
    pages (trace r) = written ++ buffered /\
    concat (map cf_docs (chunk_files (trace r))) = concat written /\
    records_buffer (final r) = concat buffered /\
    ((List.length buffered <= CHUNK_SIZE_REQS cfg)%nat \/
     CHUNK_SIZE_REQS cfg = 0%nat).
Proof.
  intros H Hcr. apply harvest_spec in H.
  destruct H as [v1 [reqs1 [files1 [k [res [nf [v2 [_ [HP [_ [_ [_ [HI [Hr HE]]]]]]]]]]]]]].
  rewrite Hcr in HE. destruct HE as [Hc [Hs Hf]]. rewrite Hf. clear Hf.
  destruct HI as [_ _ _ _ _ [groups [buffered [Hpg [Hdocs [_ [Hbuf Hle]]]]]]].
  assert (Hwritten : concat (map cf_docs (chunk_files (trace r))) =
                     concat (concat groups)).
  { now rewrite Hc, Hdocs, concat_map_concat. }
  conj.
  - exact Hs.
  - inversion HP; subst; simpl;
      try match goal with
          | E : _ = stop r |- _ => rewrite <- E in Hcr; discriminate
          | E : quota_flow _ _ = Break (stop r) |- _ =>
              unfold quota_flow in E;
              destruct (_ <=? _)%nat; [|discriminate];
              injection E as E; rewrite <- E in Hcr; discriminate
          end;
      intros E; apply app_eq_nil in E; destruct E as [_ E]; contradiction.
  - unfold successful_pages. rewrite <- concat_pages, Hr, Hpg, concat_app.
    now rewrite Hwritten, Hbuf.
  - exists (concat groups), buffered. unfold pages. rewrite Hr. conj; auto.
Qed.

Lemma crash_loses_only_the_buffer_witness :
  exists r,
    harvest w_keyerror small_config None = Some r /\
    crashed (stop r) = true /\
    state_writes (trace r) = [] /\
    records_buffer (final r) <> [] /\
    concat (map cf_docs (chunk_files (trace r))) ++ records_buffer (final r) =
      concat (successful_pages (trace r)) /\
    exists written buffered,
      pages (trace r) = written ++ buffered /\
      concat (map cf_docs (chunk_files (trace r))) = concat written /\
      records_buffer (final r) = concat buffered /\
      ((List.length buffered <= CHUNK_SIZE_REQS small_config)%nat \/
       CHUNK_SIZE_REQS small_config = 0%nat).
Proof.
  eexists. split; [vm_compute; reflexivity|]. split; [reflexivity|].
  apply (crash_loses_only_the_buffer w_keyerror small_config None);
    vm_compute; reflexivity.
Defined.

(** ** A run that counts no page *)



(** ** The names of the chunk files *)

Lemma string_length_app (s t : string) :
  String.length (s ++ t) = (String.length s + String.length t)%nat.
Proof. induction s as [|a s IH]; simpl; [reflexivity | now rewrite IH]. Qed.

Lemma string_app_inv_head (s a b : string) : (s ++ a = s ++ b)%string -> a = b.
Proof.
  induction s as [|x s IH]; simpl; intros E; [exact E|].
  injection E as E. auto.
Qed.

Lemma string_app_inv_tail (t : string) : forall a b : string,
  (a ++ t = b ++ t)%string -> a = b.
Proof.
  induction a as [|x a IH]; intros [|y b] E; simpl in E.
  - reflexivity.
  - apply (f_equal String.length) in E. simpl in E.
    rewrite string_length_app in E. lia.
  - apply (f_equal String.length) in E. simpl in E.
    rewrite string_length_app in E. lia.
  - injection E as -> E. f_equal. now apply IH.
Qed.

(** X11.  The name [flush_chunk] gives a file determines the counter and
    the date it was made from, also for counters of more than six digits
    and for negative ones, which a hand-edited state file can bring in:
    two writes go to the same file only when both agree. *)
Theorem file_name_determines_counter_and_date c1 d1 c2 d2 :
  chunk_name c1 d1 = chunk_name c2 d2 -> c1 = c2 /\ d1 = d2.
Proof.
  intros E. pose proof (chunk_name_inj _ _ _ _ E) as Hc. subst c2.
  split; [reflexivity|].
  unfold chunk_name in E.
  apply string_app_inv_head in E. apply string_app_inv_head in E.
  apply string_app_inv_head in E. now apply string_app_inv_tail in E.
Qed.

Lemma file_name_determines_counter_and_date_witness :
  chunk_name 1000000 "20240101" = chunk_name (999999 + 1) "20240101" /\
  (1000000 = 999999 + 1)%Z /\ "20240101" = "20240101".
Proof.
  assert (E : chunk_name 1000000 "20240101" = chunk_name (999999 + 1) "20240101")
    by reflexivity.
  split; [exact E|].
  exact (file_name_determines_counter_and_date _ _ _ _ E).
Defined.

(** ** One fetch against the network *)

Lemma retry_loop_answers w q : forall atts m res m1,
  retry_loop w atts q m = Some (res, m1) ->
  exists k,
    (forall i, (i < k)%nat -> net w (gets m + i) q = RequestException) /\
    match res with
    | Some (status, body) =>
        (k < List.length atts)%nat /\
        net w (gets m + k) q = Response status body /\
        gets m1 = (gets m + k + 1)%nat
    | None => k = List.length atts /\ gets m1 = (gets m + k)%nat
    end.
Proof.
  induction atts as [|a atts IH]; intros m res m1 H; simpl in H.
  - inv H. exists 0%nat. split; [intros i Hi; lia|]. simpl. split; [reflexivity | lia].
  - destruct (rate_limited_get w q m) as [[r m']|] eqn:Hr; [|discriminate].
    apply rate_limited_get_frame in Hr. destruct Hr as [Hres [Hg _]].
    destruct r as [|status body].
    + apply IH in H. destruct H as [k [Hfail Hlast]].
      change (gets (sleep w Backoff (2 + inject_Z (Z.of_nat a))
                      (print (MsgNetworkError (a + 1)) m')))
        with (gets m') in *.
      rewrite Hg in *.
      exists (S k). split.
      * intros [|i] Hi.
        -- now rewrite Nat.add_0_r.
        -- rewrite Nat.add_succ_r. apply (Hfail i). lia.
      * destruct res as [[status body]|].
        -- destruct Hlast as [Hk [Hn Hgets]]. simpl. conj.
           ++ lia.
           ++ now rewrite Nat.add_succ_r.
           ++ lia.
        -- destruct Hlast as [-> Hgets]. simpl. split; [reflexivity | lia].
    + inv H. exists 0%nat. split; [intros i Hi; lia|]. simpl. conj.
      * lia.
      * now rewrite Nat.add_0_r.
      * lia.
Qed.

(** X12.  What one fetch returns, in terms of the network alone.  With a
    clock that does not run backwards the retry loop returns; it has
    consumed the network's next answers one after the other, skipped the
    failures and stopped at the first response, whatever its status, or
    after the fifth failure in a row; nothing is asked of the network
    beyond that point. *)
Theorem fetch_returns_first_response w q m :
  monotonic_clock w ->
  exists k res m1,
    fetch w q m = Some (res, m1) /\
    (forall i, (i < k)%nat -> net w (gets m + i) q = RequestException) /\
    match res with
    | Some (status, body) =>
        (k < 5)%nat /\
        net w (gets m + k) q = Response status body /\
        gets m1 = (gets m + k + 1)%nat
    | None => k = 5%nat /\ gets m1 = (gets m + 5)%nat
    end.
Proof.
  intros Hmono. unfold fetch.
  destruct (retry_loop_total w Hmono q (seq 0 5) m) as [res [m1 H]].
  destruct (retry_loop_answers _ _ _ _ _ _ H) as [k [Hfail Hlast]].
  exists k, res, m1. conj; auto.
  destruct res as [[status body]|]; simpl in Hlast.
  - exact Hlast.
  - destruct Hlast as [-> ->]. now split.
Qed.

Lemma fetch_returns_first_response_witness :
  monotonic_clock (w_down_after 0) /\
  exists k res m1,
    fetch (w_down_after 0) (initial_query "*") busy_io = Some (res, m1) /\
    (forall i, (i < k)%nat ->
       net (w_down_after 0) (gets busy_io + i) (initial_query "*") = RequestException) /\
    match res with
    | Some (status, body) =>
        (k < 5)%nat /\
        net (w_down_after 0) (gets busy_io + k) (initial_query "*")
          = Response status body /\
        gets m1 = (gets busy_io + k + 1)%nat
    | None => k = 5%nat /\ gets m1 = (gets busy_io + 5)%nat
    end.
Proof.
  assert (Hm : monotonic_clock (w_down_after 0)) by (intros n; simpl; discriminate).
  split; [exact Hm|].
  exact (fetch_returns_first_response (w_down_after 0) (initial_query "*") busy_io Hm).
Defined.

(** ** Time *)

Section Clock.

Variable w : World.
Hypothesis Hmono : monotonic_clock w.

Lemma acquire_clock : forall fuel m now m1,
  acquire w fuel m = Some (now, m1) -> clock m <= clock m1.
Proof.
  induction fuel as [|fuel IH]; intros m now m1 H; [discriminate|].
  rewrite acquire_S in H. cbv zeta in H.
  pose proof (Hmono (ticks m)) as Ht.
  pose proof (Hmono (S (ticks m))) as Ht'.
  change (recent_ts (elapse w 0 m)) with (recent_ts m) in H.
  destruct (_ <? MAX_RPS)%nat.
  - inv H. simpl. lra.
  - destruct (evict (clock (elapse w 0 m)) (recent_ts m)) as [|t0 ts] eqn:Ev;
      [discriminate|].
    apply evict_head in Ev. apply IH in H. simpl in *. lra.
Qed.

Lemma rate_limited_get_clock q m res m1 :
  rate_limited_get w q m = Some (res, m1) -> clock m <= clock m1.
Proof.
  unfold rate_limited_get. intros H.
  destruct (acquire w _ m) as [[now m0]|] eqn:Ha; [|discriminate].
  apply acquire_clock in Ha.
  unfold session_get in H. cbv zeta in H.
  pose proof (Hmono (ticks m0)) as Ht.
  pose proof (Hmono (S (ticks m0))) as Ht'.
  destruct (net w (gets m0) q); inv H; simpl; lra.
Qed.

(** The back-off sleeps of the failed attempts [atts], added up. *)
Lemma retry_loop_clock q : forall atts m m1,
  retry_loop w atts q m = Some (None, m1) ->
  clock m + fold_right (fun a s => 2 + inject_Z (Z.of_nat a) + s) 0 atts
    <= clock m1.
Proof.
  induction atts as [|a atts IH]; intros m m1 H; simpl in H.
  - inv H. simpl. lra.
  - destruct (rate_limited_get w q m) as [[[|status body] m']|] eqn:Hr;
      try discriminate.
    apply rate_limited_get_clock in Hr. apply IH in H.
    pose proof (Hmono (ticks m')) as Ht.
    simpl in *. lra.
Qed.

End Clock.

(** X13.  Giving up takes time.  With a clock that does not run
    backwards, a fetch that fails five times has spent at least the
    back-off sleeps of 2, 3, 4, 5 and 6 seconds, twenty seconds in all: the
    sleep after the fifth failure is taken as well, before the loop is
    left. *)
Theorem giving_up_takes_twenty_seconds w q m m1 :
  monotonic_clock w ->
  fetch w q m = Some (None, m1) ->
  clock m + 20 <= clock m1.
Proof.
  intros Hmono H. unfold fetch in H.
  apply (retry_loop_clock w Hmono) in H. simpl in H.
  unfold inject_Z in H. simpl in H. lra.
Qed.

Lemma giving_up_takes_twenty_seconds_witness :
  monotonic_clock (w_down_after 0) /\
  fetch (w_down_after 0) (initial_query "*") init_io = Some (None, after_failed_fetch) /\
  clock init_io + 20 <= clock after_failed_fetch.
Proof.
  assert (Hm : monotonic_clock (w_down_after 0)) by (intros n; simpl; discriminate).
  assert (H : fetch (w_down_after 0) (initial_query "*") init_io
              = Some (None, after_failed_fetch)) by (vm_compute; reflexivity).
  split; [exact Hm|]. split; [exact H|].
  exact (giving_up_takes_twenty_seconds (w_down_after 0) (initial_query "*")
           init_io after_failed_fetch Hm H).
Defined.

(** ** How many chunk files *)

(** X14.  The chunk files of a run that reaches the lines after the loop
    are the counted pages cut into consecutive groups of CHUNK_SIZE_REQS
    pages, the last group possibly shorter but never empty; so the run
    writes as many files as its number of counted pages divided by
    CHUNK_SIZE_REQS, rounded up. *)
Theorem number_of_chunk_files w cfg st r :
  harvest w cfg st = Some r ->
  crashed (stop r) = false ->
  CHUNK_SIZE_REQS cfg <> 0%nat ->
  List.length (chunk_files (trace r)) =
    ((requests_done (final r) + CHUNK_SIZE_REQS cfg - 1) / CHUNK_SIZE_REQS cfg)%nat /\
  exists groups,
    pages (trace r) = concat groups /\
    map cf_docs (chunk_files (trace r)) = map (@concat Doc) groups /\
    forall full last,
      groups = full ++ [last] ->
      Forall (fun g => List.length g = CHUNK_SIZE_REQS cfg) full /\
      (1 <= List.length last <= CHUNK_SIZE_REQS cfg)%nat.
Proof.
  intros H Hcr Hchunk.
  destruct (run_chunks _ _ _ _ H Hcr)
    as [groups [buffered [Hpg [Hfull [Hle [Hdocs Hd]]]]]].
  assert (Hlen : requests_done (final r) =
                 (CHUNK_SIZE_REQS cfg * List.length groups + List.length buffered)%nat).
  { rewrite Hd, Hpg, length_app. f_equal. now apply length_concat_full. }
  assert (Hfull' : Forall (fun g : list (list Doc) =>
                             List.length g = CHUNK_SIZE_REQS cfg) groups).
  { eapply Forall_impl; [|exact Hfull]. now intros g [Hg _]. }
  assert (Hfiles : List.length (chunk_files (trace r)) =
                   (List.length groups +
                    match buffered with [] => 0 | _ :: _ => 1 end)%nat).
  { rewrite <- (length_map cf_docs), Hdocs, length_app, length_map.
    destruct buffered; reflexivity. }
  destruct Hle as [Hle|Hle]; [|contradiction].
  split.
  - rewrite Hfiles, Hlen. destruct buffered as [|p ps].
    + simpl List.length. apply Nat.div_unique with (r := (CHUNK_SIZE_REQS cfg - 1)%nat); lia.
    + simpl List.length in *.
      apply Nat.div_unique with (r := List.length ps); [lia|].
      rewrite Nat.mul_add_distr_l. lia.
  - exists (groups ++ match buffered with [] => [] | _ :: _ => [buffered] end).
    conj.
    + rewrite Hpg, concat_app. f_equal.
      destruct buffered; [reflexivity|]. simpl. now rewrite app_nil_r.
    + rewrite Hdocs, map_app. f_equal. destruct buffered; reflexivity.
    + intros full last E. destruct buffered as [|p ps].
      * rewrite app_nil_r in E. subst groups.
        apply Forall_app in Hfull'. destruct Hfull' as [Hf Hl].
        split; [exact Hf|]. inv Hl. lia.
      * apply app_inj_tail in E. destruct E as [<- <-].
        split; [exact Hfull'|]. simpl in *. lia.
Qed.

Lemma number_of_chunk_files_witness :
  exists r,
    harvest w_endless small_config None = Some r /\
    crashed (stop r) = false /\
    CHUNK_SIZE_REQS small_config <> 0%nat /\
    List.length (chunk_files (trace r)) = 2%nat /\
    List.length (chunk_files (trace r)) =
      ((requests_done (final r) + CHUNK_SIZE_REQS small_config - 1)
       / CHUNK_SIZE_REQS small_config)%nat /\
    exists groups,
      pages (trace r) = concat groups /\
      map cf_docs (chunk_files (trace r)) = map (@concat Doc) groups /\
      forall full last,
        groups = full ++ [last] ->
        Forall (fun g => List.length g = CHUNK_SIZE_REQS small_config) full /\
        (1 <= List.length last <= CHUNK_SIZE_REQS small_config)%nat.
Proof.
  eexists. split; [vm_compute; reflexivity|]. split; [reflexivity|].
  split; [simpl; discriminate|]. split; [reflexivity|].
  apply (number_of_chunk_files w_endless small_config None);
    [vm_compute; reflexivity | reflexivity | simpl; discriminate].
Defined.

(** ** The run after a run that died *)

Lemma nth_error_map_seq {A} (f : nat -> A) : forall n start i c,
  nth_error (map f (seq start n)) i = Some c -> c = f (start + i)%nat.
Proof.
  induction n as [|n IH]; intros start [|i] c H; simpl in H; try discriminate.
  - inv H. now rewrite Nat.add_0_r.
  - apply IH in H. now rewrite Nat.add_succ_r.
Qed.

(** The i-th file a run writes carries the loaded counter plus i. *)
Lemma run_nth_counter w cfg st r i f :
  harvest w cfg st = Some r ->
  nth_error (chunk_files (trace r)) i = Some f ->
  cf_counter f = (ck_chunk_counter (load_state st) + Z.of_nat (S i))%Z.
Proof.
  intros H Hi. apply (map_nth_error cf_counter) in Hi.
  rewrite (run_counters _ _ _ _ H) in Hi.
  apply nth_error_map_seq in Hi. exact Hi.
Qed.

(** X15.  A run that died in the loop leaves the state file as it found
    it, so the run after it starts from the same state: its first call asks
    again for the page the dead run started with, and it numbers its chunk
    files as the dead run did.  The i-th file of the new run has the
    counter of the i-th file of the dead run and, written on the same day,
    the same name: it takes the place of that file. *)
Theorem rerun_after_a_crash w1 w2 cfg st r1 r2 :
  harvest w1 cfg st = Some r1 ->
  crashed (stop r1) = true ->
  harvest w2 cfg (state_after st (trace r1)) = Some r2 ->
  state_after st (trace r1) = st /\
  (forall x1 rest1 x2 rest2,
      requests (trace r1) = x1 :: rest1 ->
      requests (trace r2) = x2 :: rest2 ->
      fst x2 = fst x1) /\
  forall i f1 f2,
    nth_error (chunk_files (trace r1)) i = Some f1 ->
    nth_error (chunk_files (trace r2)) i = Some f2 ->
    cf_counter f2 = cf_counter f1 /\
    (cf_date f2 = cf_date f1 -> file_name f2 = file_name f1).
Proof.
  intros H1 Hcr H2.
  assert (Hst : state_after st (trace r1) = st).
  { unfold state_after. now rewrite (crashed_no_checkpoint _ _ _ _ H1 Hcr). }
  rewrite Hst in H2. conj.
  - exact Hst.
  - intros x1 rest1 x2 rest2 E1 E2.
    rewrite (run_cursors_linked _ _ _ _ [] x1 rest1 H1 E1).
    now rewrite (run_cursors_linked _ _ _ _ [] x2 rest2 H2 E2).
  - intros i f1 f2 E1 E2.
    assert (Hc : cf_counter f2 = cf_counter f1).
    { rewrite (run_nth_counter _ _ _ _ _ _ H1 E1).
      now rewrite (run_nth_counter _ _ _ _ _ _ H2 E2). }
    split; [exact Hc|].
    intros Hd. unfold file_name. now rewrite Hc, Hd.
Qed.

Lemma rerun_after_a_crash_witness :
  exists r1 r2,
    harvest w_keyerror one_by_one None = Some r1 /\
    crashed (stop r1) = true /\
    harvest w_endless one_by_one (state_after None (trace r1)) = Some r2 /\
    List.length (chunk_files (trace r1)) = 1%nat /\
    List.length (chunk_files (trace r2)) = 4%nat /\
    state_after None (trace r1) = None /\
    (forall x1 rest1 x2 rest2,
        requests (trace r1) = x1 :: rest1 ->
        requests (trace r2) = x2 :: rest2 ->
        fst x2 = fst x1) /\
    forall i f1 f2,
      nth_error (chunk_files (trace r1)) i = Some f1 ->
      nth_error (chunk_files (trace r2)) i = Some f2 ->
      cf_counter f2 = cf_counter f1 /\
      (cf_date f2 = cf_date f1 -> file_name f2 = file_name f1).
Proof.
  eexists. eexists.
  split; [vm_compute; reflexivity|]. split; [reflexivity|].
  split; [vm_compute; reflexivity|]. split; [reflexivity|].
  split; [reflexivity|].
  apply (rerun_after_a_crash w_keyerror w_endless one_by_one None);
    vm_compute; reflexivity.
Defined.

(** ** The deque of the limiter *)

Lemma time_ordered_suffix dropped : forall kept,
  time_ordered (dropped ++ kept) -> time_ordered kept.
Proof.
  induction dropped as [|t dropped IH]; intros kept H; [exact H|].
  destruct H as [_ H]. now apply IH.
Qed.

Lemma time_ordered_snoc t : forall ts,
  time_ordered ts -> Forall (fun u => u <= t) ts -> time_ordered (ts ++ [t]).
Proof.
  induction ts as [|u ts IH]; intros Hord Hle; simpl.
  - split; [constructor | exact I].
  - destruct Hord as [Hu Hord]. inv Hle. split.
    + apply Forall_app. split; [exact Hu | now repeat constructor].
    + now apply IH.
Qed.

(** X16.  The inner [while] of the limiter looks at the oldest stamp
    only.  On a deque in the order of time that is enough: what it leaves
    is exactly the stamps for which the comparison of line 56 fails.  With
    the doubles of Python these are the stamps younger than WINDOW - 2^-54
    seconds: none of them is dropped, none older is kept, and a stamp
    whose age lies between that and WINDOW is dropped although it is
    younger than WINDOW. *)
Theorem eviction_keeps_the_window now ts :
  time_ordered ts ->
  evict_fl round53 now ts =
  filter (younger_than (WINDOW - half_ulp_of_one) now) ts.
Proof. apply evict_fl_filter. apply double_turns. Qed.

Lemma eviction_keeps_the_window_witness :
  time_ordered [1 # 2 ^ 60; 1 # 2] /\
  evict_fl round53 1 [1 # 2 ^ 60; 1 # 2] =
    filter (younger_than (WINDOW - half_ulp_of_one) 1) [1 # 2 ^ 60; 1 # 2] /\
  evict_fl round53 1 [1 # 2 ^ 60; 1 # 2] = [1 # 2] /\
  evict 1 [1 # 2 ^ 60; 1 # 2] = [1 # 2 ^ 60; 1 # 2].
Proof.
  assert (H : time_ordered [1 # 2 ^ 60; 1 # 2]).
  { simpl. repeat split; repeat constructor; discriminate. }
  split; [exact H|]. split; [|split; vm_compute; reflexivity].
  exact (eviction_keeps_the_window 1 [1 # 2 ^ 60; 1 # 2] H).
Defined.

(** X17.  The deque stays in the order of time.  With a clock that does
    not run backwards, a call of [rate_limited_get] on a deque that is in
    the order of time and holds no stamp from the future leaves such a
    deque: stamps leave at the front and the new one, the latest clock
    reading, is put at the back. *)
Theorem deque_stays_in_time_order w q m res m1 :
  monotonic_clock w ->
  time_ordered (recent_ts m) ->
  Forall (fun t => t <= clock m) (recent_ts m) ->
  rate_limited_get w q m = Some (res, m1) ->
  time_ordered (recent_ts m1) /\
  Forall (fun t => t <= clock m1) (recent_ts m1).
Proof.
  intros Hmono Hord Hpast H. unfold rate_limited_get in H.
  destruct (acquire w _ m) as [[now m0]|] eqn:Ha; [|discriminate].
  pose proof (acquire_clock w Hmono _ _ _ _ Ha) as Hclk.
  apply acquire_suffix in Ha. destruct Ha as [_ [dropped Hd]].
  rewrite Hd in Hord, Hpast.
  apply time_ordered_suffix in Hord.
  apply Forall_app in Hpast. destruct Hpast as [_ Hpast].
  unfold session_get in H. cbv zeta in H.
  pose proof (Hmono (ticks m0)) as Ht.
  pose proof (Hmono (S (ticks m0))) as Ht'.
  destruct (net w (gets m0) q); inv H; simpl.
  - split; [exact Hord|]. eapply Forall_past; [|exact Hpast]. lra.
  - assert (Hle : Forall (fun t => t <= clock m0 + 0 + tick w (ticks m0) + 0
                                        + tick w (S (ticks m0))) (recent_ts m0)).
    { eapply Forall_past; [|exact Hpast]. lra. }
    split.
    + now apply time_ordered_snoc.
    + apply Forall_app. split; [exact Hle|]. repeat constructor. lra.
Qed.

Lemma deque_stays_in_time_order_witness :
  monotonic_clock w_endless /\
  time_ordered (recent_ts busy_io) /\
  Forall (fun t => t <= clock busy_io) (recent_ts busy_io) /\
  rate_limited_get w_endless (initial_query "*") busy_io
    = Some (net w_endless 9 (initial_query "*"), after_busy_success) /\
  time_ordered (recent_ts after_busy_success) /\
  Forall (fun t => t <= clock after_busy_success) (recent_ts after_busy_success).
Proof.
  assert (Hm : monotonic_clock w_endless) by (intros n; simpl; discriminate).
  assert (Ho : time_ordered (recent_ts busy_io)).
  { simpl. repeat split; repeat constructor; discriminate. }
  assert (Hp : Forall (fun t => t <= clock busy_io) (recent_ts busy_io)).
  { repeat constructor; simpl; discriminate. }
  assert (H : rate_limited_get w_endless (initial_query "*") busy_io
              = Some (net w_endless 9 (initial_query "*"), after_busy_success))
    by (vm_compute; reflexivity).
  split; [exact Hm|]. split; [exact Ho|]. split; [exact Hp|]. split; [exact H|].
  exact (deque_stays_in_time_order w_endless (initial_query "*") busy_io _ _ Hm Ho Hp H).
Defined.

(** ** A chunk size of zero *)

Lemma pass_continue_chunk cfg v res nf v' :
  Pass cfg v res nf Continue v' -> CHUNK_SIZE_REQS cfg <> 0%nat.
Proof. intros H. inversion H; subst; assumption. Qed.

(** X18.  With CHUNK_SIZE_REQS set to 0 the script cannot get past its
    first page.  Line 116 divides by the chunk size, so the first response
    that carries entries and a next token raises ZeroDivisionError: the
    page is lost, no file and no state is written.  Whatever the provider
    answers, such a run makes one fetch, counts at most one page and never
    stops on the quota. *)
Theorem chunk_size_zero w cfg st r :
  CHUNK_SIZE_REQS cfg = 0%nat ->
  harvest w cfg st = Some r ->
  (List.length (requests (trace r)) <= 5)%nat /\
  (requests_done (final r) <= 1)%nat /\
  stop r <> QuotaHit /\
  forall x,
    In x (requests (trace r)) -> advance x <> None ->
    stop r = ZeroDivisionError /\
    chunk_files (trace r) = [] /\ state_writes (trace r) = [].
Proof.
  intros Hzero H.
  apply (harvest_last w cfg st r
           (fun v m =>
              requests_done v = 0%nat /\ requests (otrace m) = [] /\
              chunk_files (otrace m) = [])) in H.
  - destruct H as [v1 [m1 [k [res [nf [v2 [[Hrd [Hreqs Hfiles]] [_ [HP [_ [Hres [_ [_ [Hr HE]]]]]]]]]]]]]].
    pose proof (pass_pages HP) as Hpg.
    pose proof (length_pick_final_request counted_page (query v1) res) as Hone.
    assert (Hfin : requests_done (final r) = requests_done v2).
    { destruct (crashed (stop r)).
      - now destruct HE as [_ [_ ->]].
      - now destruct HE as [date [_ [_ [_ [Hd _]]]]]. }
    rewrite Hr, Hreqs. simpl app. conj.
    + now apply length_fetch_requests.
    + lia.
    + intros Hq. rewrite Hq in HP. inversion HP; subst; contradiction.
    + intros x Hin Hadv.
      unfold fetch_requests in Hin. apply in_app_or in Hin.
      destruct Hin as [Hin|Hin].
      { apply repeat_spec in Hin. subst x. now contradiction Hadv. }
      destruct res as [[status body]|]; [|contradiction].
      destruct Hin as [<-|[]].
      inversion HP; subst.
      * contradiction Hadv. now apply advance_http.
      * contradiction Hadv. now apply advance_empty.
      * contradiction Hadv. now apply advance_keyerror.
      * contradiction Hadv. erewrite advance_ok by eassumption. assumption.
      * match goal with E : _ = stop r |- _ => rewrite <- E in * end.
        simpl in HE. destruct HE as [Hc [Hs _]].
        conj; auto. now rewrite Hc, Hfiles.
      * contradiction.
      * contradiction.
  - now conj.
  - intros v m v' m' _ Hi. apply iteration_pass in Hi.
    destruct Hi as [tr [k [res [_ [_ [_ [_ [_ [_ HP]]]]]]]]].
    apply pass_continue_chunk in HP. contradiction.
Qed.

Lemma chunk_size_zero_witness :
  CHUNK_SIZE_REQS no_chunks = 0%nat /\
  exists r,
    harvest w_endless no_chunks None = Some r /\
    stop r = ZeroDivisionError /\
    (List.length (requests (trace r)) <= 5)%nat /\
    (requests_done (final r) <= 1)%nat /\
    stop r <> QuotaHit /\
    forall x,
      In x (requests (trace r)) -> advance x <> None ->
      stop r = ZeroDivisionError /\
      chunk_files (trace r) = [] /\ state_writes (trace r) = [].
Proof.
  split; [reflexivity|].
  eexists. split; [vm_compute; reflexivity|]. split; [reflexivity|].
  apply (chunk_size_zero w_endless no_chunks None);
    [reflexivity | vm_compute; reflexivity].
Defined.

(** ** What the console says *)

Lemma reasons_cons e l :
  reasons (e :: l) =
  match e with
  | EvPrint msg => match reason_of msg with Some s => [s] | None => [] end
  | _ => []
  end ++ reasons l.
Proof.
  unfold reasons. simpl. destruct e as [g t q res|site d|msg|c d docs|c]; try reflexivity.
  destruct (reason_of msg); reflexivity.
Qed.

Lemma acquire_reasons w : forall fuel m now m1,
  acquire w fuel m = Some (now, m1) -> reasons (events m1) = reasons (events m).
Proof.
  induction fuel as [|fuel IH]; intros m now m1 H; [discriminate|].
  rewrite acquire_S in H. cbv zeta in H.
  destruct (_ <? MAX_RPS)%nat.
  - now inv H.
  - destruct (evict _ _) as [|t0 ts']; [discriminate|].
    apply IH in H. rewrite H. reflexivity.
Qed.

Lemma rate_limited_get_reasons w q m res m1 :
  rate_limited_get w q m = Some (res, m1) -> reasons (events m1) = reasons (events m).
Proof.
  unfold rate_limited_get. intros H.
  destruct (acquire _ _ _) as [[now m0]|] eqn:Ha; [|discriminate].
  apply acquire_reasons in Ha. rewrite <- Ha.
  unfold session_get in H. cbv zeta in H.
  destruct (net w (gets m0) q); inv H; reflexivity.
Qed.

Lemma retry_loop_reasons w q : forall atts m res m1,
  retry_loop w atts q m = Some (res, m1) ->
  reasons (events m1) =
  match res with None => [NetworkFailed] | Some _ => [] end ++ reasons (events m).
Proof.
  induction atts as [|a atts IH]; intros m res m1 H; simpl in H.
  - now inv H.
  - destruct (rate_limited_get w q m) as [[[|status body] m']|] eqn:Hr;
      [| |discriminate].
    + apply rate_limited_get_reasons in Hr. apply IH in H.
      rewrite H, <- Hr. reflexivity.
    + apply rate_limited_get_reasons in Hr. inv H. exact Hr.
Qed.

(** The pass that leaves the loop prints its reason, unless it dies. *)
Lemma iteration_reasons w cfg v m flow v' m' :
  iteration w cfg v m = Some (flow, v', m') ->
  reasons (events m') =
  match flow with
  | Continue => []
  | Break s => if crashed s then [] else [s]
  end ++ reasons (events m).
Proof.
  unfold iteration, fetch. intros H.
  destruct (retry_loop w (seq 0 5) (query v) m) as [[res m1]|] eqn:Hf;
    [|discriminate].
  apply retry_loop_reasons in Hf.
  destruct res as [[status body]|]; [|inv H; exact Hf].
  simpl in Hf.
  destruct (negb _); [inv H; rewrite <- Hf; reflexivity|].
  destruct (entries_of body); [inv H; rewrite <- Hf; reflexivity|].
  destruct (next_cursor_of body); [|inv H; exact Hf].
  destruct (truthy _); [|inv H; rewrite <- Hf; reflexivity].
  destruct (CHUNK_SIZE_REQS cfg); [inv H; exact Hf|].
  destruct (_ =? 0)%nat; unfold flush_and_reset in H;
    destruct (_ <=? _)%nat; inv H; rewrite <- Hf; reflexivity.
Qed.

(** X19.  The console says why the run stopped.  A run that reaches the
    lines after the loop has printed exactly one of the five lines for
    "network failed", "HTTP status", "no more entries", "no @next cursor"
    and "quota hit", and it is the line of the reason the loop was left
    for; a run that died in the loop has printed none of them. *)
Theorem console_gives_the_reason w cfg st r :
  harvest w cfg st = Some r ->
  reasons (trace r) = if crashed (stop r) then [] else [stop r].
Proof.
  unfold harvest. intros H.
  destruct (perf_counter w init_io) as [t_start m0] eqn:Hpc.
  assert (Hm0 : reasons (events m0) = []) by now inv Hpc.
  destruct (main_loop _ _ _ _ _) as [[[s v2] m2]|] eqn:Hl; [|discriminate].
  apply (main_loop_last w cfg (fun _ m => reasons (events m) = [])) in Hl;
    [| |exact Hm0].
  2:{ intros v m v' m' HP Hi. apply iteration_reasons in Hi. now rewrite Hi, HP. }
  destruct Hl as [v1 [m1 [HP Hi]]]. apply iteration_reasons in Hi.
  rewrite HP, app_nil_r in Hi.
  destruct (crashed s) eqn:Hcr.
  - inv H. simpl. rewrite Hcr. unfold reasons in *.
    now rewrite pick_rev, Hi.
  - assert (He : forall t v3 m3,
               epilogue w t v2 m2 = (v3, m3) -> reasons (events m3) = [s]).
    { unfold epilogue, flush_leftovers. intros t v3 m3 E.
      destruct (records_buffer v2); inv E; simpl; rewrite !reasons_cons; simpl;
        exact Hi. }
    destruct (epilogue w t_start v2 m2) as [v3 m3] eqn:E.
    apply He in E. inv H. simpl. rewrite Hcr. unfold reasons in *.
    now rewrite pick_rev, E.
Qed.

Lemma console_gives_the_reason_witness :
  exists r,
    harvest (w_unavailable_after 1) small_config None = Some r /\
    stop r = HttpError 503 /\
    reasons (trace r) = if crashed (stop r) then [] else [stop r].
Proof.
  eexists. split; [vm_compute; reflexivity|]. split; [reflexivity|].
  apply (console_gives_the_reason (w_unavailable_after 1) small_config None).
  vm_compute; reflexivity.
Defined.

(** ** A first run *)

(** X20.  Without a state file the run starts from the defaults of lines
    35-37: its first call asks for the cursor "*", and its chunk files are
    numbered from 1, the first one being scopus_raw_000001_<date>.jsonl.gz. *)
Theorem fresh_start w cfg r :
  harvest w cfg None = Some r ->
  (forall x rest, requests (trace r) = x :: rest -> fst x = initial_query "*") /\
  (forall i f,
      nth_error (chunk_files (trace r)) i = Some f ->
      cf_counter f = Z.of_nat (S i)) /\
  (forall f rest,
      chunk_files (trace r) = f :: rest ->
      file_name f = ("scopus_raw_000001_" ++ cf_date f ++ ".jsonl.gz")%string).
Proof.
  intros H. conj.
  - intros x rest E. exact (run_cursors_linked _ _ _ _ [] x rest H E).
  - intros i f E. now rewrite (run_nth_counter _ _ _ _ _ _ H E).
  - intros f rest E.
    assert (E0 : nth_error (chunk_files (trace r)) 0 = Some f) by now rewrite E.
    unfold file_name. now rewrite (run_nth_counter _ _ _ _ _ _ H E0).
Qed.

Lemma fresh_start_witness :
  exists r,
    harvest w_endless small_config None = Some r /\
    (forall x rest, requests (trace r) = x :: rest -> fst x = initial_query "*") /\
    (forall i f,
        nth_error (chunk_files (trace r)) i = Some f ->
        cf_counter f = Z.of_nat (S i)) /\
    (forall f rest,
        chunk_files (trace r) = f :: rest ->
        file_name f = ("scopus_raw_000001_" ++ cf_date f ++ ".jsonl.gz")%string).
Proof.
  eexists. split; [vm_compute; reflexivity|].
  apply (fresh_start w_endless small_config).
  vm_compute; reflexivity.
Defined.

(** ** Why a run stops *)


